(** * The Mandelbrot viewer: view-state controller and escape-time shader

    A shallow embedding of [Fractal/Fractal.cpp].

    - The C++ globals ([zoom], [offsetX], [offsetY], [maxIterations],
      [isDragging], [lastMouseX], [lastMouseY]) and the three GLFW
      callbacks are modelled over Rocq's primitive binary64 floats, which
      are the IEEE 754 doubles the callbacks compute with.
    - The GLSL fragment shader computes in single precision.  It is
      modelled over [spec_float] at precision 24 and maximal exponent 128
      (IEEE 754 binary32, round to nearest even), every operator of the
      shader source being one correctly rounded operation.
    - [compileShader], [createShaderProgram] and [main] are modelled as
      programs that record the calls they make to GLFW, GLAD and OpenGL,
      the answers of the libraries being parameters.
    - The escape-time iteration is also written a second time, from its
      description ([EscapeTimeSpec]); the loop of the shader is proved to
      compute it. *)

From Stdlib Require Import ZArith QArith Qpower Lia Bool List Floats.
From Stdlib Require Import Lqa.
From Stdlib Require String.
Import ListNotations.

Set Warnings "-inexact-float,-abstract-large-number".

(** ** The view-state controller (C++ globals and GLFW callbacks) *)

Module Controller.

Local Open Scope float_scope.

(** Window dimensions. *)
Definition WIDTH : Z := 800.
Definition HEIGHT : Z := 800.

(** The values GLFW's header gives to the constants the callbacks test. *)
Definition GLFW_MOUSE_BUTTON_LEFT : Z := 0.
Definition GLFW_RELEASE : Z := 0.
Definition GLFW_PRESS : Z := 1.

(** The global variables of the program. *)
Record Globals : Set := mkGlobals {
  zoom : float;
  offsetX : float;
  offsetY : float;
  maxIterations : Z;
  isDragging : bool;
  lastMouseX : float;
  lastMouseY : float
}.

(** Their values when [main] starts: the initialisers of the source, and
    zero for [lastMouseX], [lastMouseY], which have static storage. *)
Definition initial : Globals :=
  {| zoom := 200.0; offsetX := -0.5; offsetY := 0.0; maxIterations := 1500;
     isDragging := false; lastMouseX := 0.0; lastMouseY := 0.0 |}.

Definition set_zoom (g : Globals) (z : float) : Globals :=
  {| zoom := z; offsetX := offsetX g; offsetY := offsetY g;
     maxIterations := maxIterations g; isDragging := isDragging g;
     lastMouseX := lastMouseX g; lastMouseY := lastMouseY g |}.

Definition scrollCallback (g : Globals) (xoffset yoffset : float) : Globals :=
  if 0 <? yoffset then set_zoom g (zoom g * 1.1)
  else if yoffset <? 0 then set_zoom g (zoom g / 1.1)
  else g.

(** [cursor] is what [glfwGetCursorPos] stores through its two pointers. *)
Definition mouseButtonCallback (g : Globals) (cursor : float * float)
    (button action mods : Z) : Globals :=
  if (button =? GLFW_MOUSE_BUTTON_LEFT)%Z then
    if (action =? GLFW_PRESS)%Z then
      {| zoom := zoom g; offsetX := offsetX g; offsetY := offsetY g;
         maxIterations := maxIterations g; isDragging := true;
         lastMouseX := fst cursor; lastMouseY := snd cursor |}
    else if (action =? GLFW_RELEASE)%Z then
      {| zoom := zoom g; offsetX := offsetX g; offsetY := offsetY g;
         maxIterations := maxIterations g; isDragging := false;
         lastMouseX := lastMouseX g; lastMouseY := lastMouseY g |}
    else g
  else g.

Definition cursorPositionCallback (g : Globals) (xpos ypos : float) : Globals :=
  if isDragging g then
    let dx := xpos - lastMouseX g in
    let dy := ypos - lastMouseY g in
    {| zoom := zoom g;
       offsetX := offsetX g - dx / zoom g;
       offsetY := offsetY g + dy / zoom g;
       maxIterations := maxIterations g; isDragging := isDragging g;
       lastMouseX := xpos; lastMouseY := ypos |}
  else g.

(** The events GLFW delivers during [glfwPollEvents]. *)
Inductive Event : Set :=
| Scroll (xoffset yoffset : float)
| MouseButton (cursor : float * float) (button action mods : Z)
| CursorPos (xpos ypos : float).

Definition handle (g : Globals) (ev : Event) : Globals :=
  match ev with
  | Scroll xo yo => scrollCallback g xo yo
  | MouseButton cur b a m => mouseButtonCallback g cur b a m
  | CursorPos x y => cursorPositionCallback g x y
  end.

Definition run (g : Globals) (evs : list Event) : Globals :=
  fold_left handle evs g.

End Controller.

(** ** The fragment shader (GLSL, single precision) *)

Module Shader.

Local Open Scope Z_scope.

(** GLSL [float]: IEEE 754 binary32. *)
Definition prec32 : Z := 24.
Definition emax32 : Z := 128.
Definition float32 : Set := spec_float.

Definition fadd : float32 -> float32 -> float32 := SFadd prec32 emax32.
Definition fsub : float32 -> float32 -> float32 := SFsub prec32 emax32.
Definition fmul : float32 -> float32 -> float32 := SFmul prec32 emax32.
Definition fdiv : float32 -> float32 -> float32 := SFdiv prec32 emax32.
Definition flt : float32 -> float32 -> bool := SFltb.

(** The literals of the shader source. *)
Definition f0_0 : float32 := S754_zero false.
Definition f0_5 : float32 := S754_finite false 8388608 (-24).
Definition f1_0 : float32 := S754_finite false 8388608 (-23).
Definition f2_0 : float32 := S754_finite false 8388608 (-22).
Definition f4_0 : float32 := S754_finite false 8388608 (-21).

(** GLSL [int]: 32 bits, two's complement; [float(i)] rounds to nearest. *)
Definition INT_MAX : Z := 2147483647.
Definition wrap32 (n : Z) : Z := (n + 2 ^ 31) mod 2 ^ 32 - 2 ^ 31.
Definition int_to_float (n : Z) : float32 := binary_normalize prec32 emax32 n 0 false.

Record vec2 : Set := mkvec2 { vx : float32; vy : float32 }.
Record vec4 : Set := mkvec4 { v4x : float32; v4y : float32; v4z : float32; v4w : float32 }.

Definition vec2_add (u v : vec2) : vec2 := mkvec2 (fadd (vx u) (vx v)) (fadd (vy u) (vy v)).
Definition vec2_sub (u v : vec2) : vec2 := mkvec2 (fsub (vx u) (vx v)) (fsub (vy u) (vy v)).
Definition vec2_scale (u : vec2) (k : float32) : vec2 := mkvec2 (fmul (vx u) k) (fmul (vy u) k).
Definition vec2_div (u : vec2) (k : float32) : vec2 := mkvec2 (fdiv (vx u) k) (fdiv (vy u) k).
Definition dot (u v : vec2) : float32 := fadd (fmul (vx u) (vx v)) (fmul (vy u) (vy v)).

(** The uniforms of the shader. *)
Record Uniforms : Set := mkUniforms {
  u_resolution : vec2;
  u_offset : vec2;
  u_zoom : float32;
  u_maxIterations : Z
}.

(** [vec2 c = (gl_FragCoord.xy - u_resolution * 0.5) / u_zoom + u_offset;] *)
Definition fragment_to_complex (u : Uniforms) (fragCoord : vec2) : vec2 :=
  vec2_add (vec2_div (vec2_sub fragCoord (vec2_scale (u_resolution u) f0_5)) (u_zoom u))
           (u_offset u).

(** [dot(z, z) < 4.0 && iteration < u_maxIterations] *)
Definition loop_guard (maxIter : Z) (z : vec2) (iteration : Z) : bool :=
  flt (dot z z) f4_0 && (iteration <? maxIter).

(** [z = vec2(z.x * z.x - z.y * z.y + c.x, 2.0 * z.x * z.y + c.y);] *)
Definition loop_body (c z : vec2) : vec2 :=
  mkvec2 (fadd (fsub (fmul (vx z) (vx z)) (fmul (vy z) (vy z))) (vx c))
         (fadd (fmul (fmul f2_0 (vx z)) (vy z)) (vy c)).

(** The [while] loop; [fuel] bounds the number of passes of the model. *)
Fixpoint while_loop (fuel : nat) (c : vec2) (maxIter : Z) (z : vec2) (iteration : Z)
  : vec2 * Z :=
  if loop_guard maxIter z iteration then
    match fuel with
    | O => (z, iteration)
    | S fuel' => while_loop fuel' c maxIter (loop_body c z) (wrap32 (iteration + 1))
    end
  else (z, iteration).

(** The state of the loop at its exit, from [z = vec2(0.0)], [iteration = 0]. *)
Definition escape (c : vec2) (maxIter : Z) : vec2 * Z :=
  while_loop (Z.to_nat maxIter) c maxIter (mkvec2 f0_0 f0_0) 0.

Definition iterations (u : Uniforms) (fragCoord : vec2) : Z :=
  snd (escape (fragment_to_complex u fragCoord) (u_maxIterations u)).

(** [float t = float(iteration) / float(u_maxIterations);
     fragColor = vec4(t, t * t, t * 0.5, 1.0);] *)
Definition color_of (iteration maxIter : Z) : vec4 :=
  let t := fdiv (int_to_float iteration) (int_to_float maxIter) in
  mkvec4 t (fmul t t) (fmul t f0_5) f1_0.

(** [main]: the value written to [fragColor]. *)
Definition main (u : Uniforms) (fragCoord : vec2) : vec4 :=
  color_of (iterations u fragCoord) (u_maxIterations u).

(** The points of the recurrence, written without the loop. *)
Fixpoint orbit (c : vec2) (n : nat) : vec2 :=
  match n with
  | O => mkvec2 f0_0 f0_0
  | S k => loop_body c (orbit c k)
  end.

(** The bailout test [|z|^2 < 4] of the shader. *)
Definition inside (z : vec2) : bool := flt (dot z z) f4_0.

(** The run of one invocation as a transition system. *)
Inductive config : Set :=
| Looping (z : vec2) (iteration : Z)
| Finished (fragColor : vec4).

Inductive step (c : vec2) (maxIter : Z) : config -> config -> Prop :=
| step_pass z i :
    loop_guard maxIter z i = true ->
    step c maxIter (Looping z i) (Looping (loop_body c z) (wrap32 (i + 1)))
| step_exit z i :
    loop_guard maxIter z i = false ->
    step c maxIter (Looping z i) (Finished (color_of i maxIter)).

Inductive steps (c : vec2) (maxIter : Z) : config -> config -> Prop :=
| steps_refl k : steps c maxIter k k
| steps_cons k1 k2 k3 : step c maxIter k1 k2 -> steps c maxIter k2 k3 -> steps c maxIter k1 k3.

(** An invocation on a fragment produces the colour [col]. *)
Definition produces (u : Uniforms) (fragCoord : vec2) (col : vec4) : Prop :=
  steps (fragment_to_complex u fragCoord) (u_maxIterations u)
        (Looping (mkvec2 f0_0 f0_0) 0) (Finished col).

(** Conversion of a [double] to [float], as when a uniform is set. *)
Definition double_to_float (x : float) : float32 :=
  match Prim2SF x with
  | S754_finite s m e => binary_round prec32 emax32 s m e
  | y => y
  end.

(** The uniforms the rendering loop of [main] sets from the globals. *)
Definition uniforms_of (g : Controller.Globals) : Uniforms :=
  {| u_resolution := mkvec2 (int_to_float Controller.WIDTH) (int_to_float Controller.HEIGHT);
     u_offset := mkvec2 (double_to_float (Controller.offsetX g))
                        (double_to_float (Controller.offsetY g));
     u_zoom := double_to_float (Controller.zoom g);
     u_maxIterations := Controller.maxIterations g |}.

(** The colour of a fragment in the frame drawn from the globals [g]. *)
Definition render (g : Controller.Globals) (fragCoord : vec2) : vec4 :=
  main (uniforms_of g) fragCoord.

(** The exact value of a finite float, as a rational: [(-1)^s * m * 2^e]. *)
Definition float_value (x : float32) : Q :=
  match x with
  | S754_finite s m e => (inject_Z (cond_Zopp s (Zpos m)) * Qpower 2 e)%Q
  | _ => 0%Q
  end.

(** [|c|^2], exactly. *)
Definition norm2 (c : vec2) : Q :=
  (float_value (vx c) * float_value (vx c) + float_value (vy c) * float_value (vy c))%Q.

(** Two floats that denote the same number (the sign of a zero apart). *)
Definition same_number (x y : float32) : Prop :=
  match x, y with
  | S754_zero _, S754_zero _ => True
  | _, _ => x = y
  end.

End Shader.

(** ** The escape-time iteration, as its description words it

    Written from the description of the evaluator and not from the
    shader's loop, to be compared with it: the sequence [z0 = (0,0)],
    [z(k+1) = (zk.x^2 - zk.y^2 + c.x, 2*zk.x*zk.y + c.y)] and the test
    [|z|^2 < 4], in binary32 arithmetic (precision 24, maximal exponent
    128), every operation rounded once. *)

Module EscapeTimeSpec.

Local Open Scope Z_scope.

(** The binary32 float of an integer. *)
Definition spec_const (n : Z) : spec_float := binary_normalize 24 128 n 0 false.

Definition spec_add : spec_float -> spec_float -> spec_float := SFadd 24 128.
Definition spec_sub : spec_float -> spec_float -> spec_float := SFsub 24 128.
Definition spec_mul : spec_float -> spec_float -> spec_float := SFmul 24 128.

(** [z <- (z.x^2 - z.y^2 + c.x, 2*z.x*z.y + c.y)] *)
Definition spec_next (c z : Shader.vec2) : Shader.vec2 :=
  let x := Shader.vx z in
  let y := Shader.vy z in
  Shader.mkvec2
    (spec_add (spec_sub (spec_mul x x) (spec_mul y y)) (Shader.vx c))
    (spec_add (spec_mul (spec_mul (spec_const 2) x) y) (Shader.vy c)).

(** The sequence from [z = (0,0)]. *)
Fixpoint spec_sequence (c : Shader.vec2) (n : nat) : Shader.vec2 :=
  match n with
  | O => Shader.mkvec2 (spec_const 0) (spec_const 0)
  | S k => spec_next c (spec_sequence c k)
  end.

(** [|z|^2 = z.x^2 + z.y^2] *)
Definition spec_norm2 (z : Shader.vec2) : spec_float :=
  spec_add (spec_mul (Shader.vx z) (Shader.vx z)) (spec_mul (Shader.vy z) (Shader.vy z)).

(** [|z|^2 < 4] *)
Definition spec_below_four (z : Shader.vec2) : bool :=
  SFltb (spec_norm2 z) (spec_const 4).

End EscapeTimeSpec.

(** ** The vertex shader *)

Module VertexShader.

Import Shader.

(** [gl_Position = vec4(position, 0.0, 1.0);] *)
Definition main (position : vec2) : vec4 :=
  mkvec4 (vx position) (vy position) f0_0 f1_0.

End VertexShader.

(** ** The host program: shader set-up, [main] and its rendering loop

    The calls to GLFW, GLAD and OpenGL are recorded in the order the
    program makes them; what the libraries answer is read from a
    [Platform].  Events reach the callbacks during [glfwPollEvents]. *)

Module Host.

Import String.
Import Controller.
Local Open Scope string_scope.
Local Open Scope list_scope.
Local Open Scope Z_scope.

Inductive GLenum : Set :=
| GL_VERTEX_SHADER | GL_FRAGMENT_SHADER
| GL_COMPILE_STATUS | GL_LINK_STATUS
| GL_ARRAY_BUFFER | GL_STATIC_DRAW | GL_FLOAT
| GL_COLOR_BUFFER_BIT | GL_TRIANGLE_STRIP.

(** The two GLSL sources of the program; the fragment shader is the one
    embedded in [Shader]. *)
Inductive ShaderSource : Set := vertexShaderSource | fragmentShaderSource.

(** The three callbacks of [Controller]. *)
Inductive Callback : Set := scrollCallback | mouseButtonCallback | cursorPositionCallback.

Inductive Call : Set :=
| glfwInit
| glfwCreateWindow (width height : Z) (title : string)
| glfwTerminate
| glfwMakeContextCurrent (window : Z)
| gladLoadGLLoader
| glfwSetScrollCallback (window : Z) (cb : Callback)
| glfwSetMouseButtonCallback (window : Z) (cb : Callback)
| glfwSetCursorPosCallback (window : Z) (cb : Callback)
| glGenVertexArrays (n : Z)
| glGenBuffers (n : Z)
| glBindVertexArray (array : Z)
| glBindBuffer (target : GLenum) (buffer : Z)
| glBufferData (target : GLenum) (size : Z) (data : list Shader.float32) (usage : GLenum)
| glVertexAttribPointer (index size : Z) (type : GLenum) (normalized : bool)
                        (stride pointer : Z)
| glEnableVertexAttribArray (index : Z)
| glCreateShader (type : GLenum)
| glShaderSource (shader count : Z) (source : ShaderSource)
| glCompileShader (shader : Z)
| glGetShaderiv (shader : Z) (pname : GLenum)
| glGetShaderInfoLog (shader bufSize : Z)
| glCreateProgram
| glAttachShader (program shader : Z)
| glLinkProgram (program : Z)
| glGetProgramiv (program : Z) (pname : GLenum)
| glGetProgramInfoLog (program bufSize : Z)
| glDeleteShader (shader : Z)
| glfwWindowShouldClose (window : Z)
| glClear (mask : GLenum)
| glUseProgram (program : Z)
| glGetUniformLocation (program : Z) (name : string)
| glUniform2f (location : Z) (v0 v1 : Shader.float32)
| glUniform1f (location : Z) (v0 : Shader.float32)
| glUniform1i (location : Z) (v0 : Z)
| glDrawArrays (mode : GLenum) (first count : Z)
| glfwSwapBuffers (window : Z)
| glfwPollEvents
| glDeleteVertexArrays (n array : Z)
| glDeleteBuffers (n buffer : Z)
| glDeleteProgram (program : Z)
| glfwDestroyWindow (window : Z)
| cerr (line : string).

(** What the libraries return or store through the pointers they are
    given.  [polls] lists the events each [glfwPollEvents] of the run
    delivers; [glfwWindowShouldClose] answers true once they are all
    consumed. *)
Record Platform : Type := mkPlatform {
  glfwInit_result : Z;
  glfwCreateWindow_result : Z;
  gladLoadGLLoader_result : Z;
  glGenVertexArrays_result : Z;
  glGenBuffers_result : Z;
  glCreateShader_result : GLenum -> Z;
  glGetShaderiv_result : Z -> Z;
  glGetShaderInfoLog_result : Z -> string;
  glCreateProgram_result : Z;
  glGetProgramiv_result : Z -> Z;
  glGetProgramInfoLog_result : Z -> string;
  glGetUniformLocation_result : Z -> string -> Z;
  polls : list (list Event)
}.

(** Programs that make calls: the calls made, then the result. *)
Definition M (A : Type) : Type := (list Call * A)%type.

Definition ret {A : Type} (a : A) : M A := ([], a).

Definition bind {A B : Type} (m : M A) (k : A -> M B) : M B :=
  (fst m ++ fst (k (snd m)), snd (k (snd m))).

Definition call (c : Call) : M unit := ([c], tt).

Notation "x <- m ;; k" := (bind m (fun x => k))
  (at level 61, m at next level, right associativity).
Notation "m ;; k" := (bind m (fun _ => k))
  (at level 61, right associativity).

Definition GLFW_FALSE : Z := 0.
Definition nullptr : Z := 0.

Definition compileShader (p : Platform) (type : GLenum) (source : ShaderSource) : M Z :=
  let shader := glCreateShader_result p type in
  call (glCreateShader type) ;;
  call (glShaderSource shader 1 source) ;;
  call (glCompileShader shader) ;;
  call (glGetShaderiv shader GL_COMPILE_STATUS) ;;
  let success := glGetShaderiv_result p shader in
  (if success =? 0 then
     call (glGetShaderInfoLog shader 512) ;;
     call (cerr (append "Shader Compilation Error: " (glGetShaderInfoLog_result p shader)))
   else ret tt) ;;
  ret shader.

Definition createShaderProgram (p : Platform) : M Z :=
  vertexShader <- compileShader p GL_VERTEX_SHADER vertexShaderSource ;;
  fragmentShader <- compileShader p GL_FRAGMENT_SHADER fragmentShaderSource ;;
  let shaderProgram := glCreateProgram_result p in
  call glCreateProgram ;;
  call (glAttachShader shaderProgram vertexShader) ;;
  call (glAttachShader shaderProgram fragmentShader) ;;
  call (glLinkProgram shaderProgram) ;;
  call (glGetProgramiv shaderProgram GL_LINK_STATUS) ;;
  let success := glGetProgramiv_result p shaderProgram in
  (if success =? 0 then
     call (glGetProgramInfoLog shaderProgram 512) ;;
     call (cerr (append "Program Linking Error: " (glGetProgramInfoLog_result p shaderProgram)))
   else ret tt) ;;
  call (glDeleteShader vertexShader) ;;
  call (glDeleteShader fragmentShader) ;;
  ret shaderProgram.

(** [float vertices[]]: the corners of the quad, two floats a vertex. *)
Definition vertices : list Shader.float32 :=
  let one := Shader.f1_0 in
  let minus_one := SFopp Shader.f1_0 in
  [minus_one; minus_one;  one; minus_one;  minus_one; one;  one; one].

Definition sizeof_float : Z := 4.

(** One pass of the rendering loop, up to the buffer swap. *)
Definition draw_frame (p : Platform) (window shaderProgram VAO : Z) (g : Globals) : M unit :=
  call (glClear GL_COLOR_BUFFER_BIT) ;;
  call (glUseProgram shaderProgram) ;;
  call (glGetUniformLocation shaderProgram "u_resolution") ;;
  call (glUniform2f (glGetUniformLocation_result p shaderProgram "u_resolution")
                    (Shader.int_to_float WIDTH) (Shader.int_to_float HEIGHT)) ;;
  call (glGetUniformLocation shaderProgram "u_offset") ;;
  call (glUniform2f (glGetUniformLocation_result p shaderProgram "u_offset")
                    (Shader.double_to_float (offsetX g))
                    (Shader.double_to_float (offsetY g))) ;;
  call (glGetUniformLocation shaderProgram "u_zoom") ;;
  call (glUniform1f (glGetUniformLocation_result p shaderProgram "u_zoom")
                    (Shader.double_to_float (zoom g))) ;;
  call (glGetUniformLocation shaderProgram "u_maxIterations") ;;
  call (glUniform1i (glGetUniformLocation_result p shaderProgram "u_maxIterations")
                    (maxIterations g)) ;;
  call (glBindVertexArray VAO) ;;
  call (glDrawArrays GL_TRIANGLE_STRIP 0 4) ;;
  call (glfwSwapBuffers window).

(** [while (!glfwWindowShouldClose(window)) { ... glfwPollEvents(); }]:
    the callbacks run on the events of each poll. *)
Fixpoint rendering_loop (p : Platform) (window shaderProgram VAO : Z)
    (g : Globals) (pending : list (list Event)) : M Globals :=
  call (glfwWindowShouldClose window) ;;
  match pending with
  | [] => ret g
  | events :: pending' =>
      draw_frame p window shaderProgram VAO g ;;
      call glfwPollEvents ;;
      rendering_loop p window shaderProgram VAO (run g events) pending'
  end.

Definition title : string := "Mandelbrot Fractal with Mouse and Scroll Zoom".

Definition main (p : Platform) : M Z :=
  call glfwInit ;;
  if glfwInit_result p =? GLFW_FALSE then
    call (cerr "Failed to initialize GLFW") ;;
    ret (-1)
  else
    let window := glfwCreateWindow_result p in
    call (glfwCreateWindow WIDTH HEIGHT title) ;;
    if window =? nullptr then
      call (cerr "Failed to create GLFW window") ;;
      call glfwTerminate ;;
      ret (-1)
    else
      call (glfwMakeContextCurrent window) ;;
      call gladLoadGLLoader ;;
      if gladLoadGLLoader_result p =? 0 then
        call (cerr "Failed to initialize GLAD") ;;
        ret (-1)
      else
        call (glfwSetScrollCallback window scrollCallback) ;;
        call (glfwSetMouseButtonCallback window mouseButtonCallback) ;;
        call (glfwSetCursorPosCallback window cursorPositionCallback) ;;
        let VAO := glGenVertexArrays_result p in
        let VBO := glGenBuffers_result p in
        call (glGenVertexArrays 1) ;;
        call (glGenBuffers 1) ;;
        call (glBindVertexArray VAO) ;;
        call (glBindBuffer GL_ARRAY_BUFFER VBO) ;;
        call (glBufferData GL_ARRAY_BUFFER (Z.of_nat (List.length vertices) * sizeof_float)
                           vertices GL_STATIC_DRAW) ;;
        call (glVertexAttribPointer 0 2 GL_FLOAT false (2 * sizeof_float) 0) ;;
        call (glEnableVertexAttribArray 0) ;;
        call (glBindBuffer GL_ARRAY_BUFFER 0) ;;
        call (glBindVertexArray 0) ;;
        shaderProgram <- createShaderProgram p ;;
        _ <- rendering_loop p window shaderProgram VAO initial (polls p) ;;
        call (glDeleteVertexArrays 1 VAO) ;;
        call (glDeleteBuffers 1 VBO) ;;
        call (glDeleteProgram shaderProgram) ;;
        call (glfwDestroyWindow window) ;;
        call glfwTerminate ;;
        ret 0.

End Host.

(** ** Notions used to state properties of the program *)

Module Notions.

Import String List ListNotations.
Local Open Scope Z_scope.

(** A press of the left mouse button. *)
Definition is_left_press (ev : Controller.Event) : bool :=
  match ev with
  | Controller.MouseButton _ button action _ =>
      (button =? Controller.GLFW_MOUSE_BUTTON_LEFT) && (action =? Controller.GLFW_PRESS)
  | _ => false
  end.

Definition is_zero_sf (x : spec_float) : bool :=
  match x with S754_zero _ => true | _ => false end.

(** The complex conjugate of a point of the plane. *)
Definition conj (c : Shader.vec2) : Shader.vec2 :=
  Shader.mkvec2 (Shader.vx c) (SFopp (Shader.vy c)).

(** [gl_FragCoord] of the pixel in column or row [k]: pixel centres are
    at half-integers. *)
Definition pixel_center (k : Z) : Shader.float32 :=
  binary_normalize Shader.prec32 Shader.emax32 (2 * k + 1) (-1) false.

(** Half the window, as the shader computes it: [u_resolution * 0.5]. *)
Definition half_width : Shader.float32 :=
  Shader.fmul (Shader.int_to_float Controller.WIDTH) Shader.f0_5.
Definition half_height : Shader.float32 :=
  Shader.fmul (Shader.int_to_float Controller.HEIGHT) Shader.f0_5.

(** [x'] is [x], or [- x] when [flip] is set, the sign of a zero apart. *)
Definition tracks (flip : bool) (x x' : spec_float) : Prop :=
  Shader.same_number x' (if flip then SFopp x else x).

Definition vec_tracks (flip : bool) (z z' : Shader.vec2) : Prop :=
  tracks false (Shader.vx z) (Shader.vx z') /\ tracks flip (Shader.vy z) (Shader.vy z').

(** Equality of floats, as a test. *)
Definition sf_eqb (x y : spec_float) : bool :=
  match x, y with
  | S754_zero s, S754_zero s' => Bool.eqb s s'
  | S754_infinity s, S754_infinity s' => Bool.eqb s s'
  | S754_nan, S754_nan => true
  | S754_finite s m e, S754_finite s' m' e' => Bool.eqb s s' && Pos.eqb m m' && Z.eqb e e'
  | _, _ => false
  end.

(** What a run of the host program writes to the standard error stream. *)
Definition stderr_of (t : list Host.Call) : list string :=
  flat_map (fun c => match c with Host.cerr line => [line] | _ => [] end) t.

(** The calls that only serve to report an error. *)
Definition is_report (c : Host.Call) : bool :=
  match c with
  | Host.glGetShaderInfoLog _ _ | Host.glGetProgramInfoLog _ _ | Host.cerr _ => true
  | _ => false
  end.

Definition without_reports (t : list Host.Call) : list Host.Call :=
  filter (fun c => negb (is_report c)) t.

Definition is_draw (c : Host.Call) : bool :=
  match c with Host.glDrawArrays _ _ _ => true | _ => false end.

(** The start-up of [main] succeeded: GLFW, the window and GLAD. *)
Definition started (p : Host.Platform) : bool :=
  negb (Host.glfwInit_result p =? 0)
  && negb (Host.glfwCreateWindow_result p =? 0)
  && negb (Host.gladLoadGLLoader_result p =? 0).

(** Two platforms that differ at most in the outcome of compiling and
    linking the shaders. *)
Definition same_but_shader_status (p p' : Host.Platform) : Prop :=
  Host.glfwInit_result p' = Host.glfwInit_result p /\
  Host.glfwCreateWindow_result p' = Host.glfwCreateWindow_result p /\
  Host.gladLoadGLLoader_result p' = Host.gladLoadGLLoader_result p /\
  Host.glGenVertexArrays_result p' = Host.glGenVertexArrays_result p /\
  Host.glGenBuffers_result p' = Host.glGenBuffers_result p /\
  Host.glCreateShader_result p' = Host.glCreateShader_result p /\
  Host.glCreateProgram_result p' = Host.glCreateProgram_result p /\
  Host.glGetUniformLocation_result p' = Host.glGetUniformLocation_result p /\
  Host.polls p' = Host.polls p.

(** The attribute [position] of vertex [i], as
    [glVertexAttribPointer(0, 2, GL_FLOAT, GL_FALSE, stride, pointer)]
    lays it out in a buffer of floats. *)
Definition vertex_position (data : list Shader.float32) (stride pointer : Z) (i : nat)
  : Shader.vec2 :=
  let k := (Z.to_nat (pointer / Host.sizeof_float)
            + i * Z.to_nat (stride / Host.sizeof_float))%nat in
  Shader.mkvec2 (nth k data Shader.f0_0) (nth (S k) data Shader.f0_0).

(** The triangles of [glDrawArrays(GL_TRIANGLE_STRIP, first, count)], by
    the indices of their vertices. *)
Definition strip_triangles (first count : nat) : list (nat * nat * nat) :=
  map (fun k => (first + k, first + k + 1, first + k + 2)%nat) (seq 0 (count - 2)).

(** Where the vertex shader puts vertex [i] of the quad, in normalized
    device coordinates ([gl_Position.xy / gl_Position.w]). *)
Definition quad_corner (i : nat) : Q * Q :=
  let pos := VertexShader.main
               (vertex_position Host.vertices (2 * Host.sizeof_float) 0 i) in
  ((Shader.float_value (Shader.v4x pos) / Shader.float_value (Shader.v4w pos))%Q,
   (Shader.float_value (Shader.v4y pos) / Shader.float_value (Shader.v4w pos))%Q).

(** On which side of the edge from [a] to [b] the point [p] lies. *)
Definition edge (a b p : Q * Q) : Q :=
  ((fst b - fst a) * (snd p - snd a) - (snd b - snd a) * (fst p - fst a))%Q.

Definition in_triangle (t : nat * nat * nat) (p : Q * Q) : Prop :=
  let '(i, j, k) := t in
  let a := quad_corner i in
  let b := quad_corner j in
  let c := quad_corner k in
  ((0 <= edge a b p /\ 0 <= edge b c p /\ 0 <= edge c a p)
   \/ (edge a b p <= 0 /\ edge b c p <= 0 /\ edge c a p <= 0))%Q.

(** A platform on which everything succeeds but, when [status] is 0, the
    compilation and the linking of the shaders. *)
Definition sample_platform (status : Z) (polls : list (list Controller.Event))
  : Host.Platform :=
  Host.mkPlatform 1 1 1 1 1
    (fun type => match type with Host.GL_VERTEX_SHADER => 1 | _ => 2 end)
    (fun _ => status) (fun _ => "syntax error"%string)
    3 (fun _ => status) (fun _ => "not compiled"%string)
    (fun _ _ => 0) polls.

End Notions.


(** ** Rounding in [spec_float]

    What [binary_round_aux] and the operations built on it compute, on
    values: the exact result, rounded to the nearest float of the format,
    ties to even.  Used below for both formats, binary64 and binary32. *)

Local Open Scope Z_scope.

Definition loc_code (l : location) : Z :=
  match l with
  | loc_Exact => 0
  | loc_Inexact Lt => 1
  | loc_Inexact Eq => 2
  | loc_Inexact Gt => 3
  end.

Definition rec_code (mrs : shr_record) : Z :=
  4 * shr_m mrs + (if shr_r mrs then 2 else 0) + (if shr_s mrs then 1 else 0).

(** Rounding the rational [T/D] to the nearest integer, ties to even. *)
Definition rne_div (T D : Z) : Z :=
  let q := T / D in
  match 2 * (T mod D) ?= D with
  | Lt => q
  | Eq => if Z.even q then q else q + 1
  | Gt => q + 1
  end.

Definition sticky_half (T : Z) : Z := 2 * (T / 4) + (if T mod 4 =? 0 then 0 else 1).

Section Format.

Variables prec emax : Z.

Definition SFpack (s : bool) (m e : Z) : spec_float :=
  match m with
  | Z0 => S754_zero s
  | Zpos p => if e <=? emax - prec then S754_finite s p e else S754_infinity s
  | Zneg _ => S754_nan
  end.

Definition round_pack (s : bool) (m e : Z) : spec_float :=
  if m =? 2 ^ prec then SFpack s (2 ^ (prec - 1)) (e + 1) else SFpack s m e.

(** The value of a float in units of the smallest subnormal, [2^emin];
    the infinities sit just above the largest finite float. *)
Definition mag (m : positive) (e : Z) : Z := Zpos m * 2 ^ (e - SpecFloat.emin prec emax).

Definition ulps (x : spec_float) : Z :=
  match x with
  | S754_zero _ => 0
  | S754_nan => 0
  | S754_infinity s => cond_Zopp s (2 ^ (emax - SpecFloat.emin prec emax))
  | S754_finite s m e => cond_Zopp s (mag m e)
  end.

Definition is_nan_sf (x : spec_float) : bool :=
  match x with S754_nan => true | _ => false end.

Definition overflow_ulps : Z := 2 ^ (emax - SpecFloat.emin prec emax).

(** Rounding, on values: [N] counts units of [2^b]; the result counts
    units of [2^emin]. *)
Definition rnd_ulps (b N : Z) : Z :=
  let f := fexp prec emax (Zdigits2 N + b) in
  Z.min (rne_div N (2 ^ (f - b)) * 2 ^ (f - SpecFloat.emin prec emax)) overflow_ulps.

Definition is_pos_sf (x : spec_float) : bool :=
  match x with
  | S754_finite false _ _ | S754_infinity false => true
  | _ => false
  end.

(** The signed value function of rounding. *)
Definition rnd_signed (b Z0 : Z) : Z :=
  if Z0 <? 0 then - rnd_ulps b (- Z0) else rnd_ulps b Z0.

Definition is_finite_sf (x : spec_float) : bool :=
  match x with S754_zero _ | S754_finite _ _ _ => true | _ => false end.

Definition float_one : spec_float := S754_finite false (Z.to_pos (2 ^ (prec - 1))) (1 - prec).

Definition is_nonneg_sf (x : spec_float) : bool :=
  match x with
  | S754_zero _ | S754_finite false _ _ | S754_infinity false => true
  | _ => false
  end.

Lemma digits2_pos_size p : digits2_pos p = Pos.size p.
Proof. induction p; simpl; congruence. Qed.

Lemma Zdigits2_log2 m : 0 < m -> Zdigits2 m = Z.log2 m + 1.
Proof.
  destruct m as [|p|p]; try lia. intros _.
  destruct p; simpl; rewrite ?digits2_pos_size; lia.
Qed.

Lemma Zdigits2_bounds m : 0 < m -> 2 ^ (Zdigits2 m - 1) <= m < 2 ^ Zdigits2 m.
Proof.
  intros H. rewrite (Zdigits2_log2 m H).
  replace (Z.log2 m + 1 - 1) with (Z.log2 m) by lia.
  replace (Z.log2 m + 1) with (Z.succ (Z.log2 m)) by lia.
  apply Z.log2_spec; assumption.
Qed.

Lemma Zdigits2_unique m d : 0 < d -> 2 ^ (d - 1) <= m < 2 ^ d -> Zdigits2 m = d.
Proof.
  intros Hd H.
  assert (0 < m) by (assert (0 < 2 ^ (d - 1)) by (apply Z.pow_pos_nonneg; lia); lia).
  rewrite Zdigits2_log2 by assumption.
  rewrite (Z.log2_unique m (d - 1)); try lia.
  replace (Z.succ (d - 1)) with d by lia. assumption.
Qed.

Lemma Zdigits2_pos m : 0 < m -> 0 < Zdigits2 m.
Proof. destruct m; simpl; lia. Qed.

Lemma Zdigits2_nonneg m : 0 <= Zdigits2 m.
Proof. destruct m; simpl; lia. Qed.

Lemma Zdigits2_le m m' : 0 < m -> m <= m' -> Zdigits2 m <= Zdigits2 m'.
Proof.
  intros H H'. rewrite !Zdigits2_log2 by lia.
  apply Z.add_le_mono_r, Z.log2_le_mono; assumption.
Qed.

Lemma Zdigits2_lt_pow m d : 0 <= d -> 0 <= m < 2 ^ d -> Zdigits2 m <= d.
Proof.
  intros Hd [H0 H]. destruct (Z.eq_dec m 0) as [->|Hm]; [simpl; lia|].
  destruct (Z_lt_le_dec d (Zdigits2 m)) as [Hlt|]; [|assumption].
  pose proof (Zdigits2_bounds m ltac:(lia)) as [Hb _].
  assert (2 ^ d <= 2 ^ (Zdigits2 m - 1)) by (apply Z.pow_le_mono_r; lia).
  lia.
Qed.

Lemma Zdigits2_ge_pow m d : 0 <= d -> 2 ^ d <= m -> d < Zdigits2 m.
Proof.
  intros Hd H.
  assert (0 < 2 ^ d) by (apply Z.pow_pos_nonneg; lia).
  pose proof (Zdigits2_bounds m ltac:(lia)) as [_ Hb].
  destruct (Z_lt_le_dec d (Zdigits2 m)) as [|Hle]; [assumption|].
  assert (2 ^ Zdigits2 m <= 2 ^ d) by (apply Z.pow_le_mono_r; lia).
  lia.
Qed.

Lemma code_div4 m r : 0 <= r < 4 -> (4 * m + r) / 4 = m /\ (4 * m + r) mod 4 = r.
Proof.
  intros H. split.
  - symmetry. apply (Z.div_unique _ 4 m r); lia.
  - symmetry. apply (Z.mod_unique _ 4 m r); lia.
Qed.

(** One step of [shr_1] on codes: halving that remembers lost bits. *)
Lemma shr_1_code mrs : 0 <= shr_m mrs ->
  rec_code (shr_1 mrs) = sticky_half (rec_code mrs) /\ 0 <= shr_m (shr_1 mrs).
Proof.
  destruct mrs as [m r s]. unfold rec_code, sticky_half. cbn [shr_m shr_r shr_s]. intros Hm.
  rewrite <- (Z.add_assoc (4 * m)).
  destruct (code_div4 m ((if r then 2 else 0) + (if s then 1 else 0))) as [-> ->];
    [destruct r, s; lia|].
  destruct m as [|[p|p|]|p]; try lia; destruct r, s; cbn -[Z.mul]; lia.
Qed.

Lemma iter_pos_nat {A} (f : A -> A) p x :
  iter_pos f p x = Nat.iter (Pos.to_nat p) f x.
Proof.
  revert x. induction p as [p IH|p IH|]; intros x; cbn [iter_pos].
  - rewrite !IH, Pos2Nat.inj_xI, <- Nat.iter_add.
    replace (S (2 * Pos.to_nat p))%nat with (S (Pos.to_nat p + Pos.to_nat p)) by lia.
    rewrite Nat.iter_succ_r. reflexivity.
  - rewrite !IH, Pos2Nat.inj_xO, <- Nat.iter_add.
    replace (2 * Pos.to_nat p)%nat with (Pos.to_nat p + Pos.to_nat p)%nat by lia.
    reflexivity.
  - reflexivity.
Qed.

Lemma rec_code_of_loc m l : rec_code (shr_record_of_loc m l) = 4 * m + loc_code l.
Proof. destruct l as [|[]]; unfold rec_code; simpl; lia. Qed.

Lemma loc_code_range l : 0 <= loc_code l < 4.
Proof. destruct l as [|[]]; simpl; lia. Qed.

Lemma rec_code_m mrs : rec_code mrs / 4 = shr_m mrs.
Proof.
  unfold rec_code. rewrite <- Z.add_assoc.
  apply code_div4. destruct (shr_r mrs), (shr_s mrs); lia.
Qed.

Lemma rne_code mrs :
  round_nearest_even (shr_m mrs) (loc_of_shr_record mrs) = rne_div (rec_code mrs) 4.
Proof.
  unfold rne_div. rewrite rec_code_m.
  unfold rec_code. rewrite <- Z.add_assoc.
  destruct mrs as [m r s]; cbn [shr_m shr_r shr_s].
  destruct (code_div4 m ((if r then 2 else 0) + (if s then 1 else 0))) as [_ ->];
    [destruct r, s; lia|].
  destruct r, s; reflexivity.
Qed.

Lemma sticky_half_decomp T D : 0 < D -> 0 <= T ->
  let q := T / (2 * (4 * D)) in
  let r := T mod (2 * (4 * D)) in
  let r' := 2 * (r / 4) + (if r mod 4 =? 0 then 0 else 1) in
  sticky_half T = 4 * D * q + r' /\ 0 <= r' < 4 * D /\
  (2 * r' ?= 4 * D) = (2 * r ?= 2 * (4 * D)).
Proof.
  intros HD HT q r r'.
  assert (Hqr : T = 2 * (4 * D) * q + r) by (apply Z.div_mod; lia).
  assert (Hr : 0 <= r < 2 * (4 * D)) by (apply Z.mod_pos_bound; lia).
  assert (H4 : T / 4 = 2 * D * q + r / 4).
  { rewrite Hqr. replace (2 * (4 * D) * q + r) with (r + (2 * D * q) * 4) by lia.
    rewrite Z.div_add by lia. lia. }
  assert (Hm4 : T mod 4 = r mod 4).
  { rewrite Hqr at 1. replace (2 * (4 * D) * q + r) with (r + (2 * D * q) * 4) by lia.
    apply Z.mod_add. lia. }
  pose proof (Z.div_mod r 4 ltac:(lia)) as Hr4.
  pose proof (Z.mod_pos_bound r 4 ltac:(lia)) as Hr4b.
  unfold sticky_half. rewrite H4, Hm4. fold r'.
  assert (Hb : 0 <= (if r mod 4 =? 0 then 0 else 1) <= 1) by (destruct (r mod 4 =? 0); lia).
  split; [unfold r'; lia|]. split.
  - unfold r'. lia.
  - unfold r'. destruct (Z.eqb_spec (r mod 4) 0) as [E|E].
    + destruct (Z.compare_spec (2 * r) (2 * (4 * D))); [apply Z.compare_eq_iff|apply Z.compare_lt_iff|apply Z.compare_gt_iff]; lia.
    + destruct (Z.compare_spec (2 * r) (2 * (4 * D))); [|apply Z.compare_lt_iff|apply Z.compare_gt_iff]; try lia.
Qed.

Lemma div_mod_unique_pos a b q r : 0 <= r < b -> a = b * q + r -> a / b = q /\ a mod b = r.
Proof.
  intros Hr H. split.
  - symmetry. apply (Z.div_unique a b q r); [left; lia | assumption].
  - symmetry. apply (Z.mod_unique a b q r); [left; lia | assumption].
Qed.

Lemma rne_div_sticky T D : 0 < D -> 0 <= T ->
  rne_div (sticky_half T) (4 * D) = rne_div T (2 * (4 * D)).
Proof.
  intros HD HT.
  destruct (sticky_half_decomp T D HD HT) as (Heq & Hr' & Hcmp).
  unfold rne_div.
  destruct (div_mod_unique_pos _ _ _ _ Hr' Heq) as [-> ->].
  rewrite Hcmp. reflexivity.
Qed.

Lemma sticky_half_div T D : 0 < D -> 0 <= T ->
  sticky_half T / (4 * D) = T / (2 * (4 * D)).
Proof.
  intros HD HT.
  destruct (sticky_half_decomp T D HD HT) as (Heq & Hr' & Hcmp).
  destruct (div_mod_unique_pos _ _ _ _ Hr' Heq) as [-> _]. reflexivity.
Qed.

Lemma sticky_half_nonneg T : 0 <= T -> 0 <= sticky_half T.
Proof.
  intros HT. unfold sticky_half.
  pose proof (Z.div_pos T 4 HT ltac:(lia)). destruct (T mod 4 =? 0); lia.
Qed.

Lemma iter_sticky_spec n T : 0 <= T ->
  0 <= Nat.iter n sticky_half T /\
  rne_div (Nat.iter n sticky_half T) 4 = rne_div T (4 * 2 ^ Z.of_nat n) /\
  Nat.iter n sticky_half T / 4 = T / (4 * 2 ^ Z.of_nat n).
Proof.
  revert T. induction n as [|n IH]; intros T HT.
  - cbn [Nat.iter nat_rect]. change (4 * 2 ^ Z.of_nat 0) with 4. auto.
  - rewrite Nat.iter_succ_r.
    destruct (IH (sticky_half T) (sticky_half_nonneg T HT)) as (H0 & H1 & H2).
    assert (Hp : 0 < 2 ^ Z.of_nat n) by (apply Z.pow_pos_nonneg; lia).
    split; [assumption|].
    rewrite H1, H2, Nat2Z.inj_succ, Z.pow_succ_r by lia.
    rewrite rne_div_sticky, sticky_half_div by assumption.
    split; f_equal; lia.
Qed.

Lemma iter_shr_1_code n mrs : 0 <= shr_m mrs ->
  rec_code (Nat.iter n shr_1 mrs) = Nat.iter n sticky_half (rec_code mrs)
  /\ 0 <= shr_m (Nat.iter n shr_1 mrs).
Proof.
  intros Hm. induction n as [|n [IH1 IH2]]; simpl; [auto|].
  destruct (shr_1_code _ IH2) as [-> ?]. rewrite IH1. auto.
Qed.

(** The first shift of [binary_round_aux] followed by rounding: the
    mantissa divided by [2^n] and rounded to nearest even. *)
Lemma shr_round m e l n : 0 <= m -> 0 <= n ->
  let '(mrs, e') := shr (shr_record_of_loc m l) e n in
  e' = e + n /\
  shr_m mrs = m / 2 ^ n /\
  round_nearest_even (shr_m mrs) (loc_of_shr_record mrs)
    = rne_div (4 * m + loc_code l) (4 * 2 ^ n).
Proof.
  intros Hm Hn.
  assert (HT : 0 <= 4 * m + loc_code l) by (pose proof (loc_code_range l); lia).
  assert (Hdiv : forall k, 0 <= k -> (4 * m + loc_code l) / (4 * 2 ^ k) = m / 2 ^ k).
  { intros k Hk. rewrite <- Z.div_div by (try apply Z.pow_pos_nonneg; lia).
    f_equal. apply code_div4, loc_code_range. }
  destruct n as [|p|p]; [| |lia].
  - simpl shr. cbv beta iota. rewrite rne_code, rec_code_of_loc, Z.add_0_r.
    split; [reflexivity|]. split; [|reflexivity].
    rewrite Z.div_1_r. destruct l as [|[]]; reflexivity.
  - simpl shr. cbv beta iota. rewrite iter_pos_nat.
    assert (Hm0 : 0 <= shr_m (shr_record_of_loc m l)) by (destruct l as [|[]]; assumption).
    destruct (iter_shr_1_code (Pos.to_nat p) _ Hm0) as [Hc Hnn].
    rewrite rec_code_of_loc in Hc.
    destruct (iter_sticky_spec (Pos.to_nat p) _ HT) as (_ & Hr & Hd).
    rewrite positive_nat_Z in Hr, Hd.
    split; [reflexivity|]. split.
    + rewrite <- rec_code_m, Hc, Hd. apply Hdiv. lia.
    + rewrite rne_code, Hc. exact Hr.
Qed.

Lemma rne_div_bounds T D : 0 < D ->
  T / D <= rne_div T D <= T / D + 1.
Proof.
  intros HD. unfold rne_div.
  destruct (2 * (T mod D) ?= D); [destruct (Z.even (T / D))| |]; lia.
Qed.

Lemma rne_div_half T D : 0 < D ->
  - D <= 2 * (D * rne_div T D - T) <= D.
Proof.
  intros HD. unfold rne_div.
  pose proof (Z.div_mod T D ltac:(lia)).
  pose proof (Z.mod_pos_bound T D HD).
  destruct (Z.compare_spec (2 * (T mod D)) D); [destruct (Z.even (T / D))| |]; nia.
Qed.

Lemma rne_div_exact k D : 0 < D -> rne_div (k * D) D = k.
Proof.
  intros HD. unfold rne_div. rewrite Z.div_mul, Z.mod_mul by lia.
  destruct (Z.compare_spec (2 * 0) D); lia.
Qed.

(** Rounding to nearest even is monotone on rationals. *)
Lemma rne_div_mono T1 D1 T2 D2 : 0 < D1 -> 0 < D2 ->
  T1 * D2 <= T2 * D1 -> rne_div T1 D1 <= rne_div T2 D2.
Proof.
  intros H1 H2 Hle.
  pose proof (Z.div_mod T1 D1 ltac:(lia)) as E1.
  pose proof (Z.mod_pos_bound T1 D1 H1) as B1.
  pose proof (Z.div_mod T2 D2 ltac:(lia)) as E2.
  pose proof (Z.mod_pos_bound T2 D2 H2) as B2.
  remember (T1 / D1) as q1. remember (T1 mod D1) as r1.
  remember (T2 / D2) as q2. remember (T2 mod D2) as r2.
  assert (Hq : q1 <= q2).
  { destruct (Z_lt_le_dec q2 q1) as [Hlt|]; [exfalso|assumption].
    assert (D1 * D2 * (q2 + 1) <= D1 * D2 * q1) by (apply Z.mul_le_mono_nonneg_l; nia).
    nia. }
  destruct (Z.eq_dec q1 q2) as [Heq|Hne].
  - unfold rne_div. rewrite <- Heqq1, <- Heqq2, <- Heqr1, <- Heqr2, <- Heq.
    subst T1 T2 q2.
    destruct (Z.compare_spec (2 * r1) D1) as [C1|C1|C1];
    destruct (Z.compare_spec (2 * r2) D2) as [C2|C2|C2];
    destruct (Z.even q1); try lia; exfalso; nia.
  - pose proof (rne_div_bounds T1 D1 H1). pose proof (rne_div_bounds T2 D2 H2). lia.
Qed.

Lemma rne_div_scale k T D : 0 < k -> 0 < D -> rne_div (k * T) (k * D) = rne_div T D.
Proof.
  intros Hk HD. unfold rne_div.
  rewrite Z.div_mul_cancel_l, Z.mul_mod_distr_l by lia.
  replace (2 * (k * (T mod D))) with (k * (2 * (T mod D))) by lia.
  rewrite <- Zmult_compare_compat_l by lia.
  reflexivity.
Qed.

Lemma shr_exact_noop m e n : n <= 0 ->
  shr (shr_record_of_loc m loc_Exact) e n = (shr_record_of_loc m loc_Exact, e).
Proof. destruct n; try lia; reflexivity. Qed.

Lemma pow2_split a b : 0 <= a -> 0 <= b -> 2 ^ (a + b) = 2 ^ a * 2 ^ b.
Proof. intros. apply Z.pow_add_r; assumption. Qed.

Lemma pow2_pos a : 0 <= a -> 0 < 2 ^ a.
Proof. intros. apply Z.pow_pos_nonneg; lia. Qed.

Lemma pow2_le a b : a <= b -> 0 <= a -> 2 ^ a <= 2 ^ b.
Proof. intros. apply Z.pow_le_mono_r; lia. Qed.

Lemma rne_div_pos T D : 0 < D -> D < 2 * T -> 0 < rne_div T D.
Proof.
  intros HD HT. unfold rne_div.
  pose proof (Z.div_mod T D ltac:(lia)).
  pose proof (Z.mod_pos_bound T D HD).
  assert (0 <= T / D) by (apply Z.div_pos; lia).
  destruct (Z.compare_spec (2 * (T mod D)) D); [destruct (Z.even (T / D))| |]; nia.
Qed.

Lemma Zdigits2_mul_pow2 m k : 0 < m -> 0 <= k -> Zdigits2 (m * 2 ^ k) = Zdigits2 m + k.
Proof.
  intros Hm Hk. pose proof (Zdigits2_bounds m Hm) as [Hlo Hhi].
  pose proof (Zdigits2_pos m Hm).
  assert (0 < 2 ^ k) by (apply pow2_pos; lia).
  apply Zdigits2_unique; [lia|].
  replace (Zdigits2 m + k - 1) with (Zdigits2 m - 1 + k) by lia.
  rewrite !pow2_split by lia. nia.
Qed.

Lemma Zdigits2_div a b : 0 < a -> 0 < b -> Zdigits2 a - Zdigits2 b <= Zdigits2 (a / b).
Proof.
  intros Ha Hb.
  pose proof (Zdigits2_bounds a Ha) as [Hlo _].
  pose proof (Zdigits2_bounds b Hb) as [_ Hhi].
  pose proof (Zdigits2_nonneg (a / b)).
  pose proof (Zdigits2_pos b Hb).
  destruct (Z_le_gt_dec (Zdigits2 a - Zdigits2 b) 0) as [|Hgt]; [lia|].
  assert (2 ^ (Zdigits2 a - 1 - Zdigits2 b) <= a / b).
  { apply Z.div_le_lower_bound; [lia|].
    assert (b * 2 ^ (Zdigits2 a - 1 - Zdigits2 b) <= 2 ^ Zdigits2 b * 2 ^ (Zdigits2 a - 1 - Zdigits2 b)).
    { apply Z.mul_le_mono_nonneg_r; [apply Z.lt_le_incl, pow2_pos|]; lia. }
    rewrite <- pow2_split in H1 by lia.
    replace (Zdigits2 b + (Zdigits2 a - 1 - Zdigits2 b)) with (Zdigits2 a - 1) in H1 by lia.
    lia. }
  pose proof (Zdigits2_ge_pow (a / b) (Zdigits2 a - 1 - Zdigits2 b) ltac:(lia) H1). lia.
Qed.

(** The position code of a remainder keeps the rounding of the quotient. *)
Lemma rne_div_location A B n : 0 <= A -> 0 < B -> 0 <= n ->
  rne_div (4 * (A / B) + loc_code (new_location B (A mod B))) (4 * 2 ^ n)
  = rne_div A (B * 2 ^ n).
Proof.
  intros HA HB Hn.
  pose proof (Z.div_mod A B ltac:(lia)) as EA.
  pose proof (Z.mod_pos_bound A B HB) as BA.
  set (q := A / B) in *. set (r := A mod B) in *.
  assert (Hc : 0 <= loc_code (new_location B r) < 4 /\
               (2 * r ?= B) = (loc_code (new_location B r) ?= 2) /\
               (r = 0 <-> loc_code (new_location B r) = 0)).
  { unfold new_location, new_location_even, new_location_odd.
    destruct (Z.even B) eqn:Ev; destruct (Z.eqb_spec r 0) as [Hr|Hr].
    - cbn [loc_code]. rewrite Hr. repeat split; try lia. apply Z.compare_lt_iff; lia.
    - destruct (Z.compare_spec (2 * r) B) as [C|C|C]; cbn [loc_code];
        (split; [lia|split; [|lia]]).
      + reflexivity.
      + reflexivity.
      + reflexivity.
    - cbn [loc_code]. rewrite Hr. repeat split; try lia. apply Z.compare_lt_iff; lia.
    - assert (Hodd : Z.odd B = true) by (rewrite <- Z.negb_even, Ev; reflexivity).
      apply Z.odd_spec in Hodd. destruct Hodd as [k Hk].
      destruct (Z.compare_spec (2 * r + 1) B) as [C|C|C]; cbn [loc_code];
        (split; [lia|split; [|lia]]).
      + change (1 ?= 2) with Lt. apply Z.compare_lt_iff; lia.
      + change (1 ?= 2) with Lt. apply Z.compare_lt_iff; lia.
      + change (3 ?= 2) with Gt. apply Z.compare_gt_iff; lia. }
  destruct Hc as (Hc & Hcmp & Hc0).
  set (c := loc_code (new_location B r)) in *.
  assert (Hpn : 0 < 2 ^ n) by (apply pow2_pos; lia).
  pose proof (Z.div_mod q (2 ^ n) ltac:(lia)) as Eqq.
  pose proof (Z.mod_pos_bound q (2 ^ n) Hpn) as Bq.
  set (Q := q / 2 ^ n) in *. set (rho := q mod 2 ^ n) in *.
  assert (E1 : 4 * q + c = 4 * 2 ^ n * Q + (4 * rho + c)) by lia.
  assert (E2 : A = B * 2 ^ n * Q + (B * rho + r)) by nia.
  assert (R1 : 0 <= 4 * rho + c < 4 * 2 ^ n) by lia.
  assert (R2 : 0 <= B * rho + r < B * 2 ^ n) by nia.
  unfold rne_div.
  destruct (div_mod_unique_pos _ _ _ _ R1 E1) as [-> ->].
  destruct (div_mod_unique_pos _ _ _ _ R2 E2) as [-> ->].
  assert (Hsame : (2 * (4 * rho + c) ?= 4 * 2 ^ n) = (2 * (B * rho + r) ?= B * 2 ^ n)).
  { destruct (Z.compare_spec (2 * rho) (2 ^ n)) as [C|C|C].
    - destruct (Z.eq_dec r 0) as [Hr|Hr].
      + assert (c = 0) by (apply Hc0; assumption).
        transitivity Eq; [apply Z.compare_eq_iff; lia | symmetry; apply Z.compare_eq_iff; nia].
      + assert (c <> 0) by (intros Hz; apply Hr, Hc0; assumption).
        transitivity Gt; [apply Z.compare_gt_iff; lia | symmetry; apply Z.compare_gt_iff; nia].
    - destruct (Z.eq_dec n 0) as [->|Hn0].
      + change (2 ^ 0) with 1 in *. assert (rho = 0) by lia. subst rho.
        replace (2 * (4 * (q mod 1) + c)) with (2 * (4 * 0 + c)) by (f_equal; lia).
        replace (2 * (B * (q mod 1) + r)) with (2 * (B * 0 + r)) by (f_equal; lia).
        rewrite !Z.mul_0_r, !Z.add_0_l, !Z.mul_1_r, Hcmp.
        change 4 with (2 * 2). symmetry. apply Zmult_compare_compat_l. lia.
      + assert (E2n : 2 ^ n = 2 * 2 ^ (n - 1))
          by (rewrite <- Z.pow_succ_r by lia; f_equal; lia).
        assert (rho + 1 <= 2 ^ (n - 1)) by lia.
        assert (B * (rho + 1) <= B * 2 ^ (n - 1)) by (apply Z.mul_le_mono_nonneg_l; lia).
        transitivity Lt; [apply Z.compare_lt_iff; lia | symmetry; apply Z.compare_lt_iff; lia].
    - assert (B * 2 ^ n < B * (2 * rho)) by (apply Z.mul_lt_mono_pos_l; lia).
      transitivity Gt; [apply Z.compare_gt_iff; lia | symmetry; apply Z.compare_gt_iff; lia]. }
  rewrite Hsame. reflexivity.
Qed.

Lemma iter_xO_pow2 m d : Zpos (Pos.iter xO m d) = Zpos m * 2 ^ Zpos d.
Proof.
  induction d as [|d IH] using Pos.peano_ind.
  - simpl. lia.
  - rewrite Pos.iter_succ, Pos2Z.inj_succ, Z.pow_succ_r by lia.
    rewrite Pos2Z.inj_xO, IH. lia.
Qed.

Lemma shl_align_fst m e e' : e' <= e ->
  Zpos (fst (shl_align m e e')) = Zpos m * 2 ^ (e - e').
Proof.
  intros H. unfold shl_align. destruct (e' - e) as [|d|d] eqn:E; cbn [fst]; try lia.
  - replace (e - e') with 0 by lia. simpl. lia.
  - rewrite iter_xO_pow2. do 2 f_equal. lia.
Qed.

Lemma Zdigits2_mul a b : 0 < a -> 0 < b -> Zdigits2 a + Zdigits2 b - 1 <= Zdigits2 (a * b).
Proof.
  intros Ha Hb.
  pose proof (Zdigits2_bounds a Ha) as [La _]. pose proof (Zdigits2_bounds b Hb) as [Lb _].
  pose proof (Zdigits2_pos a Ha). pose proof (Zdigits2_pos b Hb).
  assert (2 ^ (Zdigits2 a - 1 + (Zdigits2 b - 1)) <= a * b).
  { rewrite pow2_split by lia.
    assert (0 < 2 ^ (Zdigits2 a - 1)) by (apply pow2_pos; lia).
    assert (0 < 2 ^ (Zdigits2 b - 1)) by (apply pow2_pos; lia).
    apply Z.mul_le_mono_nonneg; lia. }
  pose proof (Zdigits2_ge_pow (a * b) (Zdigits2 a - 1 + (Zdigits2 b - 1)) ltac:(lia) H1). lia.
Qed.

Lemma new_location_zero B : new_location B 0 = loc_Exact.
Proof.
  unfold new_location, new_location_even, new_location_odd.
  destruct (Z.even B); reflexivity.
Qed.

Lemma SFcompare_refl x : is_nan_sf x = false -> SFcompare x x = Some Eq.
Proof.
  destruct x as [s|s| |s m e]; try discriminate; intros _; cbn [SFcompare].
  - reflexivity.
  - destruct s; reflexivity.
  - rewrite Z.compare_refl.
    change (Pos.compare_cont Eq m m) with (Pos.compare m m).
    rewrite Pos.compare_refl. destruct s; reflexivity.
Qed.

Lemma SFleb_refl x : is_nan_sf x = false -> SFleb x x = true.
Proof. intros H. unfold SFleb. rewrite SFcompare_refl by assumption. reflexivity. Qed.

Hypothesis Hprec : 1 < prec.
Hypothesis Hemax : prec < emax.

Lemma fexp_ge_emin z : SpecFloat.emin prec emax <= fexp prec emax z.
Proof using Hprec Hemax. unfold fexp. lia. Qed.

Lemma fexp_mono z z' : z <= z' -> fexp prec emax z <= fexp prec emax z'.
Proof using Hprec Hemax. unfold fexp. lia. Qed.

Lemma shifted_mantissa_bound m e :
  0 <= m -> let f := fexp prec emax (Zdigits2 m + e) in
  e <= f -> m / 2 ^ (f - e) < 2 ^ prec.
Proof using Hprec Hemax.
  intros Hm f Hf.
  assert (Hpow : 0 < 2 ^ (f - e)) by (apply Z.pow_pos_nonneg; lia).
  apply Z.div_lt_upper_bound; [assumption|].
  rewrite <- Z.pow_add_r by lia.
  destruct (Z.eq_dec m 0) as [->|Hm0]; [apply Z.pow_pos_nonneg; lia|].
  pose proof (Zdigits2_bounds m ltac:(lia)) as [_ Hb].
  assert (2 ^ Zdigits2 m <= 2 ^ (f - e + prec)).
  { apply Z.pow_le_mono_r; [lia|]. unfold f, fexp. lia. }
  lia.
Qed.

(** Above the subnormal range the shifted mantissa has exactly [prec] digits. *)
Lemma shifted_mantissa_normal m e :
  0 <= m -> let f := fexp prec emax (Zdigits2 m + e) in
  e <= f -> SpecFloat.emin prec emax < f -> 2 ^ (prec - 1) <= m / 2 ^ (f - e).
Proof using Hprec Hemax.
  intros Hm f Hf Hmin.
  assert (Hfe : f = Zdigits2 m + e - prec) by (unfold f, fexp in *; lia).
  assert (Hm0 : 0 < m).
  { destruct (Z.eq_dec m 0) as [->|]; [|lia]. simpl in Hfe. lia. }
  pose proof (Zdigits2_bounds m Hm0) as [Hb _].
  assert (Hpow : 0 < 2 ^ (f - e)) by (apply Z.pow_pos_nonneg; lia).
  apply Z.div_le_lower_bound; [assumption|].
  rewrite <- Z.pow_add_r by lia.
  replace (f - e + (prec - 1)) with (Zdigits2 m - 1) by lia. assumption.
Qed.

(** [binary_round_aux] is: shift to the format's exponent, round to
    nearest even, renormalise when the rounding carries. *)
Theorem binary_round_aux_char s m e l :
  0 <= m -> let f := fexp prec emax (Zdigits2 m + e) in
  e <= f ->
  binary_round_aux prec emax s m e l
  = round_pack s (rne_div (4 * m + loc_code l) (4 * 2 ^ (f - e))) f.
Proof using Hprec Hemax.
  intros Hm f Hf.
  unfold binary_round_aux, shr_fexp. fold f.
  pose proof (shr_round m e l (f - e) Hm ltac:(lia)) as H1.
  destruct (shr (shr_record_of_loc m l) e (f - e)) as [mrs e'].
  destruct H1 as (-> & Hm1 & ->).
  replace (e + (f - e)) with f by lia.
  set (M := rne_div (4 * m + loc_code l) (4 * 2 ^ (f - e))).
  assert (Hpow : 0 < 2 ^ (f - e)) by (apply Z.pow_pos_nonneg; lia).
  assert (Hq : (4 * m + loc_code l) / (4 * 2 ^ (f - e)) = m / 2 ^ (f - e)).
  { rewrite <- Z.div_div by lia. f_equal.
    apply code_div4, loc_code_range. }
  pose proof (rne_div_bounds (4 * m + loc_code l) (4 * 2 ^ (f - e)) ltac:(lia)) as HM.
  fold M in HM. rewrite Hq in HM.
  pose proof (shifted_mantissa_bound m e Hm Hf) as Hlt. fold f in Hlt.
  assert (H0 : 0 <= m / 2 ^ (f - e)) by (apply Z.div_pos; lia).
  assert (Hfmin := fexp_ge_emin (Zdigits2 m + e)). fold f in Hfmin.
  unfold round_pack. destruct (Z.eqb_spec M (2 ^ prec)) as [HMe|HMne].
  - (* the rounding carried into a new binade *)
    assert (Hd : Zdigits2 M = prec + 1).
    { apply Zdigits2_unique; [lia|]. rewrite HMe.
      replace (prec + 1 - 1) with prec by lia.
      split; [lia|]. apply Z.pow_lt_mono_r; lia. }
    rewrite Hd.
    assert (Hf1 : fexp prec emax (prec + 1 + f) - f = 1) by (unfold fexp; lia).
    rewrite Hf1.
    assert (HM0 : 0 <= M) by lia.
    pose proof (shr_round M f loc_Exact 1 HM0 ltac:(lia)) as H2.
    destruct (shr (shr_record_of_loc M loc_Exact) f 1) as [mrs2 e2].
    destruct H2 as (-> & -> & _).
    rewrite HMe. change (2 ^ 1) with 2.
    replace (2 ^ prec) with (2 * 2 ^ (prec - 1))
      by (rewrite <- Z.pow_succ_r by lia; f_equal; lia).
    rewrite Z.mul_comm, Z.div_mul by lia. reflexivity.
  - assert (Hd : Zdigits2 M <= prec) by (apply Zdigits2_lt_pow; lia).
    rewrite shr_exact_noop by (unfold fexp; lia).
    reflexivity.
Qed.

Lemma bounded_facts m e : bounded prec emax m e = true ->
  SpecFloat.emin prec emax <= e <= emax - prec /\ Zpos m < 2 ^ prec /\
  (SpecFloat.emin prec emax < e -> 2 ^ (prec - 1) <= Zpos m).
Proof using Hprec Hemax.
  unfold bounded, canonical_mantissa. rewrite andb_true_iff, Z.eqb_eq, Z.leb_le.
  intros [Hc He].
  change (Zpos (digits2_pos m)) with (Zdigits2 (Zpos m)) in Hc.
  pose proof (Zdigits2_bounds (Zpos m) ltac:(lia)) as [Hlo Hhi].
  pose proof (Zdigits2_pos (Zpos m) ltac:(lia)) as Hd.
  unfold fexp in Hc.
  split; [lia|]. split.
  - assert (2 ^ Zdigits2 (Zpos m) <= 2 ^ prec) by (apply Z.pow_le_mono_r; lia). lia.
  - intros Hlt. replace (prec - 1) with (Zdigits2 (Zpos m) - 1) by lia. assumption.
Qed.

Lemma mag_bounds m e : bounded prec emax m e = true ->
  0 < mag m e < 2 ^ (emax - SpecFloat.emin prec emax).
Proof using Hprec Hemax.
  intros Hb. destruct (bounded_facts m e Hb) as (He & Hm & _).
  unfold mag.
  assert (0 < 2 ^ (e - SpecFloat.emin prec emax)) by (apply Z.pow_pos_nonneg; lia).
  split; [lia|].
  assert (2 ^ prec * 2 ^ (e - SpecFloat.emin prec emax) <= 2 ^ (emax - SpecFloat.emin prec emax)).
  { rewrite <- Z.pow_add_r by lia. apply Z.pow_le_mono_r; lia. }
  nia.
Qed.

Lemma mag_lt_exp m1 e1 m2 e2 :
  bounded prec emax m1 e1 = true -> bounded prec emax m2 e2 = true ->
  e1 < e2 -> mag m1 e1 < mag m2 e2.
Proof using Hprec Hemax.
  intros H1 H2 Hlt.
  destruct (bounded_facts m1 e1 H1) as (He1 & Hm1 & _).
  destruct (bounded_facts m2 e2 H2) as (He2 & _ & Hn2).
  specialize (Hn2 ltac:(lia)). unfold mag.
  set (k := e1 - SpecFloat.emin prec emax).
  replace (e2 - SpecFloat.emin prec emax) with ((e2 - e1 - 1) + 1 + k) by lia.
  assert (0 < 2 ^ k) by (apply Z.pow_pos_nonneg; lia).
  assert (0 < 2 ^ (e2 - e1 - 1)) by (apply Z.pow_pos_nonneg; lia).
  rewrite !Z.pow_add_r by lia. change (2 ^ 1) with 2.
  assert (2 ^ prec = 2 * 2 ^ (prec - 1))
    by (rewrite <- Z.pow_succ_r by lia; f_equal; lia).
  assert (Zpos m1 * 2 ^ k < 2 * Zpos m2 * 2 ^ k) by (apply Z.mul_lt_mono_pos_r; lia).
  assert (2 * Zpos m2 * 2 ^ k * 1 <= 2 * Zpos m2 * 2 ^ k * 2 ^ (e2 - e1 - 1))
    by (apply Z.mul_le_mono_nonneg_l; lia).
  lia.
Qed.

Lemma mag_compare m1 e1 m2 e2 :
  bounded prec emax m1 e1 = true -> bounded prec emax m2 e2 = true ->
  match e1 ?= e2 with
  | Lt => Lt
  | Gt => Gt
  | Eq => Pos.compare_cont Eq m1 m2
  end = (mag m1 e1 ?= mag m2 e2).
Proof using Hprec Hemax.
  intros H1 H2. destruct (Z.compare_spec e1 e2) as [E|E|E]; symmetry.
  - subst e2. unfold mag.
    rewrite <- Zmult_compare_compat_r; [reflexivity|].
    destruct (bounded_facts m1 e1 H1) as (He1 & _).
    apply Z.lt_gt, Z.pow_pos_nonneg; lia.
  - apply Z.compare_lt_iff. apply mag_lt_exp; assumption.
  - apply Z.compare_gt_iff. apply mag_lt_exp; assumption.
Qed.

(** On valid floats the comparison of the format is the comparison of
    the values. *)
Theorem SFcompare_ulps x y :
  SpecFloat.valid_binary prec emax x = true -> SpecFloat.valid_binary prec emax y = true ->
  is_nan_sf x = false -> is_nan_sf y = false ->
  SFcompare x y = Some (ulps x ?= ulps y).
Proof using Hprec Hemax.
  assert (Hov : 0 < 2 ^ (emax - SpecFloat.emin prec emax))
    by (apply Z.pow_pos_nonneg; unfold SpecFloat.emin; lia).
  destruct x as [sx|sx| |sx mx ex], y as [sy|sy| |sy my ey];
    simpl valid_binary; simpl is_nan_sf; intros Hx Hy Nx Ny; try discriminate;
    try pose proof (mag_bounds _ _ Hx) as Bx;
    try pose proof (mag_bounds _ _ Hy) as By;
    cbn [SFcompare ulps]; try reflexivity; f_equal; symmetry;
    try (destruct sx); try (destruct sy); cbn [cond_Zopp];
    try reflexivity;
    try (apply Z.compare_lt_iff; lia); try (apply Z.compare_gt_iff; lia);
    try (apply Z.compare_eq_iff; lia).
  - rewrite Z.compare_opp, Z.compare_antisym, <- (mag_compare _ _ _ _ Hx Hy).
    destruct (ex ?= ey); reflexivity.
  - rewrite <- (mag_compare _ _ _ _ Hx Hy). reflexivity.
Qed.

Lemma emin_le_emax : SpecFloat.emin prec emax <= emax - prec.
Proof using Hprec Hemax. unfold SpecFloat.emin. lia. Qed.

Lemma round_pack_sem s M f :
  0 <= M <= 2 ^ prec -> SpecFloat.emin prec emax <= f ->
  (SpecFloat.emin prec emax < f -> 2 ^ (prec - 1) <= M) ->
  SpecFloat.valid_binary prec emax (round_pack s M f) = true /\
  is_nan_sf (round_pack s M f) = false /\
  ulps (round_pack s M f)
  = cond_Zopp s (Z.min (M * 2 ^ (f - SpecFloat.emin prec emax)) overflow_ulps).
Proof using Hprec Hemax.
  intros HM Hf Hn. unfold overflow_ulps.
  pose proof emin_le_emax as Hee.
  set (em := SpecFloat.emin prec emax) in *.
  assert (Hhalf : 2 ^ prec = 2 * 2 ^ (prec - 1))
    by (rewrite <- Z.pow_succ_r by lia; f_equal; lia).
  assert (Hp1 : 0 < 2 ^ (prec - 1)) by (apply pow2_pos; lia).
  assert (Hpf : 0 < 2 ^ (f - em)) by (apply pow2_pos; lia).
  assert (Hcanon : forall p e, 0 < p -> Zdigits2 p <= prec ->
            (em < e -> Zdigits2 p = prec) -> em <= e -> fexp prec emax (Zdigits2 p + e) = e).
  { intros p e Hp Hd Hd' He. unfold fexp. fold em. lia. }
  unfold round_pack. destruct (Z.eqb_spec M (2 ^ prec)) as [HMe|HMne].
  - (* carry *)
    unfold SFpack. destruct (2 ^ (prec - 1)) as [|p|p] eqn:Ep; try lia.
    assert (Hdp : Zdigits2 (Zpos p) = prec).
    { apply Zdigits2_unique; [lia|]. rewrite <- Ep. split; [lia|].
      apply Z.pow_lt_mono_r; lia. }
    assert (Hval : M * 2 ^ (f - em) = Zpos p * 2 ^ (f + 1 - em)).
    { rewrite HMe, Hhalf. replace (f + 1 - em) with (1 + (f - em)) by lia.
      rewrite pow2_split by lia. change (2 ^ 1) with 2. lia. }
    destruct (Z.leb_spec (f + 1) (emax - prec)) as [Hle|Hgt].
    + split; [|split; [reflexivity|]].
      * simpl. unfold bounded, canonical_mantissa.
        change (Zpos (digits2_pos p)) with (Zdigits2 (Zpos p)).
        rewrite Hcanon by lia. rewrite Z.eqb_refl. apply Z.leb_le. assumption.
      * cbn [ulps]. f_equal. unfold mag. fold em. rewrite Hval.
        symmetry. apply Z.min_l.
        assert (Zpos p * 2 ^ (f + 1 - em) < 2 ^ prec * 2 ^ (f + 1 - em))
          by (apply Z.mul_lt_mono_pos_r; [apply pow2_pos|]; lia).
        assert (2 ^ prec * 2 ^ (f + 1 - em) <= 2 ^ (emax - em))
          by (rewrite <- pow2_split by lia; apply pow2_le; lia).
        lia.
    + split; [reflexivity|]. split; [reflexivity|].
      cbn [ulps]. f_equal. symmetry. apply Z.min_r.
      rewrite HMe, <- pow2_split by lia. apply pow2_le; lia.
  - unfold SFpack. destruct M as [|p|p]; [| |lia].
    + split; [reflexivity|]. split; [reflexivity|].
      cbn [ulps]. assert (0 < 2 ^ (emax - em)) by (apply pow2_pos; lia).
      rewrite Z.mul_0_l, Z.min_l by lia. destruct s; reflexivity.
    + assert (Hdp : Zdigits2 (Zpos p) <= prec) by (apply Zdigits2_lt_pow; lia).
      assert (Hdn : em < f -> Zdigits2 (Zpos p) = prec).
      { intros Hlt. specialize (Hn Hlt).
        pose proof (Zdigits2_ge_pow (Zpos p) (prec - 1) ltac:(lia) Hn). lia. }
      destruct (Z.leb_spec f (emax - prec)) as [Hle|Hgt].
      * assert (Hb : bounded prec emax p f = true).
        { unfold bounded, canonical_mantissa.
          change (Zpos (digits2_pos p)) with (Zdigits2 (Zpos p)).
          rewrite Hcanon by lia. rewrite Z.eqb_refl. apply Z.leb_le. assumption. }
        split; [exact Hb|]. split; [reflexivity|].
        cbn [ulps]. f_equal. symmetry. apply Z.min_l.
        pose proof (mag_bounds p f Hb) as Hmb. unfold mag in *. subst em. lia.
      * split; [reflexivity|]. split; [reflexivity|].
        cbn [ulps]. f_equal. symmetry. apply Z.min_r.
        specialize (Hn ltac:(lia)).
        assert (2 ^ (emax - em) <= 2 ^ (prec - 1) * 2 ^ (f - em))
          by (rewrite <- pow2_split by lia; apply pow2_le; lia).
        assert (2 ^ (prec - 1) * 2 ^ (f - em) <= Zpos p * 2 ^ (f - em))
          by (apply Z.mul_le_mono_nonneg_r; lia).
        subst em. lia.
Qed.

(** The semantics of [binary_round_aux] on values. *)
Theorem binary_round_aux_sem s m e l :
  0 <= m -> let f := fexp prec emax (Zdigits2 m + e) in
  e <= f ->
  let r := binary_round_aux prec emax s m e l in
  SpecFloat.valid_binary prec emax r = true /\ is_nan_sf r = false /\
  ulps r = cond_Zopp s
    (Z.min (rne_div (4 * m + loc_code l) (4 * 2 ^ (f - e))
            * 2 ^ (f - SpecFloat.emin prec emax)) overflow_ulps).
Proof using Hprec Hemax.
  intros Hm f Hf r. unfold r.
  rewrite (binary_round_aux_char s m e l Hm Hf). fold f.
  assert (Hpow : 0 < 2 ^ (f - e)) by (apply pow2_pos; lia).
  assert (Hq : (4 * m + loc_code l) / (4 * 2 ^ (f - e)) = m / 2 ^ (f - e)).
  { rewrite <- Z.div_div by lia. f_equal.
    apply code_div4, loc_code_range. }
  pose proof (rne_div_bounds (4 * m + loc_code l) (4 * 2 ^ (f - e)) ltac:(lia)) as HM.
  rewrite Hq in HM.
  pose proof (shifted_mantissa_bound m e Hm Hf) as Hlt. fold f in Hlt.
  assert (H0 : 0 <= m / 2 ^ (f - e)) by (apply Z.div_pos; lia).
  apply round_pack_sem.
  - lia.
  - apply fexp_ge_emin.
  - intros Hn. pose proof (shifted_mantissa_normal m e Hm Hf Hn). fold f in H. lia.
Qed.

Lemma round_pack_pos M f : 0 < M -> is_pos_sf (round_pack false M f) = true.
Proof using Hprec Hemax.
  intros HM. unfold round_pack, SFpack.
  assert (Hp : 0 < 2 ^ (prec - 1)) by (apply pow2_pos; lia).
  destruct (M =? 2 ^ prec).
  - destruct (2 ^ (prec - 1)); try lia. destruct (_ <=? _); reflexivity.
  - destruct M; try lia. destruct (_ <=? _); reflexivity.
Qed.

(** What [SFdiv_core_binary] computes: the dividend is scaled by [2^s],
    then an integer division with the position of the remainder. *)
Lemma SFdiv_core_binary_spec m1 e1 m2 e2 :
  0 < m1 -> 0 < m2 ->
  let e' := Z.min (fexp prec emax (Zdigits2 m1 + e1 - (Zdigits2 m2 + e2))) (e1 - e2) in
  let s := e1 - e2 - e' in
  SFdiv_core_binary prec emax m1 e1 m2 e2
  = ((m1 * 2 ^ s) / m2, e', new_location m2 ((m1 * 2 ^ s) mod m2))
  /\ 0 <= s /\ e' <= fexp prec emax (Zdigits2 ((m1 * 2 ^ s) / m2) + e').
Proof using Hprec Hemax.
  intros H1 H2 e' s.
  assert (Hs : 0 <= s) by (unfold s, e'; lia).
  assert (Hm' : match s with Zpos _ => Z.shiftl m1 s | Z0 => m1 | Zneg _ => 0 end = m1 * 2 ^ s).
  { destruct s as [|p|p] eqn:Es; [simpl; lia| |lia]. apply Z.shiftl_mul_pow2. lia. }
  split; [|split; [assumption|]].
  - unfold SFdiv_core_binary. fold e'. fold s. rewrite Hm'.
    unfold Z.div, Z.modulo. destruct (Z.div_eucl (m1 * 2 ^ s) m2). reflexivity.
  - assert (Hp : 0 < m1 * 2 ^ s) by (assert (0 < 2 ^ s) by (apply pow2_pos; lia); nia).
    pose proof (Zdigits2_div _ _ Hp H2) as Hd.
    rewrite Zdigits2_mul_pow2 in Hd by lia.
    transitivity (fexp prec emax (Zdigits2 m1 + e1 - (Zdigits2 m2 + e2))); [unfold e'; lia|].
    apply fexp_mono. unfold s in *. lia.
Qed.

Lemma valid_finite_emin s m e :
  SpecFloat.valid_binary prec emax (S754_finite s m e) = true ->
  SpecFloat.emin prec emax <= e.
Proof using Hprec Hemax. intros H. apply bounded_facts in H. lia. Qed.

(** A positive float times a float that is at least one stays positive:
    the product cannot underflow to zero. *)
Lemma SFmul_pos_ge1 x my ey :
  is_pos_sf x = true -> SpecFloat.valid_binary prec emax x = true ->
  prec <= Zdigits2 (Zpos my) -> - ey < Zdigits2 (Zpos my) ->
  is_pos_sf (SFmul prec emax x (S754_finite false my ey)) = true.
Proof using Hprec Hemax.
  intros Hx Hv Hd1 Hd2.
  destruct x as [sx|[|]| |[|] mx ex]; try discriminate; [reflexivity|].
  pose proof (valid_finite_emin _ _ _ Hv) as Hex.
  cbn [SFmul xorb].
  assert (Hm : 0 <= Zpos (mx * my)) by lia.
  assert (Hdd : Zdigits2 (Zpos my) <= Zdigits2 (Zpos (mx * my))).
  { apply Zdigits2_le; [lia|]. rewrite Pos2Z.inj_mul. nia. }
  set (f := fexp prec emax (Zdigits2 (Zpos (mx * my)) + (ex + ey))).
  assert (Hf : ex + ey <= f) by (unfold f, fexp; lia).
  rewrite (binary_round_aux_char false _ _ loc_Exact Hm Hf). fold f.
  apply round_pack_pos.
  assert (Hpow : 0 < 2 ^ (f - (ex + ey))) by (apply pow2_pos; lia).
  apply rne_div_pos; [lia|]. cbn [loc_code].
  assert (2 ^ (f - (ex + ey)) <= Zpos (mx * my)).
  { pose proof (Zdigits2_bounds (Zpos (mx * my)) ltac:(lia)) as [Hlo _].
    transitivity (2 ^ (Zdigits2 (Zpos (mx * my)) - 1)); [|assumption].
    apply pow2_le; [|lia]. unfold f, fexp. lia. }
  lia.
Qed.

(** A positive float divided by a float below two stays positive: the
    quotient is more than half the smallest subnormal. *)
Lemma SFdiv_pos_lt2 x my ey :
  is_pos_sf x = true -> SpecFloat.valid_binary prec emax x = true ->
  ey <= 0 -> Zpos my < 2 ^ (1 - ey) ->
  is_pos_sf (SFdiv prec emax x (S754_finite false my ey)) = true.
Proof using Hprec Hemax.
  intros Hx Hv Hey Hmy.
  destruct x as [sx|[|]| |[|] mx ex]; try discriminate; [reflexivity|].
  pose proof (valid_finite_emin _ _ _ Hv) as Hex.
  cbn [SFdiv xorb].
  destruct (SFdiv_core_binary_spec (Zpos mx) ex (Zpos my) ey ltac:(lia) ltac:(lia))
    as (-> & Hs & Hf).
  set (e' := Z.min (fexp prec emax (Zdigits2 (Zpos mx) + ex - (Zdigits2 (Zpos my) + ey))) (ex - ey)) in *.
  set (s := ex - ey - e') in *.
  set (A := Zpos mx * 2 ^ s) in *.
  assert (Hps : 0 < 2 ^ s) by (apply pow2_pos; lia).
  assert (HA : 2 ^ s <= A) by (unfold A; nia).
  assert (Hq : 0 <= A / Zpos my) by (apply Z.div_pos; lia).
  set (f := fexp prec emax (Zdigits2 (A / Zpos my) + e')) in *.
  rewrite (binary_round_aux_char false _ _ _ Hq Hf). fold f.
  apply round_pack_pos.
  assert (Hpow : 0 < 2 ^ (f - e')) by (apply pow2_pos; lia).
  destruct (Z_lt_le_dec (SpecFloat.emin prec emax) f) as [Hnorm|Hsub].
  - pose proof (shifted_mantissa_normal _ _ Hq Hf Hnorm) as Hn. fold f in Hn.
    pose proof (rne_div_bounds (4 * (A / Zpos my) + loc_code (new_location (Zpos my) (A mod Zpos my)))
                  (4 * 2 ^ (f - e')) ltac:(lia)) as [Hlo _].
    assert (Hq4 : (4 * (A / Zpos my) + loc_code (new_location (Zpos my) (A mod Zpos my))) / (4 * 2 ^ (f - e'))
                  = (A / Zpos my) / 2 ^ (f - e')).
    { rewrite <- Z.div_div by lia. f_equal. apply code_div4, loc_code_range. }
    rewrite Hq4 in Hlo.
    assert (0 < 2 ^ (prec - 1)) by (apply pow2_pos; lia). lia.
  - assert (Hfe : f = SpecFloat.emin prec emax) by (pose proof (fexp_ge_emin (Zdigits2 (A / Zpos my) + e')); fold f in H; lia).
    rewrite rne_div_location by lia.
    apply rne_div_pos; [nia|].
    assert (Zpos my * 2 ^ (f - e') < 2 ^ (1 - ey) * 2 ^ (f - e'))
      by (apply Z.mul_lt_mono_pos_r; lia).
    rewrite <- pow2_split in H by lia.
    assert (2 ^ (1 - ey + (f - e')) <= 2 ^ (1 + s)) by (apply pow2_le; unfold s; lia).
    rewrite (pow2_split 1 s) in H0 by lia. change (2 ^ 1) with 2 in H0. lia.
Qed.

Lemma rnd_ulps_zero b : b <= SpecFloat.emin prec emax -> rnd_ulps b 0 = 0.
Proof using Hprec Hemax.
  intros Hb. unfold rnd_ulps. cbn [Zdigits2].
  assert (0 < overflow_ulps) by (apply pow2_pos; unfold SpecFloat.emin; lia).
  unfold rne_div. rewrite Z.div_0_l, Zmod_0_l.
  - assert (0 < 2 ^ (fexp prec emax (0 + b) - b))
      by (apply pow2_pos; pose proof (fexp_ge_emin (0 + b)); lia).
    destruct (Z.compare_spec (2 * 0) (2 ^ (fexp prec emax (0 + b) - b))); try lia.
  - pose proof (fexp_ge_emin (0 + b)).
    assert (0 < 2 ^ (fexp prec emax (0 + b) - b)) by (apply pow2_pos; lia). lia.
Qed.

Lemma rnd_ulps_nonneg b N : b <= SpecFloat.emin prec emax -> 0 <= N -> 0 <= rnd_ulps b N.
Proof using Hprec Hemax.
  intros Hb HN. unfold rnd_ulps.
  pose proof (fexp_ge_emin (Zdigits2 N + b)) as Hf.
  set (f := fexp prec emax (Zdigits2 N + b)) in *.
  assert (0 < 2 ^ (f - b)) by (apply pow2_pos; lia).
  assert (0 < 2 ^ (f - SpecFloat.emin prec emax)) by (apply pow2_pos; lia).
  assert (0 < overflow_ulps) by (apply pow2_pos; unfold SpecFloat.emin; lia).
  pose proof (rne_div_bounds N (2 ^ (f - b)) ltac:(lia)).
  assert (0 <= N / 2 ^ (f - b)) by (apply Z.div_pos; lia).
  apply Z.min_glb; nia.
Qed.

(** Rounding is monotone. *)
Theorem rnd_ulps_mono b N1 N2 :
  b <= SpecFloat.emin prec emax -> 0 <= N1 <= N2 -> rnd_ulps b N1 <= rnd_ulps b N2.
Proof using Hprec Hemax.
  intros Hb [H1 H12]. unfold rnd_ulps.
  destruct (Z.eq_dec N1 0) as [->|HN1].
  { fold (rnd_ulps b 0). rewrite rnd_ulps_zero by assumption.
    apply (rnd_ulps_nonneg b N2); lia. }
  pose proof (Zdigits2_le N1 N2 ltac:(lia) H12) as Hd.
  pose proof (fexp_ge_emin (Zdigits2 N1 + b)) as Hf1.
  pose proof (fexp_ge_emin (Zdigits2 N2 + b)) as Hf2.
  pose proof (fexp_mono (Zdigits2 N1 + b) (Zdigits2 N2 + b) ltac:(lia)) as Hf12.
  set (f1 := fexp prec emax (Zdigits2 N1 + b)) in *.
  set (f2 := fexp prec emax (Zdigits2 N2 + b)) in *.
  set (em := SpecFloat.emin prec emax) in *.
  assert (P1 : 0 < 2 ^ (f1 - b)) by (apply pow2_pos; lia).
  assert (P2 : 0 < 2 ^ (f2 - b)) by (apply pow2_pos; lia).
  assert (Q1 : 0 < 2 ^ (f1 - em)) by (apply pow2_pos; lia).
  apply Z.min_le_compat_r.
  destruct (Z.eq_dec f1 f2) as [Heq|Hne].
  - rewrite <- Heq. apply Z.mul_le_mono_nonneg_r; [lia|].
    apply rne_div_mono; nia.
  - assert (Hlt : f1 < f2) by lia.
    pose proof (shifted_mantissa_bound N1 b ltac:(lia) ltac:(fold f1; lia)) as Hup.
    pose proof (shifted_mantissa_normal N2 b ltac:(lia) ltac:(fold f2; lia) ltac:(fold f2 em; lia)) as Hlo.
    fold f1 in Hup. fold f2 in Hlo.
    pose proof (rne_div_bounds N1 (2 ^ (f1 - b)) P1) as [_ B1].
    pose proof (rne_div_bounds N2 (2 ^ (f2 - b)) P2) as [B2 _].
    assert (Hhalf : 2 ^ prec = 2 * 2 ^ (prec - 1))
      by (rewrite <- Z.pow_succ_r by lia; f_equal; lia).
    assert (Hstep : 2 ^ (f2 - em) = 2 ^ (f2 - f1 - 1) * 2 * 2 ^ (f1 - em)).
    { replace (f2 - em) with ((f2 - f1 - 1) + 1 + (f1 - em)) by lia.
      rewrite !pow2_split by lia. reflexivity. }
    assert (0 < 2 ^ (f2 - f1 - 1)) by (apply pow2_pos; lia).
    assert (0 < 2 ^ (prec - 1)) by (apply pow2_pos; lia).
    transitivity (2 ^ prec * 2 ^ (f1 - em)).
    + apply Z.mul_le_mono_nonneg_r; lia.
    + rewrite Hstep, Hhalf.
      transitivity (2 ^ (prec - 1) * (2 ^ (f2 - f1 - 1) * 2 * 2 ^ (f1 - em))).
      * assert (2 * 2 ^ (f1 - em) * 1 <= 2 * 2 ^ (f1 - em) * 2 ^ (f2 - f1 - 1))
          by (apply Z.mul_le_mono_nonneg_l; lia).
        nia.
      * apply Z.mul_le_mono_nonneg_r; [nia|lia].
Qed.

(** Rounding leaves a float of the format unchanged. *)
Lemma rnd_ulps_canonical b m e :
  b <= SpecFloat.emin prec emax -> bounded prec emax m e = true ->
  rnd_ulps b (Zpos m * 2 ^ (e - b)) = mag m e.
Proof using Hprec Hemax.
  intros Hb Hbd. pose proof (bounded_facts m e Hbd) as (He & Hm & Hn).
  pose proof (mag_bounds m e Hbd) as Hmag.
  unfold rnd_ulps. rewrite Zdigits2_mul_pow2 by lia.
  replace (Zdigits2 (Zpos m) + (e - b) + b) with (Zdigits2 (Zpos m) + e) by lia.
  assert (Hc : fexp prec emax (Zdigits2 (Zpos m) + e) = e).
  { unfold bounded, canonical_mantissa in Hbd.
    apply andb_true_iff in Hbd. destruct Hbd as [Hc _]. apply Z.eqb_eq in Hc. exact Hc. }
  rewrite Hc, rne_div_exact by (apply pow2_pos; lia).
  fold (mag m e). unfold overflow_ulps. apply Z.min_l. lia.
Qed.

(** Rounding an exact value [m * 2^e], on values. *)
Lemma binary_round_aux_exact s m e b :
  0 < m -> e <= fexp prec emax (Zdigits2 m + e) ->
  b <= SpecFloat.emin prec emax -> b <= e ->
  let r := binary_round_aux prec emax s m e loc_Exact in
  SpecFloat.valid_binary prec emax r = true /\ is_nan_sf r = false /\
  ulps r = cond_Zopp s (rnd_ulps b (m * 2 ^ (e - b))).
Proof using Hprec Hemax.
  intros Hm Hf Hb Hbe r.
  destruct (binary_round_aux_sem s m e loc_Exact ltac:(lia) Hf) as (Hv & Hn & Hu).
  fold r in Hv, Hn, Hu. split; [assumption|]. split; [assumption|].
  rewrite Hu. f_equal. unfold rnd_ulps.
  rewrite Zdigits2_mul_pow2 by lia.
  replace (Zdigits2 m + (e - b) + b) with (Zdigits2 m + e) by lia.
  set (f := fexp prec emax (Zdigits2 m + e)) in *.
  cbn [loc_code]. rewrite Z.add_0_r.
  assert (0 < 2 ^ (f - e)) by (apply pow2_pos; lia).
  assert (0 < 2 ^ (e - b)) by (apply pow2_pos; lia).
  rewrite rne_div_scale by lia.
  replace (2 ^ (f - b)) with (2 ^ (e - b) * 2 ^ (f - e))
    by (rewrite <- pow2_split by lia; f_equal; lia).
  rewrite (Z.mul_comm m), rne_div_scale by lia.
  reflexivity.
Qed.

Theorem binary_round_sem s m e b :
  b <= SpecFloat.emin prec emax -> b <= e ->
  let r := binary_round prec emax s m e in
  SpecFloat.valid_binary prec emax r = true /\ is_nan_sf r = false /\
  ulps r = cond_Zopp s (rnd_ulps b (Zpos m * 2 ^ (e - b))).
Proof using Hprec Hemax.
  intros Hb Hbe. unfold binary_round, shl_align.
  change (Zpos (digits2_pos m)) with (Zdigits2 (Zpos m)).
  pose proof (fexp_ge_emin (Zdigits2 (Zpos m) + e)) as Hfm.
  set (f := fexp prec emax (Zdigits2 (Zpos m) + e)) in *.
  destruct (f - e) as [|d|d] eqn:Ed.
  - apply binary_round_aux_exact; fold f; lia.
  - apply binary_round_aux_exact; fold f; lia.
  - assert (Hz : Zpos (Pos.iter xO m d) = Zpos m * 2 ^ (e - f)).
    { rewrite iter_xO_pow2. do 2 f_equal. lia. }
    assert (Hd : Zdigits2 (Zpos (Pos.iter xO m d)) + f = Zdigits2 (Zpos m) + e).
    { rewrite Hz, Zdigits2_mul_pow2 by lia. lia. }
    destruct (binary_round_aux_exact s (Zpos (Pos.iter xO m d)) f b) as (Hv & Hn & Hu);
      try lia.
    { rewrite Hd. fold f. lia. }
    split; [assumption|]. split; [assumption|].
    rewrite Hu, Hz. do 2 f_equal.
    rewrite <- Z.mul_assoc, <- pow2_split by lia. do 2 f_equal. lia.
Qed.

Lemma rnd_signed_mono b Z1 Z2 :
  b <= SpecFloat.emin prec emax -> Z1 <= Z2 -> rnd_signed b Z1 <= rnd_signed b Z2.
Proof using Hprec Hemax.
  intros Hb H. unfold rnd_signed.
  destruct (Z.ltb_spec Z1 0), (Z.ltb_spec Z2 0); try lia.
  - pose proof (rnd_ulps_mono b (- Z2) (- Z1) Hb ltac:(lia)). lia.
  - pose proof (rnd_ulps_nonneg b (- Z1) Hb ltac:(lia)).
    pose proof (rnd_ulps_nonneg b Z2 Hb ltac:(lia)). lia.
  - apply rnd_ulps_mono; [assumption|lia].
Qed.

Theorem binary_normalize_sem m e sz b :
  b <= SpecFloat.emin prec emax -> b <= e ->
  let r := binary_normalize prec emax m e sz in
  SpecFloat.valid_binary prec emax r = true /\ is_nan_sf r = false /\
  ulps r = rnd_signed b (m * 2 ^ (e - b)).
Proof using Hprec Hemax.
  intros Hb Hbe. assert (0 < 2 ^ (e - b)) by (apply pow2_pos; lia).
  unfold rnd_signed. destruct m as [|p|p]; cbn [binary_normalize].
  - rewrite Z.mul_0_l. cbn [Z.ltb Z.compare]. rewrite rnd_ulps_zero by assumption.
    repeat split.
  - destruct (Z.ltb_spec (Zpos p * 2 ^ (e - b)) 0); [lia|].
    apply (binary_round_sem false p e b Hb Hbe).
  - destruct (Z.ltb_spec (Zneg p * 2 ^ (e - b)) 0); [|lia].
    replace (- (Zneg p * 2 ^ (e - b))) with (Zpos p * 2 ^ (e - b)) by lia.
    apply (binary_round_sem true p e b Hb Hbe).
Qed.

Lemma rnd_signed_canonical x :
  SpecFloat.valid_binary prec emax x = true -> is_finite_sf x = true ->
  rnd_signed (SpecFloat.emin prec emax) (ulps x) = ulps x.
Proof using Hprec Hemax.
  destruct x as [s| | |s m e]; try discriminate; intros Hv _; cbn [ulps].
  - unfold rnd_signed. cbn [Z.ltb Z.compare]. apply rnd_ulps_zero. lia.
  - cbn [SpecFloat.valid_binary] in Hv. pose proof (mag_bounds m e Hv) as Hm.
    pose proof (rnd_ulps_canonical (SpecFloat.emin prec emax) m e ltac:(lia) Hv) as Hc.
    fold (mag m e) in Hc.
    unfold rnd_signed. destruct s; cbn [cond_Zopp].
    + destruct (Z.ltb_spec (- mag m e) 0); [|lia]. rewrite Z.opp_involutive, Hc. reflexivity.
    + destruct (Z.ltb_spec (mag m e) 0); [lia|]. exact Hc.
Qed.

Lemma ulps_finite_align s m e ez :
  ez <= e -> SpecFloat.emin prec emax <= ez ->
  cond_Zopp s (Zpos (fst (shl_align m e ez))) * 2 ^ (ez - SpecFloat.emin prec emax)
  = ulps (S754_finite s m e).
Proof using Hprec Hemax.
  intros H1 H2. rewrite shl_align_fst by assumption. cbn [ulps]. unfold mag.
  replace (e - SpecFloat.emin prec emax) with ((e - ez) + (ez - SpecFloat.emin prec emax)) by lia.
  rewrite pow2_split by lia. destruct s; cbn [cond_Zopp]; lia.
Qed.

(** Addition and subtraction of finite floats: the exact sum, rounded. *)
Theorem SFadd_sem x y :
  SpecFloat.valid_binary prec emax x = true -> SpecFloat.valid_binary prec emax y = true ->
  is_finite_sf x = true -> is_finite_sf y = true ->
  let r := SFadd prec emax x y in
  SpecFloat.valid_binary prec emax r = true /\ is_nan_sf r = false /\
  ulps r = rnd_signed (SpecFloat.emin prec emax) (ulps x + ulps y).
Proof using Hprec Hemax.
  intros Hx Hy Fx Fy.
  destruct x as [sx| | |sx mx ex]; try discriminate;
  destruct y as [sy| | |sy my ey]; try discriminate.
  - cbn [ulps]. unfold rnd_signed. cbn [Z.add Z.ltb Z.compare].
    rewrite rnd_ulps_zero by lia. destruct sx, sy; repeat split.
  - cbn [SFadd]. rewrite Z.add_0_l, rnd_signed_canonical by assumption. repeat split; assumption.
  - cbn [SFadd]. change (ulps (S754_zero sy)) with 0.
    rewrite Z.add_0_r, rnd_signed_canonical by assumption. repeat split; assumption.
  - pose proof (valid_finite_emin _ _ _ Hx). pose proof (valid_finite_emin _ _ _ Hy).
    cbn [SFadd].
    destruct (binary_normalize_sem
      (cond_Zopp sx (Zpos (fst (shl_align mx ex (Z.min ex ey))))
       + cond_Zopp sy (Zpos (fst (shl_align my ey (Z.min ex ey)))))
      (Z.min ex ey) false (SpecFloat.emin prec emax) ltac:(lia) ltac:(lia)) as (Hv & Hn & Hu).
    split; [assumption|]. split; [assumption|].
    rewrite Hu, Z.mul_add_distr_r, !ulps_finite_align by lia. reflexivity.
Qed.

Theorem SFsub_sem x y :
  SpecFloat.valid_binary prec emax x = true -> SpecFloat.valid_binary prec emax y = true ->
  is_finite_sf x = true -> is_finite_sf y = true ->
  let r := SFsub prec emax x y in
  SpecFloat.valid_binary prec emax r = true /\ is_nan_sf r = false /\
  ulps r = rnd_signed (SpecFloat.emin prec emax) (ulps x - ulps y).
Proof using Hprec Hemax.
  intros Hx Hy Fx Fy.
  destruct x as [sx| | |sx mx ex]; try discriminate;
  destruct y as [sy| | |sy my ey]; try discriminate.
  - cbn [ulps]. unfold rnd_signed. cbn [Z.sub Z.add Z.opp Z.ltb Z.compare].
    rewrite rnd_ulps_zero by lia. destruct sx, sy; repeat split.
  - cbn [SFsub].
    assert (Hopp : ulps (S754_zero sx) - ulps (S754_finite sy my ey)
                   = ulps (S754_finite (negb sy) my ey))
      by (cbn [ulps]; destruct sy; cbn [cond_Zopp negb]; lia).
    rewrite Hopp, rnd_signed_canonical by assumption. repeat split; assumption.
  - cbn [SFsub]. change (ulps (S754_zero sy)) with 0.
    rewrite Z.sub_0_r, rnd_signed_canonical by assumption. repeat split; assumption.
  - pose proof (valid_finite_emin _ _ _ Hx). pose proof (valid_finite_emin _ _ _ Hy).
    cbn [SFsub].
    destruct (binary_normalize_sem
      (cond_Zopp sx (Zpos (fst (shl_align mx ex (Z.min ex ey))))
       - cond_Zopp sy (Zpos (fst (shl_align my ey (Z.min ex ey)))))
      (Z.min ex ey) false (SpecFloat.emin prec emax) ltac:(lia) ltac:(lia)) as (Hv & Hn & Hu).
    split; [assumption|]. split; [assumption|].
    rewrite Hu, Z.mul_sub_distr_r, !ulps_finite_align by lia. reflexivity.
Qed.

Lemma bounded_digits m e : bounded prec emax m e = true ->
  1 <= Zdigits2 (Zpos m) <= prec /\
  (SpecFloat.emin prec emax < e -> Zdigits2 (Zpos m) = prec).
Proof using Hprec Hemax.
  intros Hb. pose proof (bounded_facts m e Hb) as (He & Hm & Hn).
  pose proof (Zdigits2_pos (Zpos m) ltac:(lia)).
  pose proof (Zdigits2_lt_pow (Zpos m) prec ltac:(lia) ltac:(lia)).
  split; [lia|]. intros Hlt. specialize (Hn Hlt).
  pose proof (Zdigits2_ge_pow (Zpos m) (prec - 1) ltac:(lia) Hn). lia.
Qed.

Lemma emin_neg : SpecFloat.emin prec emax < 0.
Proof using Hprec Hemax. unfold SpecFloat.emin. lia. Qed.

Lemma mul_exp_ok mx ex my ey :
  bounded prec emax mx ex = true -> bounded prec emax my ey = true ->
  ex + ey <= fexp prec emax (Zdigits2 (Zpos (mx * my)) + (ex + ey)).
Proof using Hprec Hemax.
  intros Hx Hy.
  pose proof (bounded_facts mx ex Hx) as (Hex & _).
  pose proof (bounded_facts my ey Hy) as (Hey & _).
  pose proof (bounded_digits mx ex Hx) as (Hdx & Hnx).
  pose proof (bounded_digits my ey Hy) as (Hdy & Hny).
  pose proof (Zdigits2_mul (Zpos mx) (Zpos my) ltac:(lia) ltac:(lia)) as Hd.
  rewrite <- Pos2Z.inj_mul in Hd. pose proof emin_neg.
  unfold fexp.
  destruct (Z_lt_le_dec (SpecFloat.emin prec emax) ex);
    destruct (Z_lt_le_dec (SpecFloat.emin prec emax) ey); lia.
Qed.

(** Multiplication of finite floats: the exact product, rounded. *)
Theorem SFmul_sem x y :
  SpecFloat.valid_binary prec emax x = true -> SpecFloat.valid_binary prec emax y = true ->
  is_finite_sf x = true -> is_finite_sf y = true ->
  let r := SFmul prec emax x y in
  SpecFloat.valid_binary prec emax r = true /\ is_nan_sf r = false /\
  ulps r = rnd_signed (2 * SpecFloat.emin prec emax) (ulps x * ulps y).
Proof using Hprec Hemax.
  intros Hx Hy Fx Fy. pose proof emin_neg as Hneg.
  assert (Hz : rnd_signed (2 * SpecFloat.emin prec emax) 0 = 0).
  { unfold rnd_signed. cbn [Z.ltb Z.compare]. apply rnd_ulps_zero. lia. }
  destruct x as [sx| | |sx mx ex]; try discriminate;
  destruct y as [sy| | |sy my ey]; try discriminate; cbn [SFmul].
  - cbn [ulps]. rewrite Z.mul_0_l, Hz. repeat split.
  - cbn [ulps]. rewrite Z.mul_0_l, Hz. repeat split.
  - change (ulps (S754_zero sy)) with 0. rewrite Z.mul_0_r, Hz. repeat split.
  - cbn [SpecFloat.valid_binary] in Hx, Hy.
    pose proof (bounded_facts mx ex Hx) as (Hex & _).
    pose proof (bounded_facts my ey Hy) as (Hey & _).
    pose proof (mag_bounds mx ex Hx) as Bx. pose proof (mag_bounds my ey Hy) as By.
    destruct (binary_round_aux_exact (xorb sx sy) (Zpos (mx * my)) (ex + ey)
                (2 * SpecFloat.emin prec emax) ltac:(lia) (mul_exp_ok _ _ _ _ Hx Hy)
                ltac:(lia) ltac:(lia)) as (Hv & Hn & Hu).
    split; [assumption|]. split; [assumption|]. rewrite Hu.
    assert (Hprod : Zpos (mx * my) * 2 ^ (ex + ey - 2 * SpecFloat.emin prec emax)
                    = mag mx ex * mag my ey).
    { unfold mag. rewrite Pos2Z.inj_mul.
      replace (ex + ey - 2 * SpecFloat.emin prec emax)
        with ((ex - SpecFloat.emin prec emax) + (ey - SpecFloat.emin prec emax)) by lia.
      rewrite pow2_split by lia. ring. }
    rewrite Hprod. cbn [ulps]. unfold rnd_signed.
    destruct sx, sy; cbn [xorb cond_Zopp].
    + destruct (Z.ltb_spec (- mag mx ex * - mag my ey) 0); [nia|]. f_equal. ring.
    + destruct (Z.ltb_spec (- mag mx ex * mag my ey) 0); [|nia]. do 2 f_equal. ring.
    + destruct (Z.ltb_spec (mag mx ex * - mag my ey) 0); [|nia]. do 2 f_equal. ring.
    + destruct (Z.ltb_spec (mag mx ex * mag my ey) 0); [nia|]. reflexivity.
Qed.

(** Changing the unit of the exact value does not change the rounding. *)
Lemma rnd_ulps_rebase b b' N : b' <= b -> b <= SpecFloat.emin prec emax -> 0 < N ->
  rnd_ulps b' (N * 2 ^ (b - b')) = rnd_ulps b N.
Proof using Hprec Hemax.
  intros Hb Hbe HN. unfold rnd_ulps.
  rewrite Zdigits2_mul_pow2 by lia.
  replace (Zdigits2 N + (b - b') + b') with (Zdigits2 N + b) by lia.
  pose proof (fexp_ge_emin (Zdigits2 N + b)).
  replace (2 ^ (fexp prec emax (Zdigits2 N + b) - b'))
    with (2 ^ (b - b') * 2 ^ (fexp prec emax (Zdigits2 N + b) - b))
    by (rewrite <- pow2_split by lia; f_equal; lia).
  rewrite (Z.mul_comm N), rne_div_scale; [reflexivity| |]; apply pow2_pos; lia.
Qed.

(** Division of finite floats: the exact quotient [A / B], scaled to the
    exponent [f] of the result and rounded. *)
Theorem SFdiv_finite_sem sx mx ex sy my ey :
  let e' := Z.min (fexp prec emax (Zdigits2 (Zpos mx) + ex - (Zdigits2 (Zpos my) + ey))) (ex - ey) in
  let s := ex - ey - e' in
  let A := Zpos mx * 2 ^ s in
  let f := fexp prec emax (Zdigits2 (A / Zpos my) + e') in
  let r := SFdiv prec emax (S754_finite sx mx ex) (S754_finite sy my ey) in
  SpecFloat.valid_binary prec emax r = true /\ is_nan_sf r = false /\
  ulps r = cond_Zopp (xorb sx sy)
    (Z.min (rne_div A (Zpos my * 2 ^ (f - e')) * 2 ^ (f - SpecFloat.emin prec emax))
           overflow_ulps) /\
  0 <= s /\ e' <= f.
Proof using Hprec Hemax.
  intros e' s A f r. unfold r. cbn [SFdiv].
  destruct (SFdiv_core_binary_spec (Zpos mx) ex (Zpos my) ey ltac:(lia) ltac:(lia))
    as (-> & Hs & Hf).
  fold e' in Hs, Hf |- *. fold s in Hs, Hf |- *. fold A in Hf |- *. fold f in Hf.
  assert (HA : 0 < A) by (unfold A; assert (0 < 2 ^ s) by (apply pow2_pos; lia); nia).
  assert (Hq : 0 <= A / Zpos my) by (apply Z.div_pos; lia).
  destruct (binary_round_aux_sem (xorb sx sy) (A / Zpos my) e'
              (new_location (Zpos my) (A mod Zpos my)) Hq Hf) as (Hv & Hn & Hu).
  fold f in Hu.
  rewrite rne_div_location in Hu by lia.
  repeat split; assumption.
Qed.

Lemma ulps_float_one : ulps float_one = 2 ^ (- SpecFloat.emin prec emax).
Proof using Hprec Hemax.
  pose proof emin_neg. assert (0 < 2 ^ (prec - 1)) by (apply pow2_pos; lia).
  cbn [ulps float_one cond_Zopp]. unfold mag. rewrite Z2Pos.id by lia.
  rewrite <- pow2_split by (unfold SpecFloat.emin in *; lia). f_equal. lia.
Qed.

(** A quotient of a float by a float that is not smaller is at most one. *)
Theorem SFdiv_le_one x y :
  SpecFloat.valid_binary prec emax x = true -> SpecFloat.valid_binary prec emax y = true ->
  is_finite_sf x = true -> is_finite_sf y = true ->
  0 <= ulps x <= ulps y -> 0 < ulps y ->
  let r := SFdiv prec emax x y in
  SpecFloat.valid_binary prec emax r = true /\ is_nan_sf r = false /\
  0 <= ulps r <= ulps float_one.
Proof using Hprec Hemax.
  intros Hx Hy Fx Fy Hxy Hy0. pose proof emin_neg as Hneg.
  assert (Hone : 0 < 2 ^ (- SpecFloat.emin prec emax)) by (apply pow2_pos; lia).
  destruct y as [sy| | |sy my ey]; try discriminate; cbn [ulps] in Hy0.
  destruct sy; cbn [cond_Zopp] in Hy0;
    [pose proof (mag_bounds my ey Hy); lia|].
  destruct x as [sx| | |sx mx ex]; try discriminate.
  { cbn [SFdiv xorb]. rewrite ulps_float_one. cbn [ulps]. repeat split; lia. }
  destruct sx; [pose proof (mag_bounds mx ex Hx); cbn [ulps cond_Zopp] in Hxy; lia|].
  cbn [ulps cond_Zopp] in Hxy.
  pose proof (bounded_facts mx ex Hx) as (Hex & _).
  pose proof (bounded_facts my ey Hy) as (Hey & _).
  destruct (SFdiv_finite_sem false mx ex false my ey) as (Hv & Hn & Hu & Hs & Hf).
  set (e' := Z.min (fexp prec emax (Zdigits2 (Zpos mx) + ex - (Zdigits2 (Zpos my) + ey))) (ex - ey)) in *.
  set (s := ex - ey - e') in *.
  set (A := Zpos mx * 2 ^ s) in *.
  set (f := fexp prec emax (Zdigits2 (A / Zpos my) + e')) in *.
  split; [assumption|]. split; [assumption|].
  rewrite Hu, ulps_float_one. cbn [xorb cond_Zopp].
  set (em := SpecFloat.emin prec emax) in *.
  assert (Ps : 0 < 2 ^ s) by (apply pow2_pos; lia).
  assert (Pfe : 0 < 2 ^ (f - e')) by (apply pow2_pos; lia).
  assert (Hfm : em <= f) by apply fexp_ge_emin.
  assert (Pfm : 0 < 2 ^ (f - em)) by (apply pow2_pos; lia).
  assert (HA : 0 < A) by (unfold A; nia).
  assert (Hov : 0 < overflow_ulps) by (apply pow2_pos; unfold em, SpecFloat.emin; lia).
  pose proof (rne_div_bounds A (Zpos my * 2 ^ (f - e')) ltac:(nia)) as [HM0 _].
  assert (0 <= A / (Zpos my * 2 ^ (f - e'))) by (apply Z.div_pos; nia).
  split; [apply Z.min_glb; nia|].
  (* the exponents: the quotient is at most one, so [e'] and [f] are not positive *)
  assert (Hdig : Zdigits2 (Zpos mx) + ex <= Zdigits2 (Zpos my) + ey).
  { pose proof (Zdigits2_bounds (Zpos mx) ltac:(lia)) as [Lx _].
    pose proof (Zdigits2_bounds (Zpos my) ltac:(lia)) as [_ Uy].
    pose proof (Zdigits2_pos (Zpos mx) ltac:(lia)).
    pose proof (Zdigits2_pos (Zpos my) ltac:(lia)).
    destruct (Z_le_gt_dec (Zdigits2 (Zpos mx) + ex) (Zdigits2 (Zpos my) + ey)) as [|Hgt];
      [assumption|exfalso].
    unfold mag in Hxy. fold em in Hxy.
    assert (2 ^ (Zdigits2 (Zpos my) + (ey - em)) <= 2 ^ (Zdigits2 (Zpos mx) - 1 + (ex - em)))
      by (apply pow2_le; lia).
    rewrite !pow2_split in H2 by lia.
    assert (0 < 2 ^ (ex - em)) by (apply pow2_pos; lia).
    assert (0 < 2 ^ (ey - em)) by (apply pow2_pos; lia).
    assert (Zpos my * 2 ^ (ey - em) < 2 ^ Zdigits2 (Zpos my) * 2 ^ (ey - em))
      by (apply Z.mul_lt_mono_pos_r; lia).
    assert (2 ^ (Zdigits2 (Zpos mx) - 1) * 2 ^ (ex - em) <= Zpos mx * 2 ^ (ex - em))
      by (apply Z.mul_le_mono_nonneg_r; lia).
    lia. }
  assert (He' : e' < 0) by (unfold e', fexp; fold em; lia).
  assert (HAB : A <= Zpos my * 2 ^ (- e')).
  { unfold A, mag in *. fold em in Hxy.
    assert (P1 : 0 < 2 ^ (ey - em)) by (apply pow2_pos; lia).
    assert (P2 : 0 < 2 ^ (- e')) by (apply pow2_pos; lia).
    apply (Z.mul_le_mono_pos_r _ _ (2 ^ (ey - em)) P1).
    replace (Zpos mx * 2 ^ s * 2 ^ (ey - em)) with (Zpos mx * 2 ^ (ex - em) * 2 ^ (- e')).
    - replace (Zpos my * 2 ^ (- e') * 2 ^ (ey - em)) with (Zpos my * 2 ^ (ey - em) * 2 ^ (- e')) by ring.
      apply Z.mul_le_mono_nonneg_r; lia.
    - rewrite <- !Z.mul_assoc, <- !pow2_split by (unfold s; lia). do 2 f_equal. unfold s. lia. }
  assert (Hf0 : f <= 0).
  { assert (Hq : A / Zpos my <= 2 ^ (- e')).
    { apply Z.div_le_upper_bound; [lia|assumption]. }
    assert (Hdq : Zdigits2 (A / Zpos my) <= - e' + 1).
    { apply Zdigits2_lt_pow; [lia|]. split; [apply Z.div_pos; lia|].
      rewrite pow2_split by lia. change (2 ^ 1) with 2.
      assert (0 < 2 ^ (- e')) by (apply pow2_pos; lia). lia. }
    unfold f, fexp. fold em. lia. }
  transitivity (rne_div A (Zpos my * 2 ^ (f - e')) * 2 ^ (f - em)); [apply Z.le_min_l|].
  assert (HM : rne_div A (Zpos my * 2 ^ (f - e')) <= 2 ^ (- f)).
  { rewrite <- (rne_div_exact (2 ^ (- f)) 1) by lia.
    apply rne_div_mono; [nia|lia|].
    rewrite !Z.mul_1_r.
    replace (2 ^ (- f) * (Zpos my * 2 ^ (f - e'))) with (Zpos my * 2 ^ (- e')); [assumption|].
    rewrite (Z.mul_comm (2 ^ (- f))), <- Z.mul_assoc, <- pow2_split by lia.
    do 2 f_equal. lia. }
  replace (2 ^ (- em)) with (2 ^ (- f) * 2 ^ (f - em))
    by (rewrite <- pow2_split by lia; f_equal; lia).
  apply Z.mul_le_mono_nonneg_r; lia.
Qed.

(** A finite non-zero float divided by itself is exactly one. *)
Theorem SFdiv_self s m e :
  SFdiv prec emax (S754_finite s m e) (S754_finite s m e) = float_one.
Proof using Hprec Hemax.
  cbn [SFdiv].
  destruct (SFdiv_core_binary_spec (Zpos m) e (Zpos m) e ltac:(lia) ltac:(lia))
    as (-> & _ & Hf).
  pose proof emin_neg as Hneg.
  assert (He' : Z.min (fexp prec emax (Zdigits2 (Zpos m) + e - (Zdigits2 (Zpos m) + e))) (e - e) = - prec).
  { rewrite !Z.sub_diag. unfold fexp, SpecFloat.emin. lia. }
  rewrite He' in *.
  replace (e - e - - prec) with prec in * by lia.
  assert (Hp : 0 < 2 ^ prec) by (apply pow2_pos; lia).
  rewrite (Z.mul_comm (Zpos m)), Z.div_mul, Z.mod_mul in * by lia.
  rewrite new_location_zero.
  assert (Hd : Zdigits2 (2 ^ prec) = prec + 1).
  { apply Zdigits2_unique; [lia|]. replace (prec + 1 - 1) with prec by lia.
    split; [lia|]. apply Z.pow_lt_mono_r; lia. }
  rewrite (binary_round_aux_char (xorb s s) (2 ^ prec) (- prec) loc_Exact ltac:(lia) Hf).
  rewrite Hd.
  replace (fexp prec emax (prec + 1 + - prec)) with (1 - prec)
    by (unfold fexp, SpecFloat.emin; lia).
  replace (1 - prec - - prec) with 1 by lia.
  cbn [loc_code]. rewrite Z.add_0_r. change (2 ^ 1) with 2.
  assert (Hhalf : 2 ^ prec = 2 * 2 ^ (prec - 1))
    by (rewrite <- Z.pow_succ_r by lia; f_equal; lia).
  replace (4 * 2 ^ prec) with (2 ^ (prec - 1) * (4 * 2)) by lia.
  assert (Hq : 0 < 2 ^ (prec - 1)) by (apply pow2_pos; lia).
  rewrite rne_div_exact by lia.
  unfold round_pack. destruct (Z.eqb_spec (2 ^ (prec - 1)) (2 ^ prec)) as [E|_]; [lia|].
  unfold SFpack, float_one. destruct (2 ^ (prec - 1)) as [|p|p] eqn:Ep; try lia.
  destruct (Z.leb_spec (1 - prec) (emax - prec)); [|lia].
  cbn [xorb]. destruct s; reflexivity.
Qed.

Lemma SFleb_ulps x y :
  SpecFloat.valid_binary prec emax x = true -> SpecFloat.valid_binary prec emax y = true ->
  is_nan_sf x = false -> is_nan_sf y = false ->
  ulps x <= ulps y -> SFleb x y = true.
Proof using Hprec Hemax.
  intros Hx Hy Nx Ny H. unfold SFleb. rewrite (SFcompare_ulps x y Hx Hy Nx Ny).
  destruct (Z.compare_spec (ulps x) (ulps y)); try reflexivity. lia.
Qed.

Lemma SFltb_ulps x y :
  SpecFloat.valid_binary prec emax x = true -> SpecFloat.valid_binary prec emax y = true ->
  is_nan_sf x = false -> is_nan_sf y = false ->
  SFltb x y = (ulps x <? ulps y).
Proof using Hprec Hemax.
  intros Hx Hy Nx Ny. unfold SFltb. rewrite (SFcompare_ulps x y Hx Hy Nx Ny).
  unfold Z.ltb. destruct (ulps x ?= ulps y); reflexivity.
Qed.

Lemma ulps_nonneg x : is_nonneg_sf x = true -> 0 <= ulps x.
Proof using Hprec Hemax.
  assert (0 < overflow_ulps) by (apply pow2_pos; unfold SpecFloat.emin; lia).
  destruct x as [s|[|]| |[|] m e]; try discriminate; intros _; cbn [ulps cond_Zopp];
    unfold overflow_ulps, mag in *; lia.
Qed.

Lemma round_pack_nonneg M f : 0 <= M -> is_nonneg_sf (round_pack false M f) = true.
Proof using Hprec Hemax.
  intros HM. unfold round_pack, SFpack.
  assert (Hp : 0 < 2 ^ (prec - 1)) by (apply pow2_pos; lia).
  destruct (M =? 2 ^ prec).
  - destruct (2 ^ (prec - 1)); try lia. destruct (_ <=? _); reflexivity.
  - destruct M; try lia; [reflexivity|]. destruct (_ <=? _); reflexivity.
Qed.

Lemma nonneg_of_ulps x :
  SpecFloat.valid_binary prec emax x = true -> is_nan_sf x = false ->
  0 <= ulps x -> is_nonneg_sf x = true.
Proof using Hprec Hemax.
  assert (0 < overflow_ulps) by (apply pow2_pos; unfold SpecFloat.emin; lia).
  destruct x as [s|[|]| |[|] m e]; try discriminate; try reflexivity;
    cbn [ulps cond_Zopp SpecFloat.valid_binary]; intros Hv _ Hu.
  - unfold overflow_ulps in *. lia.
  - pose proof (mag_bounds m e Hv). lia.
Qed.

(** The quotient of two positive floats is not negative, when it is a number. *)
Lemma SFdiv_pos_nonneg x y :
  is_pos_sf x = true -> is_pos_sf y = true ->
  is_nan_sf (SFdiv prec emax x y) = false ->
  is_nonneg_sf (SFdiv prec emax x y) = true.
Proof using Hprec Hemax.
  destruct x as [sx|[|]| |[|] mx ex]; try discriminate;
  destruct y as [sy|[|]| |[|] my ey]; try discriminate; intros _ _ Hn;
    try reflexivity; try discriminate.
  destruct (SFdiv_finite_sem false mx ex false my ey) as (Hv & _ & Hu & Hs & Hf).
  apply nonneg_of_ulps; [assumption|assumption|].
  rewrite Hu. cbn [xorb cond_Zopp].
  assert (0 < overflow_ulps) by (apply pow2_pos; unfold SpecFloat.emin; lia).
  apply Z.min_glb; [|lia].
  apply Z.mul_nonneg_nonneg; [|apply Z.pow_nonneg; lia].
  match goal with |- 0 <= rne_div ?T ?D =>
    assert (HD : 0 < D) by (apply Z.mul_pos_pos; [lia|apply pow2_pos; lia]);
    pose proof (rne_div_bounds T D HD);
    assert (0 <= T / D) by (apply Z.div_pos; [apply Z.mul_nonneg_nonneg; [lia|apply Z.pow_nonneg; lia]|lia]);
    lia
  end.
Qed.

(** Subtracting a float that is not negative does not increase a float. *)
Theorem SFsub_nonneg_le a q :
  SpecFloat.valid_binary prec emax a = true -> SpecFloat.valid_binary prec emax q = true ->
  is_nonneg_sf q = true -> is_nan_sf (SFsub prec emax a q) = false ->
  SFleb (SFsub prec emax a q) a = true.
Proof using Hprec Hemax.
  intros Ha Hq Nq Hn.
  destruct (is_finite_sf a) eqn:Fa; [destruct (is_finite_sf q) eqn:Fq|].
  - destruct (SFsub_sem a q Ha Hq Fa Fq) as (Hv & Hnan & Hu).
    apply SFleb_ulps; try assumption.
    + destruct a; try discriminate; reflexivity.
    + rewrite Hu. pose proof (ulps_nonneg q Nq).
      transitivity (rnd_signed (SpecFloat.emin prec emax) (ulps a));
        [apply rnd_signed_mono; lia | rewrite rnd_signed_canonical by assumption; lia].
  - destruct q as [sq|[|]| |[|] mq eq]; try discriminate.
    destruct a as [sa|sa| |sa ma ea]; try discriminate; destruct sa; reflexivity.
  - destruct a as [sa|sa| |sa ma ea]; try discriminate.
    destruct q as [sq|[|]| |[|] mq eq]; try discriminate; destruct sa; try discriminate;
      reflexivity.
Qed.

(** Adding a float that is not negative does not decrease a float. *)
Theorem SFadd_nonneg_ge a q :
  SpecFloat.valid_binary prec emax a = true -> SpecFloat.valid_binary prec emax q = true ->
  is_nonneg_sf q = true -> is_nan_sf (SFadd prec emax a q) = false ->
  SFleb a (SFadd prec emax a q) = true.
Proof using Hprec Hemax.
  intros Ha Hq Nq Hn.
  destruct (is_finite_sf a) eqn:Fa; [destruct (is_finite_sf q) eqn:Fq|].
  - destruct (SFadd_sem a q Ha Hq Fa Fq) as (Hv & Hnan & Hu).
    apply SFleb_ulps; try assumption.
    + destruct a; try discriminate; reflexivity.
    + rewrite Hu. pose proof (ulps_nonneg q Nq).
      transitivity (rnd_signed (SpecFloat.emin prec emax) (ulps a));
        [rewrite rnd_signed_canonical by assumption; lia | apply rnd_signed_mono; lia].
  - destruct q as [sq|[|]| |[|] mq eq]; try discriminate.
    destruct a as [sa|sa| |sa ma ea]; try discriminate; destruct sa; reflexivity.
  - destruct a as [sa|sa| |sa ma ea]; try discriminate.
    destruct q as [sq|[|]| |[|] mq eq]; try discriminate; destruct sa; try discriminate;
      reflexivity.
Qed.

Lemma finite_of_ulps x :
  is_nan_sf x = false -> - overflow_ulps < ulps x < overflow_ulps ->
  is_finite_sf x = true.
Proof using Hprec Hemax.
  destruct x as [s|[|]| |s m e]; try discriminate; try reflexivity;
    cbn [ulps cond_Zopp]; unfold overflow_ulps; lia.
Qed.

Lemma positive_finite_shape x :
  SpecFloat.valid_binary prec emax x = true -> is_finite_sf x = true -> 0 < ulps x ->
  exists m e, x = S754_finite false m e.
Proof using Hprec Hemax.
  destruct x as [s| | |[|] m e]; try discriminate; cbn [ulps cond_Zopp SpecFloat.valid_binary];
    intros Hv _ Hu; try lia.
  - pose proof (mag_bounds m e Hv). lia.
  - exists m, e. reflexivity.
Qed.

Lemma ulps_abs_bound x :
  SpecFloat.valid_binary prec emax x = true -> is_finite_sf x = true ->
  - overflow_ulps < ulps x < overflow_ulps.
Proof using Hprec Hemax.
  assert (0 < overflow_ulps) by (apply pow2_pos; unfold SpecFloat.emin; lia).
  destruct x as [s| | |s m e]; try discriminate; cbn [ulps SpecFloat.valid_binary]; intros Hv _.
  - lia.
  - pose proof (mag_bounds m e Hv). unfold overflow_ulps in *.
    destruct s; cbn [cond_Zopp]; lia.
Qed.

Lemma rnd_signed_abs_le b Z0 B :
  b <= SpecFloat.emin prec emax -> Z.abs Z0 <= B ->
  Z.abs (rnd_signed b Z0) <= rnd_ulps b B.
Proof using Hprec Hemax.
  intros Hb H. unfold rnd_signed. destruct (Z.ltb_spec Z0 0).
  - pose proof (rnd_ulps_nonneg b (- Z0) Hb ltac:(lia)).
    pose proof (rnd_ulps_mono b (- Z0) B Hb ltac:(lia)). lia.
  - pose proof (rnd_ulps_nonneg b Z0 Hb ltac:(lia)).
    pose proof (rnd_ulps_mono b Z0 B Hb ltac:(lia)). lia.
Qed.

(** Multiplying a finite float by a float of magnitude at most one gives
    a finite float: the product cannot overflow. *)
Lemma SFmul_le_one_finite x y :
  SpecFloat.valid_binary prec emax x = true -> SpecFloat.valid_binary prec emax y = true ->
  is_finite_sf x = true -> is_finite_sf y = true ->
  Z.abs (ulps y) <= 2 ^ (- SpecFloat.emin prec emax) ->
  is_finite_sf (SFmul prec emax x y) = true.
Proof using Hprec Hemax.
  intros Hx Hy Fx Fy H1. pose proof emin_neg as Hneg.
  destruct (SFmul_sem x y Hx Hy Fx Fy) as (Hv & Hn & Hu).
  apply finite_of_ulps; [assumption|]. rewrite Hu.
  pose proof (ulps_abs_bound x Hx Fx) as Bx.
  assert (P : 0 < 2 ^ (- SpecFloat.emin prec emax)) by (apply pow2_pos; lia).
  destruct (Z.eq_dec (ulps x) 0) as [E|E].
  - rewrite E, Z.mul_0_l. unfold rnd_signed. cbn [Z.ltb Z.compare].
    rewrite rnd_ulps_zero by lia. lia.
  - assert (Hle : Z.abs (ulps x * ulps y) <= Z.abs (ulps x) * 2 ^ (- SpecFloat.emin prec emax)).
    { rewrite Z.abs_mul. apply Z.mul_le_mono_nonneg_l; [apply Z.abs_nonneg|assumption]. }
    pose proof (rnd_signed_abs_le (2 * SpecFloat.emin prec emax) _ _ ltac:(lia) Hle) as Hr.
    replace (- SpecFloat.emin prec emax)
      with (SpecFloat.emin prec emax - 2 * SpecFloat.emin prec emax) in Hr by lia.
    rewrite rnd_ulps_rebase in Hr by lia.
    assert (Hc : rnd_ulps (SpecFloat.emin prec emax) (Z.abs (ulps x)) = Z.abs (ulps x)).
    { destruct x as [s| | |s m e]; try discriminate; cbn [ulps] in *; [lia|].
      cbn [SpecFloat.valid_binary] in Hx. pose proof (mag_bounds m e Hx).
      replace (Z.abs (cond_Zopp s (mag m e))) with (mag m e)
        by (destruct s; cbn [cond_Zopp]; lia).
      pose proof (rnd_ulps_canonical (SpecFloat.emin prec emax) m e ltac:(lia) Hx) as Hcan.
      unfold mag at 1. exact Hcan. }
    rewrite Hc in Hr. lia.
Qed.

(** A finite float minus itself is a zero. *)
Lemma SFsub_self_zero x :
  is_finite_sf x = true -> exists s, SFsub prec emax x x = S754_zero s.
Proof using Hprec Hemax.
  destruct x as [s| | |s m e]; try discriminate; intros _; cbn [SFsub].
  - destruct s; eexists; reflexivity.
  - rewrite Z.sub_diag. eexists. reflexivity.
Qed.

(** A product by a float that is at least one is not smaller. *)
Theorem SFmul_ge_l x y :
  SpecFloat.valid_binary prec emax x = true -> SpecFloat.valid_binary prec emax y = true ->
  is_pos_sf x = true -> is_finite_sf y = true ->
  ulps float_one <= ulps y ->
  SFleb x (SFmul prec emax x y) = true.
Proof using Hprec Hemax.
  intros Hx Hy Px Fy H1. pose proof emin_neg as Hneg. rewrite ulps_float_one in H1.
  assert (Hone : 0 < 2 ^ (- SpecFloat.emin prec emax)) by (apply pow2_pos; lia).
  destruct y as [sy| | |sy my ey]; try discriminate; [cbn [ulps] in H1; lia|].
  destruct sy; [pose proof (mag_bounds my ey Hy); cbn [ulps cond_Zopp] in H1; lia|].
  destruct x as [sx|[|]| |[|] mx ex]; try discriminate; [reflexivity|].
  destruct (SFmul_sem (S754_finite false mx ex) (S754_finite false my ey) Hx Hy eq_refl eq_refl)
    as (Hv & Hn & Hu).
  apply SFleb_ulps; try assumption; try reflexivity.
  rewrite Hu.
  pose proof (mag_bounds mx ex Hx) as Hm. cbn [ulps cond_Zopp] in *.
  pose proof (rnd_signed_canonical (S754_finite false mx ex) Hx eq_refl) as Hc.
  cbn [ulps cond_Zopp] in Hc.
  rewrite <- Hc at 1.
  transitivity (rnd_signed (2 * SpecFloat.emin prec emax)
                           (mag mx ex * 2 ^ (- SpecFloat.emin prec emax))).
  - unfold rnd_signed.
    destruct (Z.ltb_spec (mag mx ex) 0); [lia|].
    destruct (Z.ltb_spec (mag mx ex * 2 ^ (- SpecFloat.emin prec emax)) 0); [nia|].
    replace (- SpecFloat.emin prec emax)
      with (SpecFloat.emin prec emax - 2 * SpecFloat.emin prec emax) by lia.
    rewrite rnd_ulps_rebase by lia. lia.
  - apply rnd_signed_mono; [lia|]. apply Z.mul_le_mono_nonneg_l; lia.
Qed.

(** A quotient by a float that is at least one is not larger. *)
Theorem SFdiv_le_l x y :
  SpecFloat.valid_binary prec emax x = true -> SpecFloat.valid_binary prec emax y = true ->
  is_pos_sf x = true -> is_finite_sf y = true ->
  ulps float_one <= ulps y ->
  SFleb (SFdiv prec emax x y) x = true.
Proof using Hprec Hemax.
  intros Hx Hy Px Fy H1. pose proof emin_neg as Hneg. rewrite ulps_float_one in H1.
  set (em := SpecFloat.emin prec emax) in *.
  assert (Hone : 0 < 2 ^ (- em)) by (apply pow2_pos; lia).
  destruct y as [sy| | |sy my ey]; try discriminate; [cbn [ulps] in H1; lia|].
  destruct sy; [pose proof (mag_bounds my ey Hy); cbn [ulps cond_Zopp] in H1; lia|].
  destruct x as [sx|[|]| |[|] mx ex]; try discriminate; [reflexivity|].
  cbn [ulps cond_Zopp] in H1. unfold mag in H1. fold em in H1.
  pose proof (bounded_facts mx ex Hx) as (Hex & _).
  pose proof (bounded_facts my ey Hy) as (Hey & _). fold em in Hex, Hey.
  destruct (SFdiv_finite_sem false mx ex false my ey) as (Hv & Hn & Hu & Hs & Hf).
  set (e' := Z.min (fexp prec emax (Zdigits2 (Zpos mx) + ex - (Zdigits2 (Zpos my) + ey))) (ex - ey)) in *.
  set (s := ex - ey - e') in *.
  set (A := Zpos mx * 2 ^ s) in *.
  set (f := fexp prec emax (Zdigits2 (A / Zpos my) + e')) in *.
  apply SFleb_ulps; try assumption; try reflexivity.
  rewrite Hu. cbn [xorb cond_Zopp ulps]. fold em.
  assert (Hcx : fexp prec emax (Zdigits2 (Zpos mx) + ex) = ex).
  { cbn [SpecFloat.valid_binary] in Hx. unfold bounded, canonical_mantissa in Hx.
    apply andb_true_iff in Hx. destruct Hx as [Hc _]. apply Z.eqb_eq in Hc. exact Hc. }
  (* the divisor is at least one: its magnitude is positive *)
  assert (Hdy : 0 < Zdigits2 (Zpos my) + ey).
  { pose proof (Zdigits2_bounds (Zpos my) ltac:(lia)) as [_ Uy].
    pose proof (Zdigits2_pos (Zpos my) ltac:(lia)).
    assert (P : 0 < 2 ^ (ey - em)) by (apply pow2_pos; lia).
    assert (Zpos my * 2 ^ (ey - em) < 2 ^ Zdigits2 (Zpos my) * 2 ^ (ey - em))
      by (apply Z.mul_lt_mono_pos_r; lia).
    rewrite <- pow2_split in H0 by lia.
    assert (2 ^ (- em) < 2 ^ (Zdigits2 (Zpos my) + (ey - em))) by lia.
    apply Z.pow_lt_mono_r_iff in H2; lia. }
  assert (He' : e' <= ex).
  { pose proof (fexp_mono (Zdigits2 (Zpos mx) + ex - (Zdigits2 (Zpos my) + ey))
                            (Zdigits2 (Zpos mx) + ex) ltac:(lia)).
    unfold e'. lia. }
  assert (Ps : 0 < 2 ^ s) by (apply pow2_pos; lia).
  assert (Pxe : 0 < 2 ^ (ex - e')) by (apply pow2_pos; lia).
  assert (HAB : A <= Zpos mx * 2 ^ (ex - e') * Zpos my).
  { unfold A. rewrite <- Z.mul_assoc. apply Z.mul_le_mono_nonneg_l; [lia|].
    destruct (Z_le_gt_dec 0 ey) as [Hey0|Hey0].
    - transitivity (2 ^ (ex - e') * 1); [|apply Z.mul_le_mono_nonneg_l; lia].
      rewrite Z.mul_1_r. apply pow2_le; unfold s; lia.
    - replace s with ((ex - e') + (- ey)) by (unfold s; lia).
      rewrite pow2_split by lia. apply Z.mul_le_mono_nonneg_l; [lia|].
      assert (P : 0 < 2 ^ (ey - em)) by (apply pow2_pos; lia).
      apply (Z.mul_le_mono_pos_r _ _ (2 ^ (ey - em)) P).
      rewrite <- pow2_split by lia. replace (- ey + (ey - em)) with (- em) by lia.
      exact H1. }
  assert (HQ : A / Zpos my <= Zpos mx * 2 ^ (ex - e')).
  { apply Z.div_le_upper_bound; [lia|]. lia. }
  assert (HQ0 : 0 <= A / Zpos my) by (apply Z.div_pos; unfold A; nia).
  assert (Hdig : Zdigits2 (A / Zpos my) <= Zdigits2 (Zpos mx) + (ex - e')).
  { rewrite <- Zdigits2_mul_pow2 by lia.
    destruct (Z.eq_dec (A / Zpos my) 0) as [->|Hq0].
    - apply Zdigits2_nonneg.
    - apply Zdigits2_le; lia. }
  assert (Hfx : f <= ex).
  { pose proof (fexp_mono (Zdigits2 (A / Zpos my) + e') (Zdigits2 (Zpos mx) + ex) ltac:(lia)).
    unfold f. lia. }
  assert (Pfe : 0 < 2 ^ (f - e')) by (apply pow2_pos; lia).
  assert (Hfm : em <= f) by apply fexp_ge_emin.
  assert (Pfm : 0 < 2 ^ (f - em)) by (apply pow2_pos; lia).
  assert (Pxf : 0 < 2 ^ (ex - f)) by (apply pow2_pos; lia).
  etransitivity; [apply Z.le_min_l|].
  assert (HM : rne_div A (Zpos my * 2 ^ (f - e')) <= Zpos mx * 2 ^ (ex - f)).
  { rewrite <- (rne_div_exact (Zpos mx * 2 ^ (ex - f)) 1) by lia.
    apply rne_div_mono; [nia|lia|].
    rewrite !Z.mul_1_r.
    replace (Zpos mx * 2 ^ (ex - f) * (Zpos my * 2 ^ (f - e')))
      with (Zpos mx * 2 ^ (ex - e') * Zpos my); [exact HAB|].
    replace (ex - e') with ((ex - f) + (f - e')) by lia.
    rewrite pow2_split by lia. ring. }
  unfold mag. fold em.
  replace (ex - em) with ((ex - f) + (f - em)) by lia.
  rewrite pow2_split, Z.mul_assoc by lia.
  apply Z.mul_le_mono_nonneg_r; lia.
Qed.

(** A product of a non-negative float by a float between zero and one is
    between zero and that float. *)
Theorem SFmul_le_l x y :
  SpecFloat.valid_binary prec emax x = true -> SpecFloat.valid_binary prec emax y = true ->
  is_finite_sf x = true -> is_finite_sf y = true ->
  0 <= ulps x -> 0 <= ulps y <= ulps float_one ->
  let r := SFmul prec emax x y in
  SpecFloat.valid_binary prec emax r = true /\ is_nan_sf r = false /\
  0 <= ulps r <= ulps x.
Proof using Hprec Hemax.
  intros Hx Hy Fx Fy Hx0 [Hy0 Hy1] r. pose proof emin_neg as Hneg.
  rewrite ulps_float_one in Hy1.
  set (em := SpecFloat.emin prec emax) in *.
  assert (Hone : 0 < 2 ^ (- em)) by (apply pow2_pos; lia).
  destruct (SFmul_sem x y Hx Hy Fx Fy) as (Hv & Hn & Hu). fold r in Hv, Hn, Hu. fold em in Hu.
  split; [assumption|]. split; [assumption|]. rewrite Hu.
  assert (H0 : rnd_signed (2 * em) 0 = 0).
  { unfold rnd_signed. cbn [Z.ltb Z.compare]. apply rnd_ulps_zero. fold em. lia. }
  split.
  - rewrite <- H0. apply rnd_signed_mono; [fold em; lia|nia].
  - transitivity (rnd_signed (2 * em) (ulps x * 2 ^ (- em))).
    + apply rnd_signed_mono; [fold em; lia|]. apply Z.mul_le_mono_nonneg_l; lia.
    + destruct (Z.eq_dec (ulps x) 0) as [E|E]; [rewrite E, Z.mul_0_l, H0; lia|].
      unfold rnd_signed.
      destruct (Z.ltb_spec (ulps x * 2 ^ (- em)) 0); [nia|].
      replace (- em) with (em - 2 * em) by lia.
      rewrite rnd_ulps_rebase by (fold em; lia).
      pose proof (rnd_signed_canonical x Hx Fx) as Hc. fold em in Hc.
      unfold rnd_signed in Hc.
      destruct (Z.ltb_spec (ulps x) 0); [lia|]. lia.
Qed.

End Format.

(** ** Signs

    How the operations of [spec_float] behave under a change of sign
    and on zeros of either sign.  Nothing here depends on the format. *)

Section Signs.

Import Notions.

Variables prec emax : Z.

(** The sign given to a rounding only ends up on its result. *)

Lemma binary_round_aux_opp s m e l :
  binary_round_aux prec emax (negb s) m e l = SFopp (binary_round_aux prec emax s m e l).
Proof.
  unfold binary_round_aux.
  destruct (shr_fexp prec emax m e l) as [mrs' e'].
  destruct (shr_fexp prec emax _ e' loc_Exact) as [mrs'' e''].
  destruct (shr_m mrs'') as [|p|p]; try reflexivity.
  destruct (e'' <=? emax - prec); reflexivity.
Qed.

Lemma binary_round_opp s m e :
  binary_round prec emax (negb s) m e = SFopp (binary_round prec emax s m e).
Proof.
  unfold binary_round. destruct (shl_align m e _) as [mz ez].
  apply binary_round_aux_opp.
Qed.

Lemma SFopp_involutive x : SFopp (SFopp x) = x.
Proof. destruct x; cbn [SFopp]; rewrite ?negb_involutive; reflexivity. Qed.

Lemma binary_normalize_opp m e : m <> 0 ->
  binary_normalize prec emax (- m) e false = SFopp (binary_normalize prec emax m e false).
Proof.
  destruct m as [|p|p]; cbn [binary_normalize Z.opp]; intros H; [contradiction| |].
  - pose proof (binary_round_opp true p e) as H1. cbn [negb] in H1.
    rewrite H1, SFopp_involutive. reflexivity.
  - apply (binary_round_opp true).
Qed.

(** [tracks]: a value followed up to its sign and to the sign of zeros. *)
Lemma tracks_cases flip x x' : tracks flip x x' ->
  x' = (if flip then SFopp x else x) \/ (is_zero_sf x = true /\ is_zero_sf x' = true).
Proof.
  unfold tracks, Shader.same_number.
  destruct x' as [s'|s'| |s' m' e']; try (intros H; left; exact H).
  destruct flip, x as [s|s| |s m e]; cbn [SFopp]; intros H;
    try (left; exact H); right; split; reflexivity.
Qed.

Lemma tracks_exact flip x : tracks flip x (if flip then SFopp x else x).
Proof. unfold tracks, Shader.same_number. destruct flip, x; reflexivity. Qed.

Lemma tracks_zero flip s s' : tracks flip (S754_zero s) (S754_zero s').
Proof. destruct flip; exact I. Qed.

Lemma binary_round_aux_true m e l :
  binary_round_aux prec emax true m e l = SFopp (binary_round_aux prec emax false m e l).
Proof. apply (binary_round_aux_opp false). Qed.

Lemma binary_round_true m e :
  binary_round prec emax true m e = SFopp (binary_round prec emax false m e).
Proof. apply (binary_round_opp false). Qed.

(** The operations of the shader preserve [tracks]; a product flips
    when one factor does. *)
Lemma SFmul_tracks f1 f2 x x' y y' :
  tracks f1 x x' -> tracks f2 y y' ->
  tracks (xorb f1 f2) (SFmul prec emax x y) (SFmul prec emax x' y').
Proof.
  intros Hx Hy.
  destruct (tracks_cases _ _ _ Hx) as [->|[Zx Zx']];
  destruct (tracks_cases _ _ _ Hy) as [->|[Zy Zy']]; clear Hx Hy.
  - destruct x as [sx|sx| |sx mx ex], y as [sy|sy| |sy my ey];
      try (destruct f1, f2; try destruct sx; try destruct sy; cbn; try exact I; reflexivity).
    destruct f1, f2, sx, sy; cbn [SFopp SFmul xorb negb]; unfold tracks;
      rewrite ?binary_round_aux_true;
      generalize (binary_round_aux prec emax false (Z.pos (mx * my)) (ex + ey) loc_Exact);
      intros r; destruct r; cbn; rewrite ?negb_involutive; try exact I; reflexivity.
  - destruct x as [sx|sx| |sx mx ex], y as [sy|sy| |sy my ey], y' as [sy'|sy'| |sy' my' ey'];
      try discriminate;
      destruct f1, f2; try destruct sx; try destruct sy; try destruct sy';
      cbn; try exact I; reflexivity.
  - destruct x as [sx|sx| |sx mx ex], y as [sy|sy| |sy my ey], x' as [sx'|sx'| |sx' mx' ex'];
      try discriminate;
      destruct f1, f2; try destruct sx; try destruct sy; try destruct sx';
      cbn; try exact I; reflexivity.
  - destruct x as [sx|sx| |sx mx ex], y as [sy|sy| |sy my ey], x' as [sx'|sx'| |sx' mx' ex'],
      y' as [sy'|sy'| |sy' my' ey']; try discriminate.
    apply tracks_zero.
Qed.

Lemma cond_Zopp_negb s m : cond_Zopp (negb s) m = - cond_Zopp s m.
Proof. destruct s; cbn; lia. Qed.

Lemma SFadd_tracks f x x' y y' :
  tracks f x x' -> tracks f y y' ->
  tracks f (SFadd prec emax x y) (SFadd prec emax x' y').
Proof.
  intros Hx Hy.
  destruct (tracks_cases _ _ _ Hx) as [->|[Zx Zx']];
  destruct (tracks_cases _ _ _ Hy) as [->|[Zy Zy']]; clear Hx Hy.
  - destruct f; [|apply (tracks_exact false)].
    destruct x as [sx|sx| |sx mx ex], y as [sy|sy| |sy my ey];
      try (try destruct sx; try destruct sy; cbn; try exact I; reflexivity).
    cbn [SFopp SFadd]. rewrite !cond_Zopp_negb, <- Z.opp_add_distr.
    set (S := cond_Zopp sx _ + cond_Zopp sy _).
    destruct (Z.eq_dec S 0) as [->|HS]; [exact I|].
    rewrite binary_normalize_opp by assumption. apply (tracks_exact true).
  - destruct x as [sx|sx| |sx mx ex], y as [sy|sy| |sy my ey], y' as [sy'|sy'| |sy' my' ey'];
      try discriminate;
      destruct f; try destruct sx; try destruct sy; try destruct sy';
      cbn; try exact I; reflexivity.
  - destruct x as [sx|sx| |sx mx ex], y as [sy|sy| |sy my ey], x' as [sx'|sx'| |sx' mx' ex'];
      try discriminate;
      destruct f; try destruct sx; try destruct sy; try destruct sx';
      cbn; try exact I; reflexivity.
  - destruct x as [sx|sx| |sx mx ex], y as [sy|sy| |sy my ey], x' as [sx'|sx'| |sx' mx' ex'],
      y' as [sy'|sy'| |sy' my' ey']; try discriminate.
    destruct f, sx, sy, sx', sy'; exact I.
Qed.

Lemma SFsub_tracks f x x' y y' :
  tracks f x x' -> tracks f y y' ->
  tracks f (SFsub prec emax x y) (SFsub prec emax x' y').
Proof.
  intros Hx Hy.
  destruct (tracks_cases _ _ _ Hx) as [->|[Zx Zx']];
  destruct (tracks_cases _ _ _ Hy) as [->|[Zy Zy']]; clear Hx Hy.
  - destruct f; [|apply (tracks_exact false)].
    destruct x as [sx|sx| |sx mx ex], y as [sy|sy| |sy my ey];
      try (try destruct sx; try destruct sy; cbn; try exact I; reflexivity).
    cbn [SFopp SFsub]. rewrite !cond_Zopp_negb.
    set (a := cond_Zopp sx _). set (b := cond_Zopp sy _).
    replace (- a - - b) with (- (a - b)) by lia.
    destruct (Z.eq_dec (a - b) 0) as [->|HS]; [exact I|].
    rewrite binary_normalize_opp by assumption. apply (tracks_exact true).
  - destruct x as [sx|sx| |sx mx ex], y as [sy|sy| |sy my ey], y' as [sy'|sy'| |sy' my' ey'];
      try discriminate;
      destruct f; try destruct sx; try destruct sy; try destruct sy';
      cbn; try exact I; reflexivity.
  - destruct x as [sx|sx| |sx mx ex], y as [sy|sy| |sy my ey], x' as [sx'|sx'| |sx' mx' ex'];
      try discriminate;
      destruct f; try destruct sx; try destruct sy; try destruct sx';
      cbn; try exact I; reflexivity.
  - destruct x as [sx|sx| |sx mx ex], y as [sy|sy| |sy my ey], x' as [sx'|sx'| |sx' mx' ex'],
      y' as [sy'|sy'| |sy' my' ey']; try discriminate.
    destruct f, sx, sy, sx', sy'; exact I.
Qed.

(** A comparison does not see the sign of a zero. *)
Lemma SFltb_tracks x x' y : tracks false x x' -> SFltb x' y = SFltb x y.
Proof.
  intros H. destruct (tracks_cases _ _ _ H) as [->|[Zx Zx']]; [reflexivity|].
  destruct x, x'; try discriminate. destruct y; reflexivity.
Qed.

Lemma SFdiv_tracks f x x' z :
  tracks f x x' -> tracks f (SFdiv prec emax x z) (SFdiv prec emax x' z).
Proof.
  intros Hx.
  destruct (tracks_cases _ _ _ Hx) as [->|[Zx Zx']]; clear Hx.
  - destruct f; [|apply (tracks_exact false)].
    destruct x as [sx|sx| |sx mx ex], z as [sz|sz| |sz mz ez];
      try (try destruct sx; try destruct sz; cbn; try exact I; reflexivity).
    cbn [SFopp SFdiv].
    destruct (SFdiv_core_binary prec emax (Z.pos mx) ex (Z.pos mz) ez) as [[m e] l].
    destruct sx, sz; cbn [xorb negb]; unfold tracks; rewrite ?binary_round_aux_true;
      generalize (binary_round_aux prec emax false m e l);
      intros r; destruct r; cbn; rewrite ?negb_involutive; try exact I; reflexivity.
  - destruct x as [sx|sx| |sx mx ex], x' as [sx'|sx'| |sx' mx' ex']; try discriminate.
    destruct z as [sz|sz| |sz mz ez]; destruct f; cbn; try exact I; reflexivity.
Qed.

(** Exact results on zeros. *)
Lemma SFsub_diag x : is_finite_sf x = true -> SFsub prec emax x x = S754_zero false.
Proof.
  destruct x as [[]| | |s m e]; try discriminate; intros _; try reflexivity.
  cbn [SFsub]. rewrite Z.sub_diag. reflexivity.
Qed.

Lemma SFdiv_zero_pos z : is_pos_sf z = true ->
  SFdiv prec emax (S754_zero false) z = S754_zero false.
Proof. destruct z as [[]|[]| |[] m e]; try discriminate; reflexivity. Qed.

Lemma SFsub_zero_r x : SFsub prec emax x (S754_zero false) = x.
Proof. destruct x as [[]|[]| |[] m e]; reflexivity. Qed.

Lemma SFadd_zero_r x : Shader.same_number (SFadd prec emax x (S754_zero false)) x.
Proof. destruct x as [[]|[]| |[] m e]; cbn; try exact I; reflexivity. Qed.

End Signs.

(** ** Facts on primitive floats (binary64) *)

Module Binary64.

Local Open Scope float_scope.

Lemma prec_gt_1 : (1 < prec)%Z.
Proof. reflexivity. Qed.

Lemma prec_lt_emax : (prec < emax)%Z.
Proof. reflexivity. Qed.

Lemma Prim2SF_zero : Prim2SF 0 = S754_zero false.
Proof. reflexivity. Qed.

(** The zoom factor [1.1] of [scrollCallback], as a double. *)
Lemma Prim2SF_factor : Prim2SF 1.1 = S754_finite false 4953959590107546 (-52).
Proof. reflexivity. Qed.

Lemma SFltb_zero_pos x : SFltb (S754_zero false) x = is_pos_sf x.
Proof. destruct x as [s|[|]| |[|] m e]; reflexivity. Qed.

Lemma ltb_zero_pos z : (0 <? z) = is_pos_sf (Prim2SF z).
Proof. rewrite ltb_spec, Prim2SF_zero. apply SFltb_zero_pos. Qed.

Lemma ltb_zero_neg z : (z <? 0) = true -> (0 <? z) = false.
Proof.
  rewrite !ltb_spec, Prim2SF_zero.
  destruct (Prim2SF z) as [s|[|]| |[|] m e]; try discriminate; reflexivity.
Qed.

Lemma eqb_zero_not_ltb z : (z =? 0) = true -> (0 <? z) = false /\ (z <? 0) = false.
Proof.
  rewrite eqb_spec, !ltb_spec, Prim2SF_zero.
  destruct (Prim2SF z) as [s|[|]| |[|] m e]; try discriminate; split; reflexivity.
Qed.

Lemma is_nan_spec z : is_nan z = is_nan_sf (Prim2SF z).
Proof.
  unfold is_nan. rewrite eqb_spec. unfold SFeqb.
  destruct (is_nan_sf (Prim2SF z)) eqn:E.
  - destruct (Prim2SF z); try discriminate. reflexivity.
  - rewrite (SFcompare_refl _ E). reflexivity.
Qed.

(** Scaling a positive zoom by [1.1], up or down, leaves it positive: in
    binary64 the product can overflow to infinity and the quotient gets
    stuck at a subnormal, but neither reaches zero. *)
Lemma mul_factor_pos z : (0 <? z) = true -> (0 <? z * 1.1) = true.
Proof.
  rewrite !ltb_zero_pos, mul_spec, Prim2SF_factor. intros H.
  apply (SFmul_pos_ge1 prec emax prec_gt_1 prec_lt_emax);
    try assumption; try apply Prim2SF_valid; reflexivity.
Qed.

Lemma div_factor_pos z : (0 <? z) = true -> (0 <? z / 1.1) = true.
Proof.
  rewrite !ltb_zero_pos, div_spec, Prim2SF_factor. intros H.
  apply (SFdiv_pos_lt2 prec emax prec_gt_1 prec_lt_emax);
    try assumption; try apply Prim2SF_valid; try reflexivity.
  discriminate.
Qed.

(** The quotient of two positive doubles, when it is a number, is not negative. *)
Lemma div_pos_nonneg d z :
  (0 <? d) = true -> (0 <? z) = true ->
  is_nan (d / z) = false -> is_nonneg_sf (Prim2SF (d / z)) = true.
Proof.
  rewrite !ltb_zero_pos, is_nan_spec, div_spec. intros Hd Hz Hn.
  apply (SFdiv_pos_nonneg prec emax prec_gt_1 prec_lt_emax); assumption.
Qed.

Lemma sub_nan_l a q : is_nan (a - q) = false -> is_nan q = false.
Proof.
  rewrite !is_nan_spec, sub_spec.
  destruct (Prim2SF a) as [| | |], (Prim2SF q) as [| | |]; try reflexivity; discriminate.
Qed.

Lemma add_nan_l a q : is_nan (a + q) = false -> is_nan q = false.
Proof.
  rewrite !is_nan_spec, add_spec.
  destruct (Prim2SF a) as [| | |], (Prim2SF q) as [| | |]; try reflexivity; discriminate.
Qed.

Lemma sub_nonneg_le a q :
  is_nonneg_sf (Prim2SF q) = true -> is_nan (a - q) = false -> (a - q <=? a) = true.
Proof.
  rewrite is_nan_spec, leb_spec, sub_spec. intros Hq Hn.
  apply (SFsub_nonneg_le prec emax prec_gt_1 prec_lt_emax);
    try assumption; apply Prim2SF_valid.
Qed.

Lemma add_nonneg_ge a q :
  is_nonneg_sf (Prim2SF q) = true -> is_nan (a + q) = false -> (a <=? a + q) = true.
Proof.
  rewrite is_nan_spec, leb_spec, add_spec. intros Hq Hn.
  apply (SFadd_nonneg_ge prec emax prec_gt_1 prec_lt_emax);
    try assumption; apply Prim2SF_valid.
Qed.

(** Scaling a positive zoom by [1.1] moves it the right way, or not at all. *)
Lemma factor_ge_one : (ulps prec emax (float_one prec) <= ulps prec emax (Prim2SF 1.1))%Z.
Proof. vm_compute. discriminate. Qed.

Lemma mul_factor_ge z : (0 <? z) = true -> (z <=? z * 1.1) = true.
Proof.
  rewrite ltb_zero_pos, leb_spec, mul_spec. intros H.
  apply (SFmul_ge_l prec emax prec_gt_1 prec_lt_emax);
    try assumption; try apply Prim2SF_valid; [reflexivity|apply factor_ge_one].
Qed.

Lemma div_factor_le z : (0 <? z) = true -> (z / 1.1 <=? z) = true.
Proof.
  rewrite ltb_zero_pos, leb_spec, div_spec. intros H.
  apply (SFdiv_le_l prec emax prec_gt_1 prec_lt_emax);
    try assumption; try apply Prim2SF_valid; [reflexivity|apply factor_ge_one].
Qed.

End Binary64.

(** ** The view-state controller: the claims *)

Module ControllerFacts.

Import Controller Binary64.
Local Open Scope float_scope.

Lemma set_zoom_same g : set_zoom g (zoom g) = g.
Proof. destruct g; reflexivity. Qed.

(** C2: a scroll forward ([yoffset > 0]) multiplies [zoom] by 1.1, a
    scroll backward ([yoffset < 0]) divides it by 1.1, whatever the zoom
    is (nothing clamps the result); and the handler changes nothing but
    [zoom]. *)
Theorem scroll_scales_zoom (g : Globals) (xoffset yoffset : float) :
  ((0 <? yoffset) = true ->
     zoom (scrollCallback g xoffset yoffset) = zoom g * 1.1) /\
  ((yoffset <? 0) = true ->
     zoom (scrollCallback g xoffset yoffset) = zoom g / 1.1) /\
  scrollCallback g xoffset yoffset
  = set_zoom g (zoom (scrollCallback g xoffset yoffset)).
Proof.
  unfold scrollCallback. split; [|split].
  - intros ->. reflexivity.
  - intros H. rewrite (ltb_zero_neg _ H), H. reflexivity.
  - destruct (0 <? yoffset); [reflexivity|].
    destruct (yoffset <? 0); [reflexivity|]. symmetry. apply set_zoom_same.
Qed.

Lemma scroll_scales_zoom_witness :
  zoom (scrollCallback initial 0 1) = 200 * 1.1 /\
  zoom (scrollCallback initial 0 (-1)) = 200 / 1.1.
Proof.
  split.
  - apply (proj1 (scroll_scales_zoom initial 0 1)). reflexivity.
  - apply (proj1 (proj2 (scroll_scales_zoom initial 0 (-1)))). reflexivity.
Defined.

(** Nothing bounds the zoom: it overflows to infinity after enough scrolls
    forward, and gets stuck at a subnormal after enough scrolls backward. *)
Lemma zoom_reaches_infinity :
  zoom (run initial (repeat (Scroll 0 1) 7400)) = infinity.
Proof. vm_compute. reflexivity. Qed.

Lemma zoom_reaches_subnormal :
  Prim2SF (zoom (run initial (repeat (Scroll 0 (-1)) 7900)))
  = S754_finite false 5 (-1074).
Proof. vm_compute. reflexivity. Qed.

(** C10: a scroll whose vertical value is zero changes nothing; the
    handler only acts on a value above or below zero. *)
Theorem scroll_zero_is_noop (g : Globals) (xoffset yoffset : float) :
  (yoffset =? 0) = true ->
  scrollCallback g xoffset yoffset = g /\
  (forall y, (0 <? y) = false -> (y <? 0) = false -> scrollCallback g xoffset y = g).
Proof.
  intros H. destruct (eqb_zero_not_ltb _ H) as [H1 H2]. unfold scrollCallback. split.
  - rewrite H1, H2. reflexivity.
  - intros y -> ->. reflexivity.
Qed.

Lemma scroll_zero_is_noop_witness :
  scrollCallback initial 3 0 = initial /\ scrollCallback initial 3 (-0) = initial.
Proof.
  split.
  - exact (proj1 (scroll_zero_is_noop initial 3 0 eq_refl)).
  - exact (proj1 (scroll_zero_is_noop initial 3 (-0) eq_refl)).
Defined.

(** C8: with no drag in progress, a button release (of any button) and a
    cursor move leave every global as it is. *)
Theorem inactive_release_and_move_are_noops (g : Globals) :
  isDragging g = false ->
  (forall cursor button mods, mouseButtonCallback g cursor button GLFW_RELEASE mods = g) /\
  (forall xpos ypos, cursorPositionCallback g xpos ypos = g).
Proof.
  intros H. split.
  - intros cursor button mods. unfold mouseButtonCallback.
    destruct (button =? GLFW_MOUSE_BUTTON_LEFT)%Z; [|reflexivity].
    change (GLFW_RELEASE =? GLFW_PRESS)%Z with false.
    change (GLFW_RELEASE =? GLFW_RELEASE)%Z with true.
    destruct g; simpl in *. subst. reflexivity.
  - intros xpos ypos. unfold cursorPositionCallback. rewrite H. reflexivity.
Qed.

Lemma inactive_release_and_move_are_noops_witness :
  mouseButtonCallback initial (10, 20) GLFW_MOUSE_BUTTON_LEFT GLFW_RELEASE 0 = initial /\
  cursorPositionCallback initial 10 20 = initial.
Proof.
  split.
  - exact (proj1 (inactive_release_and_move_are_noops initial eq_refl) _ _ _).
  - exact (proj2 (inactive_release_and_move_are_noops initial eq_refl) _ _).
Defined.

Lemma handle_keeps_zoom_positive g ev :
  (0 <? zoom g) = true -> (0 <? zoom (handle g ev)) = true.
Proof.
  intros H. destruct ev as [xo yo|cur b a m|x y]; cbn [handle].
  - unfold scrollCallback.
    destruct (0 <? yo); [apply mul_factor_pos; assumption|].
    destruct (yo <? 0); [apply div_factor_pos; assumption|assumption].
  - unfold mouseButtonCallback.
    destruct (b =? GLFW_MOUSE_BUTTON_LEFT)%Z; [|assumption].
    destruct (a =? GLFW_PRESS)%Z; [assumption|].
    destruct (a =? GLFW_RELEASE)%Z; assumption.
  - unfold cursorPositionCallback. destruct (isDragging g); assumption.
Qed.

Lemma run_keeps_zoom_positive evs : forall g,
  (0 <? zoom g) = true -> (0 <? zoom (run g evs)) = true.
Proof.
  induction evs as [|ev evs IH]; intros g H; [assumption|].
  apply IH, handle_keeps_zoom_positive, H.
Qed.

(** C4: from the initial globals, [zoom] is strictly positive after every
    sequence of scroll, button and cursor events. *)
Theorem zoom_always_positive (evs : list Event) :
  (0 <? zoom (run initial evs)) = true.
Proof. apply run_keeps_zoom_positive. reflexivity. Qed.

(** C3, as stated, fails: after scrolling far out, a drag to the left
    makes [offsetX] infinite, and the next drag to the right (a positive
    [dx], with a positive zoom) makes it NaN, which is not below the
    previous value.  And a positive [dx] need not lower [offsetX] at all:
    from the initial globals a drag by [1e-300] leaves it where it was. *)
Lemma drag_decreases_offset_counterexample :
  (let g := run initial (repeat (Scroll 0 (-1)) 7900
                         ++ [MouseButton (0, 0) GLFW_MOUSE_BUTTON_LEFT GLFW_PRESS 0;
                             CursorPos (-1) 0]) in
   isDragging g = true /\ (0 <? zoom g) = true /\
   (0 <? 0 - lastMouseX g) = true /\
   offsetX g = infinity /\
   (offsetX (cursorPositionCallback g 0 0) <=? offsetX g) = false) /\
  (let g := mouseButtonCallback initial (0, 0) GLFW_MOUSE_BUTTON_LEFT GLFW_PRESS 0 in
   isDragging g = true /\ (0 <? zoom g) = true /\
   (0 <? 1e-300 - lastMouseX g) = true /\
   (offsetX (cursorPositionCallback g 1e-300 0) <? offsetX g) = false).
Proof. vm_compute. repeat split. Qed.

(** C3, amended: while dragging, a cursor move stores the new cursor
    position and sets [offsetX] to [offsetX - dx / zoom] and [offsetY] to
    [offsetY + dy / zoom], the rest unchanged; and with a positive zoom, a
    positive [dx] does not increase [offsetX] and a positive [dy] does not
    decrease [offsetY], whenever the new offset is a number (not NaN). *)
Theorem drag_moves_offset (g : Globals) (xpos ypos : float) :
  isDragging g = true ->
  let dx := xpos - lastMouseX g in
  let dy := ypos - lastMouseY g in
  let g' := cursorPositionCallback g xpos ypos in
  lastMouseX g' = xpos /\ lastMouseY g' = ypos /\
  offsetX g' = offsetX g - dx / zoom g /\
  offsetY g' = offsetY g + dy / zoom g /\
  zoom g' = zoom g /\ isDragging g' = true /\ maxIterations g' = maxIterations g /\
  ((0 <? zoom g) = true -> (0 <? dx) = true -> is_nan (offsetX g') = false ->
     (offsetX g' <=? offsetX g) = true) /\
  ((0 <? zoom g) = true -> (0 <? dy) = true -> is_nan (offsetY g') = false ->
     (offsetY g <=? offsetY g') = true).
Proof.
  intros Hd dx dy g'. unfold g', cursorPositionCallback. rewrite Hd. cbn.
  fold dx dy. repeat split; try assumption.
  - intros Hz Hx Hn. apply sub_nonneg_le; [|assumption].
    apply div_pos_nonneg; try assumption. apply (sub_nan_l _ _ Hn).
  - intros Hz Hy Hn. apply add_nonneg_ge; [|assumption].
    apply div_pos_nonneg; try assumption. apply (add_nan_l _ _ Hn).
Qed.

Lemma drag_moves_offset_witness :
  let g := cursorPositionCallback
             (mouseButtonCallback initial (100, 100) GLFW_MOUSE_BUTTON_LEFT GLFW_PRESS 0)
             110 130 in
  offsetX g = -0.5 - (110 - 100) / 200 /\ offsetY g = 0 + (130 - 100) / 200 /\
  (offsetX g <=? -0.5) = true /\ (0 <=? offsetY g) = true.
Proof.
  pose (g0 := mouseButtonCallback initial (100, 100) GLFW_MOUSE_BUTTON_LEFT GLFW_PRESS 0).
  destruct (drag_moves_offset g0 110 130 eq_refl)
    as (_ & _ & Hx & Hy & _ & _ & _ & Mx & My).
  intro g. split; [exact Hx|]. split; [exact Hy|].
  split; [apply Mx; reflexivity | apply My; reflexivity].
Defined.

End ControllerFacts.

(** ** The fragment shader: the loop *)

Module ShaderLoop.

Import Shader.
Local Open Scope Z_scope.

Lemma wrap32_small n : - 2 ^ 31 <= n <= INT_MAX -> wrap32 n = n.
Proof.
  unfold wrap32, INT_MAX. intros H.
  rewrite Z.mod_small by lia. lia.
Qed.

Lemma loop_guard_true maxIter z i :
  loop_guard maxIter z i = true <-> inside z = true /\ i < maxIter.
Proof.
  unfold loop_guard, inside. rewrite andb_true_iff, Z.ltb_lt. reflexivity.
Qed.

(** The loop from the [n]-th point of the orbit: it runs to some [m]-th
    point, every point passed is inside and below the budget, the counter
    never wraps, and the guard is false at the exit (the fuel is enough). *)
Lemma while_loop_orbit c maxIter : maxIter <= INT_MAX ->
  forall fuel n, (Z.to_nat maxIter - n <= fuel)%nat ->
  exists m, (n <= m)%nat /\
    while_loop fuel c maxIter (orbit c n) (Z.of_nat n) = (orbit c m, Z.of_nat m) /\
    (forall k, (n <= k < m)%nat -> inside (orbit c k) = true /\ Z.of_nat k < maxIter) /\
    loop_guard maxIter (orbit c m) (Z.of_nat m) = false.
Proof.
  intros Hmax fuel. induction fuel as [|fuel IH]; intros n Hfuel.
  - exists n. cbn [while_loop].
    destruct (loop_guard maxIter (orbit c n) (Z.of_nat n)) eqn:G.
    + apply loop_guard_true in G. lia.
    + split; [lia|]. split; [reflexivity|]. split; [intros k Hk; lia|first [assumption|reflexivity]].
  - cbn [while_loop].
    destruct (loop_guard maxIter (orbit c n) (Z.of_nat n)) eqn:G.
    + pose proof G as G'. apply loop_guard_true in G'. destruct G' as [Hin Hlt].
      rewrite wrap32_small by (unfold INT_MAX in *; lia).
      replace (Z.of_nat n + 1) with (Z.of_nat (S n)) by lia.
      change (loop_body c (orbit c n)) with (orbit c (S n)).
      destruct (IH (S n) ltac:(lia)) as (m & Hm & Hrun & Hpass & Hexit).
      exists m. split; [lia|]. split; [assumption|]. split; [|assumption].
      intros k Hk. destruct (Nat.eq_dec k n) as [->|Hne]; [split; assumption|].
      apply Hpass. lia.
    + exists n. split; [lia|]. split; [reflexivity|]. split; [intros k Hk; lia|first [assumption|reflexivity]].
Qed.

Lemma escape_orbit c maxIter : maxIter <= INT_MAX ->
  exists m,
    escape c maxIter = (orbit c m, Z.of_nat m) /\
    (forall k, (k < m)%nat -> inside (orbit c k) = true /\ Z.of_nat k < maxIter) /\
    loop_guard maxIter (orbit c m) (Z.of_nat m) = false.
Proof.
  intros Hmax.
  destruct (while_loop_orbit c maxIter Hmax (Z.to_nat maxIter) 0 ltac:(lia))
    as (m & _ & Hrun & Hpass & Hexit).
  exists m. repeat split; try assumption; apply Hpass; lia.
Qed.

(** The recurrence and the test of the description are those of the loop. *)
Lemma loop_body_spec c z : loop_body c z = EscapeTimeSpec.spec_next c z.
Proof. reflexivity. Qed.

Lemma orbit_spec c n : orbit c n = EscapeTimeSpec.spec_sequence c n.
Proof.
  induction n as [|n IH]; [reflexivity|].
  cbn [orbit EscapeTimeSpec.spec_sequence]. rewrite IH. apply loop_body_spec.
Qed.

Lemma inside_spec z : inside z = EscapeTimeSpec.spec_below_four z.
Proof. reflexivity. Qed.

(** C1: the loop of the shader computes the escape-time iteration of the
    description.  With [z0 = (0,0)] and
    [z(k+1) = (zk.x^2 - zk.y^2 + c.x, 2*zk.x*zk.y + c.y)], the loop ends
    after [n] passes with [z = zn] and [iteration = n], where [n] is an
    integer of [0, maxIterations], [|zk|^2 < 4] holds for every [k < n],
    [|zn|^2 < 4] fails when [n < maxIterations], and [n = maxIterations]
    when no point of the sequence escapes. *)
Theorem iterations_count_passes (u : Uniforms) (fragCoord : vec2) :
  0 <= u_maxIterations u <= INT_MAX ->
  let c := fragment_to_complex u fragCoord in
  exists n : nat,
    iterations u fragCoord = Z.of_nat n /\
    escape c (u_maxIterations u) = (EscapeTimeSpec.spec_sequence c n, Z.of_nat n) /\
    0 <= Z.of_nat n <= u_maxIterations u /\
    (forall k, (k < n)%nat ->
       EscapeTimeSpec.spec_below_four (EscapeTimeSpec.spec_sequence c k) = true) /\
    (Z.of_nat n < u_maxIterations u ->
       EscapeTimeSpec.spec_below_four (EscapeTimeSpec.spec_sequence c n) = false) /\
    ((forall k, Z.of_nat k < u_maxIterations u ->
        EscapeTimeSpec.spec_below_four (EscapeTimeSpec.spec_sequence c k) = true) ->
       Z.of_nat n = u_maxIterations u).
Proof.
  intros [Hpos Hmax] c.
  destruct (escape_orbit c (u_maxIterations u) Hmax) as (n & Hrun & Hpass & Hexit).
  assert (Hle : Z.of_nat n <= u_maxIterations u).
  { destruct n as [|n]; [lia|]. destruct (Hpass n ltac:(lia)) as [_ H]. lia. }
  assert (Hstop : Z.of_nat n < u_maxIterations u -> inside (orbit c n) = false).
  { intros Hlt. unfold loop_guard in Hexit. fold (inside (orbit c n)) in Hexit.
    apply andb_false_iff in Hexit. destruct Hexit as [H|H]; [assumption|].
    apply Z.ltb_ge in H. lia. }
  exists n. unfold iterations. fold c. rewrite Hrun. cbn [snd].
  rewrite orbit_spec.
  split; [reflexivity|]. split; [reflexivity|]. split; [lia|].
  split; [|split].
  - intros k Hk. rewrite <- orbit_spec, <- inside_spec. apply Hpass. assumption.
  - intros Hlt. rewrite <- orbit_spec, <- inside_spec. apply Hstop. assumption.
  - intros Hall. destruct (Z.eq_dec (Z.of_nat n) (u_maxIterations u)) as [|Hne];
      [assumption|exfalso].
    assert (Hlt : Z.of_nat n < u_maxIterations u) by lia.
    specialize (Hall n Hlt). rewrite <- orbit_spec, <- inside_spec in Hall.
    rewrite Hall in Hstop. specialize (Hstop Hlt). discriminate.
Qed.

Lemma iterations_count_passes_witness :
  let u := uniforms_of Controller.initial in
  let fragCoord := mkvec2 (int_to_float 400) (int_to_float 400) in
  let c := fragment_to_complex u fragCoord in
  exists n : nat,
    iterations u fragCoord = Z.of_nat n /\
    escape c (u_maxIterations u) = (EscapeTimeSpec.spec_sequence c n, Z.of_nat n) /\
    0 <= Z.of_nat n <= u_maxIterations u /\
    (forall k, (k < n)%nat ->
       EscapeTimeSpec.spec_below_four (EscapeTimeSpec.spec_sequence c k) = true) /\
    (Z.of_nat n < u_maxIterations u ->
       EscapeTimeSpec.spec_below_four (EscapeTimeSpec.spec_sequence c n) = false) /\
    ((forall k, Z.of_nat k < u_maxIterations u ->
        EscapeTimeSpec.spec_below_four (EscapeTimeSpec.spec_sequence c k) = true) ->
       Z.of_nat n = u_maxIterations u).
Proof.
  apply (iterations_count_passes (uniforms_of Controller.initial)
           (mkvec2 (int_to_float 400) (int_to_float 400))).
  cbn [uniforms_of u_maxIterations]. unfold INT_MAX. vm_compute. split; discriminate.
Defined.

(** One transition at most leaves a configuration. *)
Lemma step_deterministic c maxIter k k1 k2 :
  step c maxIter k k1 -> step c maxIter k k2 -> k1 = k2.
Proof.
  intros H1 H2. inversion H1; subst; inversion H2; subst; try reflexivity; congruence.
Qed.

Lemma steps_finished_unique c maxIter k : forall col1 col2,
  steps c maxIter k (Finished col1) -> steps c maxIter k (Finished col2) -> col1 = col2.
Proof.
  intros col1 col2 H1. remember (Finished col1) as k' eqn:Ek. revert col2.
  induction H1 as [k0|k1 k2 k3 Hs Hss IH]; intros col2 H2; subst.
  - inversion H2; subst; [reflexivity|]. inversion H.
  - inversion H2; subst; [inversion Hs|].
    rewrite (step_deterministic _ _ _ _ _ Hs H) in IH. apply IH; [reflexivity|assumption].
Qed.

(** The loop of the model, read as a run of the transition system. *)
Lemma while_loop_steps c maxIter fuel : forall z i,
  loop_guard maxIter (fst (while_loop fuel c maxIter z i))
                     (snd (while_loop fuel c maxIter z i)) = false ->
  steps c maxIter (Looping z i)
        (Finished (color_of (snd (while_loop fuel c maxIter z i)) maxIter)).
Proof.
  induction fuel as [|fuel IH]; intros z i; cbn [while_loop];
    destruct (loop_guard maxIter z i) eqn:G; cbn [fst snd]; intros Hexit.
  - congruence.
  - eapply steps_cons; [apply step_exit; assumption|apply steps_refl].
  - eapply steps_cons; [apply step_pass; assumption|]. apply IH. assumption.
  - eapply steps_cons; [apply step_exit; assumption|apply steps_refl].
Qed.

(** The run of an invocation exists and ends with the value of [main]. *)
Lemma main_produces (u : Uniforms) (fragCoord : vec2) :
  u_maxIterations u <= INT_MAX -> produces u fragCoord (main u fragCoord).
Proof.
  intros Hmax. unfold produces, main, iterations, escape.
  apply while_loop_steps.
  destruct (escape_orbit (fragment_to_complex u fragCoord) (u_maxIterations u) Hmax)
    as (m & Hrun & _ & Hexit).
  unfold escape in Hrun. rewrite Hrun. exact Hexit.
Qed.

End ShaderLoop.

(** ** The fragment shader: colour and coordinates *)

Module ShaderFacts.

Import Shader ShaderLoop.
Local Open Scope Z_scope.

Lemma prec32_gt_1 : 1 < prec32.
Proof. reflexivity. Qed.

Lemma prec32_lt_emax32 : prec32 < emax32.
Proof. reflexivity. Qed.

Lemma emin32 : SpecFloat.emin prec32 emax32 = -149.
Proof. reflexivity. Qed.

Lemma f1_0_is_one : f1_0 = float_one prec32.
Proof. reflexivity. Qed.

(** [float(n)] of a non-negative [int]: a finite float, the value of [n]
    rounded. *)
Lemma int_to_float_sem n : 0 <= n <= INT_MAX ->
  SpecFloat.valid_binary prec32 emax32 (int_to_float n) = true /\
  is_finite_sf (int_to_float n) = true /\
  ulps prec32 emax32 (int_to_float n) = rnd_ulps prec32 emax32 (-149) (n * 2 ^ 149).
Proof.
  intros Hn. unfold int_to_float.
  destruct (binary_normalize_sem prec32 emax32 prec32_gt_1 prec32_lt_emax32 n 0 false (-149))
    as (Hv & Hnan & Hu); [rewrite emin32; lia | lia |].
  change (0 - -149) with 149 in Hu.
  assert (Hs : rnd_signed prec32 emax32 (-149) (n * 2 ^ 149)
               = rnd_ulps prec32 emax32 (-149) (n * 2 ^ 149)).
  { unfold rnd_signed. destruct (Z.ltb_spec (n * 2 ^ 149) 0); [lia|reflexivity]. }
  rewrite Hs in Hu. split; [assumption|]. split; [|assumption].
  apply (finite_of_ulps prec32 emax32 prec32_gt_1 prec32_lt_emax32); [assumption|]. rewrite Hu.
  pose proof (rnd_ulps_nonneg prec32 emax32 prec32_gt_1 prec32_lt_emax32 (-149) (n * 2 ^ 149)
                ltac:(rewrite emin32; lia) ltac:(lia)) as H0.
  pose proof (rnd_ulps_mono prec32 emax32 prec32_gt_1 prec32_lt_emax32 (-149)
                (n * 2 ^ 149) (INT_MAX * 2 ^ 149) ltac:(rewrite emin32; lia)
                ltac:(unfold INT_MAX in *; lia)) as H1.
  assert (H2 : rnd_ulps prec32 emax32 (-149) (INT_MAX * 2 ^ 149) < overflow_ulps prec32 emax32)
    by (vm_compute; reflexivity).
  assert (H3 : 0 < overflow_ulps prec32 emax32) by (vm_compute; reflexivity).
  lia.
Qed.

Lemma int_to_float_mono i n : 0 <= i <= n -> n <= INT_MAX ->
  ulps prec32 emax32 (int_to_float i) <= ulps prec32 emax32 (int_to_float n).
Proof.
  intros Hi Hn.
  destruct (int_to_float_sem i ltac:(lia)) as (_ & _ & ->).
  destruct (int_to_float_sem n ltac:(lia)) as (_ & _ & ->).
  apply (rnd_ulps_mono prec32 emax32 prec32_gt_1 prec32_lt_emax32);
    [rewrite emin32; lia | lia].
Qed.

Lemma int_to_float_pos n : 0 < n <= INT_MAX -> 0 < ulps prec32 emax32 (int_to_float n).
Proof.
  intros Hn. destruct (int_to_float_sem n ltac:(lia)) as (_ & _ & ->).
  pose proof (rnd_ulps_mono prec32 emax32 prec32_gt_1 prec32_lt_emax32 (-149)
                (1 * 2 ^ 149) (n * 2 ^ 149) ltac:(rewrite emin32; lia) ltac:(lia)) as H.
  assert (H1 : 0 < rnd_ulps prec32 emax32 (-149) (1 * 2 ^ 149)) by (vm_compute; reflexivity).
  lia.
Qed.

Lemma int_to_float_nonneg n : 0 <= n <= INT_MAX -> 0 <= ulps prec32 emax32 (int_to_float n).
Proof.
  intros Hn. destruct (int_to_float_sem n Hn) as (_ & _ & ->).
  apply (rnd_ulps_nonneg prec32 emax32 prec32_gt_1 prec32_lt_emax32);
    [rewrite emin32; lia | lia].
Qed.

Lemma iterations_range u fragCoord : 0 < u_maxIterations u <= INT_MAX ->
  0 <= iterations u fragCoord <= u_maxIterations u.
Proof.
  intros [Hpos Hmax].
  destruct (escape_orbit (fragment_to_complex u fragCoord) (u_maxIterations u) Hmax)
    as (n & Hrun & Hpass & _).
  unfold iterations. rewrite Hrun. cbn [snd].
  destruct n as [|n]; [lia|]. destruct (Hpass n ltac:(lia)) as [_ H]. lia.
Qed.

(** C5: the colour is [(t, t*t, t*0.5, 1.0)] with
    [t = float(iteration) / float(maxIterations)], a value between 0 and
    1; and when [iteration == maxIterations] (the pixel never escaped),
    [t] is exactly 1.0 and the colour is [(1, 1, 0.5, 1)]. *)
Theorem color_from_iterations (u : Uniforms) (fragCoord : vec2) :
  0 < u_maxIterations u <= INT_MAX ->
  let n := iterations u fragCoord in
  let t := fdiv (int_to_float n) (int_to_float (u_maxIterations u)) in
  main u fragCoord = mkvec4 t (fmul t t) (fmul t f0_5) f1_0 /\
  SFleb f0_0 t = true /\ SFleb t f1_0 = true /\
  (n = u_maxIterations u ->
     t = f1_0 /\ main u fragCoord = mkvec4 f1_0 f1_0 f0_5 f1_0).
Proof.
  intros Hmax n t. pose proof (iterations_range u fragCoord Hmax) as Hn. fold n in Hn.
  destruct (int_to_float_sem n ltac:(lia)) as (Vn & Fn & _).
  destruct (int_to_float_sem (u_maxIterations u) ltac:(lia)) as (Vm & Fm & _).
  pose proof (int_to_float_mono n (u_maxIterations u) ltac:(lia) ltac:(lia)) as Hle.
  pose proof (int_to_float_nonneg n ltac:(lia)) as H0.
  pose proof (int_to_float_pos (u_maxIterations u) Hmax) as Hp.
  destruct (SFdiv_le_one prec32 emax32 prec32_gt_1 prec32_lt_emax32 _ _ Vn Vm Fn Fm
              (conj H0 Hle) Hp) as (Vt & Nt & Ht0 & Ht1).
  fold fdiv in Vt, Nt, Ht0, Ht1. fold t in Vt, Nt, Ht0, Ht1.
  split; [reflexivity|]. split; [|split].
  - apply (SFleb_ulps prec32 emax32 prec32_gt_1 prec32_lt_emax32); try assumption; reflexivity.
  - rewrite f1_0_is_one.
    apply (SFleb_ulps prec32 emax32 prec32_gt_1 prec32_lt_emax32); try assumption; reflexivity.
  - intros Heq.
    assert (Ht : t = f1_0).
    { unfold t. rewrite Heq.
      destruct (positive_finite_shape prec32 emax32 prec32_gt_1 prec32_lt_emax32 _ Vm Fm Hp)
        as (m & e & ->).
      unfold fdiv. rewrite (SFdiv_self prec32 emax32 prec32_gt_1 prec32_lt_emax32).
      reflexivity. }
    split; [assumption|]. unfold main, color_of. fold n. fold t. rewrite Ht. reflexivity.
Qed.

Lemma color_from_iterations_witness :
  main (uniforms_of Controller.initial) (mkvec2 (int_to_float 400) (int_to_float 400))
  = mkvec4 f1_0 f1_0 f0_5 f1_0.
Proof.
  apply (color_from_iterations (uniforms_of Controller.initial)
           (mkvec2 (int_to_float 400) (int_to_float 400))).
  - unfold INT_MAX. cbn. lia.
  - vm_compute. reflexivity.
Defined.

Lemma same_number_refl x : same_number x x.
Proof. destruct x; simpl; auto. Qed.

Lemma zero_plus_same s x : same_number (fadd (S754_zero s) x) x.
Proof. destruct x as [sx|sx| |sx m e], s; try destruct sx; simpl; auto. Qed.

Lemma zero_over_positive s z :
  is_pos_sf z = true -> exists s', fdiv (S754_zero s) z = S754_zero s'.
Proof.
  destruct z as [sz|[|]| |[|] m e]; try discriminate; intros _; eexists; reflexivity.
Qed.

Lemma half_is_finite w :
  SpecFloat.valid_binary prec32 emax32 w = true -> is_finite_sf w = true ->
  is_finite_sf (fmul w f0_5) = true.
Proof.
  intros Hv Hf.
  apply (SFmul_le_one_finite prec32 emax32 prec32_gt_1 prec32_lt_emax32);
    try assumption; try reflexivity.
  vm_compute. discriminate.
Qed.

(** The centre of the image, [u_resolution * 0.5], goes to [u_offset]
    when the resolution is finite and the zoom positive. *)
Lemma center_component w z off :
  SpecFloat.valid_binary prec32 emax32 w = true -> is_finite_sf w = true ->
  is_pos_sf z = true ->
  same_number (fadd (fdiv (fsub (fmul w f0_5) (fmul w f0_5)) z) off) off.
Proof.
  intros Hv Hf Hz.
  destruct (SFsub_self_zero prec32 emax32 prec32_gt_1 prec32_lt_emax32 (fmul w f0_5)
              (half_is_finite w Hv Hf)) as [s Hs].
  unfold fsub. rewrite Hs.
  destruct (zero_over_positive s z Hz) as [s' ->].
  apply zero_plus_same.
Qed.

(** C7, as stated, fails: 1300 scrolls backward leave a positive
    [zoom] (about 3.1e-52) that the conversion to [float] rounds to zero;
    the shader then divides zero by zero at the centre of the image and
    the centre goes to NaN, not to the offset.  And the offset the centre
    goes to is the single-precision one: after a drag by one pixel,
    [offsetX] is the double [-0.505], the centre goes to the [float]
    nearest to it, which is another number. *)
Lemma center_to_offset_counterexample :
  (let g := Controller.run Controller.initial
              (repeat (Controller.Scroll 0 (-1)) 1300) in
   let u := uniforms_of g in
   PrimFloat.ltb 0 (Controller.zoom g) = true /\
   u_maxIterations u = 1500 /\
   u_offset u = mkvec2 (S754_finite true 8388608 (-24)) (S754_zero false) /\
   u_zoom u = S754_zero false /\
   fragment_to_complex u (vec2_scale (u_resolution u) f0_5) = mkvec2 S754_nan S754_nan) /\
  (let g := Controller.run Controller.initial
              [Controller.MouseButton (0, 0)%float Controller.GLFW_MOUSE_BUTTON_LEFT
                                      Controller.GLFW_PRESS 0;
               Controller.CursorPos 1 0] in
   let u := uniforms_of g in
   Prim2SF (Controller.offsetX g) = S754_finite true 4548635623644201 (-53) /\
   vx (fragment_to_complex u (vec2_scale (u_resolution u) f0_5))
   = S754_finite true 8472494 (-24) /\
   Qeq_bool (float_value (Prim2SF (Controller.offsetX g)))
            (float_value (vx (fragment_to_complex u (vec2_scale (u_resolution u) f0_5))))
   = false).
Proof. vm_compute. repeat split. Qed.

(** C7, amended: for a finite resolution and a positive single-precision
    zoom, the centre of the image [u_resolution * 0.5] is mapped to the
    number [u_offset] (a zero offset may come out with the other sign);
    with the initial globals at 800x800 the centre is (400, 400), it is
    mapped to (-0.5, 0.0), and the loop there runs its 1500 passes. *)
Theorem center_maps_to_offset :
  (forall u : Uniforms,
     SpecFloat.valid_binary prec32 emax32 (vx (u_resolution u)) = true ->
     SpecFloat.valid_binary prec32 emax32 (vy (u_resolution u)) = true ->
     is_finite_sf (vx (u_resolution u)) = true ->
     is_finite_sf (vy (u_resolution u)) = true ->
     is_pos_sf (u_zoom u) = true ->
     let c := fragment_to_complex u (vec2_scale (u_resolution u) f0_5) in
     same_number (vx c) (vx (u_offset u)) /\ same_number (vy c) (vy (u_offset u))) /\
  (let u := uniforms_of Controller.initial in
   let p := mkvec2 (int_to_float 400) (int_to_float 400) in
   vec2_scale (u_resolution u) f0_5 = p /\
   fragment_to_complex u p = mkvec2 (S754_finite true 8388608 (-24)) (S754_zero false) /\
   u_maxIterations u = 1500 /\
   iterations u p = 1500).
Proof.
  split.
  - intros u Vx Vy Fx Fy Hz c. unfold c, fragment_to_complex, vec2_add, vec2_div, vec2_sub,
      vec2_scale. cbn [vx vy]. split; apply center_component; assumption.
  - vm_compute. repeat split.
Qed.

Lemma center_maps_to_offset_witness :
  let u := uniforms_of Controller.initial in
  same_number (vx (fragment_to_complex u (vec2_scale (u_resolution u) f0_5)))
              (vx (u_offset u)).
Proof.
  intro u.
  exact (proj1 (proj1 center_maps_to_offset u eq_refl eq_refl eq_refl eq_refl eq_refl)).
Defined.

(** Rasterisation gives the fragment of the pixel in column 400, row 400
    the coordinate (400.5, 400.5); there too the loop runs its 1500 passes. *)
Lemma pixel_center_fragment :
  let u := uniforms_of Controller.initial in
  let p := mkvec2 (S754_finite false 13123584 (-15)) (S754_finite false 13123584 (-15)) in
  fragment_to_complex u p
  = mkvec2 (S754_finite true 16693330 (-25)) (S754_finite false 10737418 (-32)) /\
  iterations u p = 1500.
Proof. vm_compute. split; reflexivity. Qed.

End ShaderFacts.

(** ** The fragment shader: points far from the origin *)

Module FarPoints.

Import Shader ShaderLoop ShaderFacts.
Local Open Scope Z_scope.


Lemma R_mono X Y : 0 <= X <= Y -> rnd_ulps prec32 emax32 (-298) X <= rnd_ulps prec32 emax32 (-298) Y.
Proof.
  intros H. apply (rnd_ulps_mono prec32 emax32 prec32_gt_1 prec32_lt_emax32);
    [rewrite emin32; lia | assumption].
Qed.

Lemma R_nonneg X : 0 <= X -> 0 <= rnd_ulps prec32 emax32 (-298) X.
Proof.
  intros H. apply (rnd_ulps_nonneg prec32 emax32 prec32_gt_1 prec32_lt_emax32);
    [rewrite emin32; lia | assumption].
Qed.

Lemma R_four X : 2 ^ 300 <= X -> 2 ^ 151 <= rnd_ulps prec32 emax32 (-298) X.
Proof.
  intros H. transitivity (rnd_ulps prec32 emax32 (-298) (2 ^ 300)); [vm_compute; discriminate | apply R_mono; lia].
Qed.

Lemma R_two X : 2 ^ 299 <= X -> 2 ^ 150 <= rnd_ulps prec32 emax32 (-298) X.
Proof.
  intros H. transitivity (rnd_ulps prec32 emax32 (-298) (2 ^ 299)); [vm_compute; discriminate | apply R_mono; lia].
Qed.

(** A square in [[2,4)] is rounded on the grid [2^-22] with an error of
    at most half a step. *)
Lemma R_upper_binade X : 2 ^ 299 <= X < 2 ^ 300 ->
  exists M, rnd_ulps prec32 emax32 (-298) X = M * 2 ^ 127 /\ X - 2 ^ 275 <= M * 2 ^ 276.
Proof.
  intros HX.
  assert (Hd : Zdigits2 X = 300) by (apply Zdigits2_unique; [lia|exact HX]).
  unfold rnd_ulps, overflow_ulps. rewrite Hd.
  change (fexp prec32 emax32 (300 + -298)) with (-22).
  change (-22 - -298) with 276. change (-22 - SpecFloat.emin prec32 emax32) with 127.
  change (emax32 - SpecFloat.emin prec32 emax32) with 277.
  set (M := rne_div X (2 ^ 276)).
  pose proof (rne_div_half X (2 ^ 276) ltac:(lia)) as Hh. fold M in Hh.
  pose proof (rne_div_bounds X (2 ^ 276) ltac:(lia)) as Hb. fold M in Hb.
  assert (X / 2 ^ 276 < 2 ^ 24) by (apply Z.div_lt_upper_bound; lia).
  exists M. split; [apply Z.min_l; lia | lia].
Qed.

(** A smaller square is rounded on a grid [2^j] of units, [j <= 126],
    with an error of at most half a step. *)
Lemma R_lower_binades Y : 0 < Y < 2 ^ 299 ->
  exists M j, 0 <= j <= 126 /\ rnd_ulps prec32 emax32 (-298) Y = M * 2 ^ j /\ 2 * Y - 2 ^ j * 2 ^ 149 <= 2 * (M * 2 ^ j * 2 ^ 149).
Proof.
  intros HY.
  assert (Hd : 1 <= Zdigits2 Y <= 299).
  { pose proof (Zdigits2_pos Y ltac:(lia)).
    pose proof (Zdigits2_lt_pow Y 299 ltac:(lia) ltac:(lia)). lia. }
  unfold rnd_ulps, overflow_ulps.
  change (emax32 - SpecFloat.emin prec32 emax32) with 277.
  set (f := fexp prec32 emax32 (Zdigits2 Y + -298)).
  assert (Hf : -149 <= f <= -23) by (unfold f, fexp, prec32, emax32, SpecFloat.emin; lia).
  replace (f - SpecFloat.emin prec32 emax32) with (f + 149) by (rewrite emin32; lia).
  replace (f - -298) with ((f + 149) + 149) by lia.
  set (j := f + 149) in *. assert (Hj : 0 <= j <= 126) by lia.
  rewrite pow2_split by lia.
  assert (Pj : 0 < 2 ^ j) by (apply pow2_pos; lia).
  assert (Pj' : 2 ^ j <= 2 ^ 126) by (apply pow2_le; lia).
  set (D := 2 ^ j * 2 ^ 149) in *.
  set (M := rne_div Y D).
  pose proof (rne_div_half Y D ltac:(unfold D; lia)) as Hh. fold M in Hh.
  pose proof (shifted_mantissa_bound prec32 emax32 prec32_gt_1 prec32_lt_emax32 Y (-298) ltac:(lia)) as Hs.
  fold f in Hs. cbv zeta in Hs.
  replace (f - -298) with (j + 149) in Hs by lia.
  rewrite pow2_split in Hs by lia. fold D in Hs. specialize (Hs ltac:(lia)).
  pose proof (rne_div_bounds Y D ltac:(unfold D; lia)) as Hb. fold M in Hb.
  assert (HM : 0 <= M <= 2 ^ 24).
  { assert (0 <= Y / D) by (apply Z.div_pos; unfold D; lia).
    change (2 ^ prec32) with (2 ^ 24) in Hs. lia. }
  exists M, j. split; [assumption|]. split.
  - apply Z.min_l.
    assert (M * 2 ^ j <= 2 ^ 24 * 2 ^ 126) by (apply Z.mul_le_mono_nonneg; lia). lia.
  - unfold D in Hh. lia.
Qed.

Lemma R_mixed X Y : 2 ^ 299 <= X < 2 ^ 300 -> 0 < Y < 2 ^ 299 -> 2 ^ 300 <= X + Y ->
  2 ^ 151 - 2 ^ 126 <= rnd_ulps prec32 emax32 (-298) X + rnd_ulps prec32 emax32 (-298) Y.
Proof.
  intros HX HY Hsum.
  destruct (R_upper_binade X HX) as (Ma & -> & Ha).
  destruct (R_lower_binades Y HY) as (Mb & j & Hj & -> & Hb).
  set (P := 2 ^ j) in *. set (Q := 2 ^ (126 - j)).
  assert (PP : 0 < P) by (apply pow2_pos; lia).
  assert (PQ : 0 < Q) by (apply pow2_pos; lia).
  assert (HPQ : P * Q = 2 ^ 126) by (unfold P, Q; rewrite <- pow2_split by lia; f_equal; lia).
  set (k := 2 * Ma * Q + Mb).
  assert (Hk : Ma * 2 ^ 127 + Mb * P = P * k).
  { unfold k. replace (2 ^ 127) with (2 * 2 ^ 126) by reflexivity. rewrite <- HPQ. ring. }
  rewrite Hk.
  assert (Htarget : 2 ^ 151 - 2 ^ 126 = P * ((2 ^ 25 - 1) * Q)).
  { replace (2 ^ 151 - 2 ^ 126) with ((2 ^ 25 - 1) * 2 ^ 126) by reflexivity.
    rewrite <- HPQ. ring. }
  rewrite Htarget. apply Z.mul_le_mono_nonneg_l; [lia|].
  (* twice the sum, in units of 2^149 *)
  assert (H2 : 2 * (P * k) * 2 ^ 149 >= 2 * 2 ^ 300 - 2 ^ 276 - P * 2 ^ 149).
  { rewrite <- Hk. lia. }
  assert (H3 : 2 * (P * k) >= 2 * (P * ((2 ^ 25 - 1) * Q)) - P).
  { rewrite <- Htarget.
    assert (2 * (P * k) * 2 ^ 149 >= (2 * (2 ^ 151 - 2 ^ 126) - P) * 2 ^ 149) by lia.
    apply Z.le_ge. apply (Z.mul_le_mono_pos_r _ _ (2 ^ 149)); [reflexivity|lia]. }
  destruct (Z_le_gt_dec ((2 ^ 25 - 1) * Q) k) as [|Hgt]; [assumption|exfalso].
  assert (k + 1 <= (2 ^ 25 - 1) * Q) by lia.
  assert (P * (k + 1) <= P * ((2 ^ 25 - 1) * Q)) by (apply Z.mul_le_mono_nonneg_l; lia).
  lia.
Qed.

(** The heart of C6: the rounded squares of two numbers whose exact
    squares add up to at least four add up, exactly, to at least
    [4 - 2^-23], which the final rounding takes to four. *)
Lemma R_sum_squares X Y : 0 <= X -> 0 <= Y -> 2 ^ 300 <= X + Y ->
  2 ^ 151 - 2 ^ 126 <= rnd_ulps prec32 emax32 (-298) X + rnd_ulps prec32 emax32 (-298) Y.
Proof.
  intros HX HY Hsum.
  pose proof (R_nonneg X HX). pose proof (R_nonneg Y HY).
  destruct (Z_le_gt_dec (2 ^ 300) X) as [|HX4]; [pose proof (R_four X ltac:(lia)); lia|].
  destruct (Z_le_gt_dec (2 ^ 300) Y) as [|HY4]; [pose proof (R_four Y ltac:(lia)); lia|].
  destruct (Z_le_gt_dec (2 ^ 299) X) as [HX2|HX2];
    destruct (Z_le_gt_dec (2 ^ 299) Y) as [HY2|HY2].
  - pose proof (R_two X HX2). pose proof (R_two Y HY2). lia.
  - apply R_mixed; lia.
  - rewrite Z.add_comm. apply R_mixed; lia.
  - lia.
Qed.


Lemma zero_plus_sem x :
  SpecFloat.valid_binary prec32 emax32 x = true -> is_finite_sf x = true ->
  SpecFloat.valid_binary prec32 emax32 (fadd f0_0 x) = true /\
  is_finite_sf (fadd f0_0 x) = true /\
  ulps prec32 emax32 (fadd f0_0 x) = ulps prec32 emax32 x.
Proof.
  destruct x as [[|]| | |s m e]; try discriminate; intros Hv _; repeat split; assumption.
Qed.

Lemma first_pass c :
  orbit c 1 = mkvec2 (fadd f0_0 (vx c)) (fadd f0_0 (vy c)).
Proof. reflexivity. Qed.

(** The square of a finite float, as the shader computes it. *)
Lemma square_sem x :
  SpecFloat.valid_binary prec32 emax32 x = true -> is_finite_sf x = true ->
  SpecFloat.valid_binary prec32 emax32 (fmul x x) = true /\
  is_nonneg_sf (fmul x x) = true /\
  ulps prec32 emax32 (fmul x x)
  = rnd_ulps prec32 emax32 (-298) (ulps prec32 emax32 x * ulps prec32 emax32 x).
Proof.
  intros Hv Hf.
  destruct (SFmul_sem prec32 emax32 prec32_gt_1 prec32_lt_emax32 x x Hv Hv Hf Hf)
    as (Hv' & Hn & Hu).
  fold fmul in Hv', Hn, Hu. change (2 * SpecFloat.emin prec32 emax32) with (-298) in Hu.
  assert (Hsq : 0 <= ulps prec32 emax32 x * ulps prec32 emax32 x) by nia.
  assert (Hs : rnd_signed prec32 emax32 (-298) (ulps prec32 emax32 x * ulps prec32 emax32 x)
               = rnd_ulps prec32 emax32 (-298) (ulps prec32 emax32 x * ulps prec32 emax32 x)).
  { unfold rnd_signed. destruct (Z.ltb_spec (ulps prec32 emax32 x * ulps prec32 emax32 x) 0);
      [lia|reflexivity]. }
  rewrite Hs in Hu. split; [assumption|]. split; [|assumption].
  apply (nonneg_of_ulps prec32 emax32 prec32_gt_1 prec32_lt_emax32); try assumption.
  rewrite Hu. apply R_nonneg. assumption.
Qed.

(** The bailout test fails on every finite [z] with [|z|^2 >= 4]. *)
Lemma outside_of_norm z :
  SpecFloat.valid_binary prec32 emax32 (vx z) = true ->
  SpecFloat.valid_binary prec32 emax32 (vy z) = true ->
  is_finite_sf (vx z) = true -> is_finite_sf (vy z) = true ->
  2 ^ 300 <= ulps prec32 emax32 (vx z) * ulps prec32 emax32 (vx z)
             + ulps prec32 emax32 (vy z) * ulps prec32 emax32 (vy z) ->
  inside z = false.
Proof.
  intros Vx Vy Fx Fy Hnorm.
  destruct (square_sem (vx z) Vx Fx) as (VA & NA & UA).
  destruct (square_sem (vy z) Vy Fy) as (VB & NB & UB).
  unfold inside, dot, flt.
  set (A := fmul (vx z) (vx z)) in *. set (B := fmul (vy z) (vy z)) in *.
  destruct (is_finite_sf A) eqn:FA; [destruct (is_finite_sf B) eqn:FB|].
  - destruct (SFadd_sem prec32 emax32 prec32_gt_1 prec32_lt_emax32 A B VA VB FA FB)
      as (VD & ND & UD).
    fold fadd in VD, ND, UD.
    rewrite (SFltb_ulps prec32 emax32 prec32_gt_1 prec32_lt_emax32 (fadd A B) f4_0 VD eq_refl ND eq_refl).
    apply Z.ltb_ge. rewrite UD, UA, UB.
    set (X := ulps prec32 emax32 (vx z) * ulps prec32 emax32 (vx z)) in *.
    set (Y := ulps prec32 emax32 (vy z) * ulps prec32 emax32 (vy z)) in *.
    assert (HX : 0 <= X) by (unfold X; nia). assert (HY : 0 <= Y) by (unfold Y; nia).
    pose proof (R_sum_squares X Y HX HY Hnorm) as Hsum.
    change (SpecFloat.emin prec32 emax32) with (-149).
    unfold rnd_signed.
    destruct (Z.ltb_spec (rnd_ulps prec32 emax32 (-298) X + rnd_ulps prec32 emax32 (-298) Y) 0) as [Hneg|_].
    { pose proof (R_nonneg X HX). pose proof (R_nonneg Y HY). lia. }
    transitivity (rnd_ulps prec32 emax32 (-149) (2 ^ 151 - 2 ^ 126)); [vm_compute; discriminate|].
    apply (rnd_ulps_mono prec32 emax32 prec32_gt_1 prec32_lt_emax32);
      [rewrite emin32; lia | lia].
  - destruct B as [sb|[|]| |sb mb eb]; try discriminate.
    destruct A as [sa|[|]| |[|] ma ea]; try discriminate; reflexivity.
  - destruct A as [sa|[|]| |sa ma ea]; try discriminate.
    destruct B as [sb|[|]| |[|] mb eb]; try discriminate; reflexivity.
Qed.


(** The exact value of a float of the format is its count of units of
    [2^-149]. *)
Lemma float_value_ulps x :
  SpecFloat.valid_binary prec32 emax32 x = true -> is_finite_sf x = true ->
  (inject_Z (ulps prec32 emax32 x) == float_value x * inject_Z (2 ^ 149))%Q.
Proof.
  destruct x as [s| | |s m e]; try discriminate; intros Hv _; cbn [ulps float_value].
  - rewrite Qmult_0_l. reflexivity.
  - pose proof (valid_finite_emin prec32 emax32 prec32_gt_1 prec32_lt_emax32 _ _ _ Hv) as He.
    rewrite emin32 in He. unfold mag. rewrite emin32.
    replace (e - -149) with (e + 149) by lia.
    replace (cond_Zopp s (Zpos m * 2 ^ (e + 149)))
      with (cond_Zopp s (Zpos m) * 2 ^ (e + 149)) by (destruct s; cbn [cond_Zopp]; lia).
    rewrite inject_Z_mult, !Zpower_Qpower by lia.
    rewrite Qpower_plus by discriminate.
    rewrite Qmult_assoc. reflexivity.
Qed.

Lemma norm2_ulps c :
  SpecFloat.valid_binary prec32 emax32 (vx c) = true ->
  SpecFloat.valid_binary prec32 emax32 (vy c) = true ->
  is_finite_sf (vx c) = true -> is_finite_sf (vy c) = true ->
  (4 <= norm2 c)%Q ->
  2 ^ 300 <= ulps prec32 emax32 (vx c) * ulps prec32 emax32 (vx c)
             + ulps prec32 emax32 (vy c) * ulps prec32 emax32 (vy c).
Proof.
  intros Vx Vy Fx Fy H. rewrite Zle_Qle.
  rewrite inject_Z_plus, !inject_Z_mult.
  rewrite !(float_value_ulps _ Vx Fx), !(float_value_ulps _ Vy Fy).
  unfold norm2 in H.
  set (a := float_value (vx c)) in *. set (b := float_value (vy c)) in *.
  set (K := inject_Z (2 ^ 149)).
  assert (HK : (0 <= K * K)%Q) by (vm_compute; discriminate).
  assert (E1 : (a * K * (a * K) + b * K * (b * K) == (a * a + b * b) * (K * K))%Q) by ring.
  assert (E2 : (inject_Z (2 ^ 300) == 4 * (K * K))%Q) by (vm_compute; reflexivity).
  rewrite E1, E2. apply Qmult_le_compat_r; assumption.
Qed.

(** C6: a finite point [c] with [|c| >= 2] escapes at the first pass:
    the loop makes one pass, which sets [z] to [c], and stops there
    because the bailout test fails; [iteration] is 1. *)
Theorem far_point_escapes_at_first_pass (c : vec2) (maxIter : Z) :
  SpecFloat.valid_binary prec32 emax32 (vx c) = true ->
  SpecFloat.valid_binary prec32 emax32 (vy c) = true ->
  is_finite_sf (vx c) = true -> is_finite_sf (vy c) = true ->
  (4 <= norm2 c)%Q ->
  1 <= maxIter <= INT_MAX ->
  escape c maxIter = (orbit c 1, 1) /\
  same_number (vx (orbit c 1)) (vx c) /\ same_number (vy (orbit c 1)) (vy c) /\
  inside (orbit c 1) = false.
Proof.
  intros Vx Vy Fx Fy Hnorm [Hmin Hmax].
  pose proof (norm2_ulps c Vx Vy Fx Fy Hnorm) as Hu.
  destruct (zero_plus_sem (vx c) Vx Fx) as (Vx1 & Fx1 & Ux1).
  destruct (zero_plus_sem (vy c) Vy Fy) as (Vy1 & Fy1 & Uy1).
  assert (Hout : inside (orbit c 1) = false).
  { rewrite first_pass. apply outside_of_norm; cbn [vx vy]; try assumption.
    rewrite Ux1, Uy1. assumption. }
  split; [|split; [|split]].
  - destruct (escape_orbit c maxIter Hmax) as (m & Hrun & Hpass & Hexit).
    assert (Hm : m = 1%nat).
    { destruct m as [|[|m]]; [exfalso|reflexivity|exfalso].
      - apply andb_false_iff in Hexit. destruct Hexit as [H|H]; [discriminate H|].
        apply Z.ltb_ge in H. cbn in H. lia.
      - destruct (Hpass 1%nat ltac:(lia)) as [H _]. congruence. }
    subst m. exact Hrun.
  - rewrite first_pass. cbn [vx]. apply zero_plus_same.
  - rewrite first_pass. cbn [vy]. apply zero_plus_same.
  - exact Hout.
Qed.

Lemma far_point_escapes_at_first_pass_witness :
  escape (mkvec2 (int_to_float 3) f0_0) 1500
  = (orbit (mkvec2 (int_to_float 3) f0_0) 1, 1).
Proof.
  apply (far_point_escapes_at_first_pass (mkvec2 (int_to_float 3) f0_0) 1500);
    try reflexivity.
  - vm_compute. discriminate.
  - unfold INT_MAX. lia.
Defined.

End FarPoints.

(** ** The view-state controller: invariants and edge behaviour *)

Module ControllerInvariants.

Import Controller Binary64 Notions.
Local Open Scope float_scope.

(** ** Invariants of the event handlers *)

Lemma handle_keeps_maxIterations g ev : maxIterations (handle g ev) = maxIterations g.
Proof.
  destruct ev as [xo yo|cur b a m|x y]; cbn [handle].
  - unfold scrollCallback. destruct (0 <? yo); [reflexivity|]. destruct (yo <? 0); reflexivity.
  - unfold mouseButtonCallback. destruct (b =? GLFW_MOUSE_BUTTON_LEFT)%Z; [|reflexivity].
    destruct (a =? GLFW_PRESS)%Z; [reflexivity|]. destruct (a =? GLFW_RELEASE)%Z; reflexivity.
  - unfold cursorPositionCallback. destruct (isDragging g); reflexivity.
Qed.

Lemma run_keeps_maxIterations evs : forall g, maxIterations (run g evs) = maxIterations g.
Proof.
  induction evs as [|ev evs IH]; intros g; [reflexivity|].
  unfold run in *. cbn [fold_left]. rewrite IH. apply handle_keeps_maxIterations.
Qed.

(** X1: without a press of the left button, no sequence of events moves
    the view or starts a drag: cursor motion, scrolls, releases and the
    other buttons leave both offsets, the drag flag and the remembered
    cursor position as they are. *)
Theorem no_pan_without_press (g : Globals) (evs : list Event) :
  isDragging g = false ->
  forallb (fun ev => negb (is_left_press ev)) evs = true ->
  let g' := run g evs in
  offsetX g' = offsetX g /\ offsetY g' = offsetY g /\ isDragging g' = false /\
  lastMouseX g' = lastMouseX g /\ lastMouseY g' = lastMouseY g.
Proof.
  revert g. induction evs as [|ev evs IH]; intros g Hd Hall; [cbn; auto|].
  cbn [forallb] in Hall. apply andb_true_iff in Hall. destruct Hall as [Hev Hall].
  assert (Hstep : offsetX (handle g ev) = offsetX g /\ offsetY (handle g ev) = offsetY g /\
                  isDragging (handle g ev) = false /\
                  lastMouseX (handle g ev) = lastMouseX g /\
                  lastMouseY (handle g ev) = lastMouseY g).
  { destruct ev as [xo yo|cur b a m|x y]; cbn [handle].
    - unfold scrollCallback. destruct (0 <? yo); [cbn; auto|]. destruct (yo <? 0); cbn; auto.
    - unfold mouseButtonCallback. cbn [is_left_press] in Hev.
      destruct (b =? GLFW_MOUSE_BUTTON_LEFT)%Z; [|auto].
      destruct (a =? GLFW_PRESS)%Z; [discriminate|].
      destruct (a =? GLFW_RELEASE)%Z; cbn; auto.
    - unfold cursorPositionCallback. rewrite Hd. auto. }
  destruct Hstep as (H1 & H2 & H3 & H4 & H5).
  destruct (IH (handle g ev) H3 Hall) as (K1 & K2 & K3 & K4 & K5).
  cbn zeta. unfold run in *. cbn [fold_left].
  rewrite K1, K2, K3, K4, K5. auto.
Qed.

Lemma no_pan_without_press_witness :
  let g := run initial [CursorPos 10 20; MouseButton (10, 20) 1 GLFW_PRESS 0;
                        CursorPos 300 400; Scroll 0 1;
                        MouseButton (300, 400) GLFW_MOUSE_BUTTON_LEFT GLFW_RELEASE 0] in
  offsetX g = -0.5 /\ offsetY g = 0.
Proof.
  pose proof (no_pan_without_press initial
    [CursorPos 10 20; MouseButton (10, 20) 1 GLFW_PRESS 0;
     CursorPos 300 400; Scroll 0 1;
     MouseButton (300, 400) GLFW_MOUSE_BUTTON_LEFT GLFW_RELEASE 0]
    eq_refl eq_refl) as (H1 & H2 & _).
  split; [exact H1 | exact H2].
Defined.

(** ** Scrolling *)

(** X2: with [zoom] positive, a scroll forward does not lower it and a
    scroll backward does not raise it, in binary64 with its rounding,
    overflow and underflow. *)
Theorem scroll_is_monotone (g : Globals) (xoffset yoffset : float) :
  (0 <? zoom g) = true ->
  ((0 <? yoffset) = true ->
     (zoom g <=? zoom (scrollCallback g xoffset yoffset)) = true) /\
  ((yoffset <? 0) = true ->
     (zoom (scrollCallback g xoffset yoffset) <=? zoom g) = true).
Proof.
  intros Hz. unfold scrollCallback. split; intros Hy.
  - rewrite Hy. cbn [set_zoom zoom]. apply mul_factor_ge, Hz.
  - rewrite (ltb_zero_neg _ Hy), Hy. cbn [set_zoom zoom]. apply div_factor_le, Hz.
Qed.

Lemma scroll_is_monotone_witness :
  (200 <=? zoom (scrollCallback initial 0 1)) = true /\
  (zoom (scrollCallback initial 0 (-1)) <=? 200) = true.
Proof.
  split.
  - exact (proj1 (scroll_is_monotone initial 0 1 eq_refl) eq_refl).
  - exact (proj2 (scroll_is_monotone initial 0 (-1) eq_refl) eq_refl).
Defined.

Lemma handle_keeps_infinite_zoom g ev : zoom g = infinity -> zoom (handle g ev) = infinity.
Proof.
  intros H. destruct ev as [xo yo|cur b a m|x y]; cbn [handle].
  - unfold scrollCallback. destruct (0 <? yo); [cbn; rewrite H; reflexivity|].
    destruct (yo <? 0); [cbn; rewrite H; reflexivity|assumption].
  - unfold mouseButtonCallback. destruct (b =? GLFW_MOUSE_BUTTON_LEFT)%Z; [|assumption].
    destruct (a =? GLFW_PRESS)%Z; [assumption|]. destruct (a =? GLFW_RELEASE)%Z; assumption.
  - unfold cursorPositionCallback. destruct (isDragging g); assumption.
Qed.

Lemma run_app g evs1 evs2 : run g (evs1 ++ evs2) = run (run g evs1) evs2.
Proof. apply fold_left_app. Qed.

(** X3: once [zoom] has overflowed to infinity, no event brings it back:
    scrolling either way leaves it infinite. *)
Theorem infinite_zoom_is_permanent (g : Globals) (evs : list Event) :
  zoom g = infinity -> zoom (run g evs) = infinity.
Proof.
  revert g. induction evs as [|ev evs IH]; intros g H; [assumption|].
  unfold run in *. cbn [fold_left]. apply IH, handle_keeps_infinite_zoom, H.
Qed.

Lemma infinite_zoom_is_permanent_witness :
  zoom (run initial (repeat (Scroll 0 1) 7400 ++ repeat (Scroll 0 (-1)) 100)) = infinity.
Proof.
  rewrite run_app.
  apply (infinite_zoom_is_permanent (run initial (repeat (Scroll 0 1) 7400))).
  vm_compute. reflexivity.
Defined.

(** ** Offsets that are not numbers *)

Lemma is_nan_Prim2SF a : is_nan a = true -> Prim2SF a = S754_nan.
Proof.
  rewrite is_nan_spec. destruct (Prim2SF a); try discriminate. reflexivity.
Qed.

Lemma nan_sub a q : is_nan a = true -> is_nan (a - q) = true.
Proof.
  intros H. rewrite is_nan_spec, sub_spec, (is_nan_Prim2SF a H). reflexivity.
Qed.

Lemma nan_add a q : is_nan a = true -> is_nan (a + q) = true.
Proof.
  intros H. rewrite is_nan_spec, add_spec, (is_nan_Prim2SF a H). reflexivity.
Qed.

Lemma handle_keeps_nan_offset g ev :
  (is_nan (offsetX g) = true -> is_nan (offsetX (handle g ev)) = true) /\
  (is_nan (offsetY g) = true -> is_nan (offsetY (handle g ev)) = true).
Proof.
  destruct ev as [xo yo|cur b a m|x y]; cbn [handle].
  - unfold scrollCallback. destruct (0 <? yo); [cbn; auto|]. destruct (yo <? 0); cbn; auto.
  - unfold mouseButtonCallback. destruct (b =? GLFW_MOUSE_BUTTON_LEFT)%Z; [|auto].
    destruct (a =? GLFW_PRESS)%Z; [cbn; auto|]. destruct (a =? GLFW_RELEASE)%Z; cbn; auto.
  - unfold cursorPositionCallback. destruct (isDragging g); [|auto].
    cbn [offsetX offsetY]. split; intros H; [apply nan_sub|apply nan_add]; exact H.
Qed.

(** X4: once an offset is NaN, it stays NaN whatever the events that
    follow: nothing in the program resets the view. *)
Theorem nan_offset_is_permanent (g : Globals) (evs : list Event) :
  (is_nan (offsetX g) = true -> is_nan (offsetX (run g evs)) = true) /\
  (is_nan (offsetY g) = true -> is_nan (offsetY (run g evs)) = true).
Proof.
  revert g. induction evs as [|ev evs IH]; intros g; [auto|].
  unfold run in *. cbn [fold_left].
  destruct (IH (handle g ev)) as [I1 I2]. destruct (handle_keeps_nan_offset g ev) as [H1 H2].
  auto.
Qed.

Lemma nan_offset_is_permanent_witness :
  is_nan (offsetX (run initial
    ((repeat (Scroll 0 (-1)) 7900
      ++ [MouseButton (0, 0) GLFW_MOUSE_BUTTON_LEFT GLFW_PRESS 0;
          CursorPos (-1) 0; CursorPos 0 0])
     ++ [CursorPos 5 5; MouseButton (5, 5) GLFW_MOUSE_BUTTON_LEFT GLFW_RELEASE 0;
         Scroll 0 1]))) = true.
Proof.
  rewrite run_app.
  apply (proj1 (nan_offset_is_permanent
    (run initial (repeat (Scroll 0 (-1)) 7900
                  ++ [MouseButton (0, 0) GLFW_MOUSE_BUTTON_LEFT GLFW_PRESS 0;
                      CursorPos (-1) 0; CursorPos 0 0])) _)).
  vm_compute. reflexivity.
Defined.

(** ** Drags along one axis *)

Lemma sub_self_zero x : is_finite_sf (Prim2SF x) = true -> Prim2SF (x - x) = S754_zero false.
Proof. intros H. rewrite sub_spec. apply SFsub_diag, H. Qed.

Lemma zero_div_pos d z :
  Prim2SF d = S754_zero false -> (0 <? z) = true -> Prim2SF (d / z) = S754_zero false.
Proof.
  intros Hd Hz. rewrite div_spec, Hd. apply SFdiv_zero_pos.
  rewrite <- ltb_zero_pos. exact Hz.
Qed.

(** X5: during a drag, a cursor event that keeps a finite [x] leaves
    [offsetX] unchanged, and one that keeps a finite [y] leaves [offsetY]
    the same number (a negative zero becomes positive); so a cursor
    event at the remembered position does not move the view. *)
Theorem drag_along_one_axis (g : Globals) (xpos ypos : float) :
  isDragging g = true -> (0 <? zoom g) = true ->
  let g' := cursorPositionCallback g xpos ypos in
  (xpos = lastMouseX g -> is_finite_sf (Prim2SF xpos) = true -> offsetX g' = offsetX g) /\
  (ypos = lastMouseY g -> is_finite_sf (Prim2SF ypos) = true ->
     Shader.same_number (Prim2SF (offsetY g')) (Prim2SF (offsetY g))).
Proof.
  intros Hd Hz g'. unfold g', cursorPositionCallback. rewrite Hd. cbn [offsetX offsetY].
  split; intros <- Hf.
  - apply Prim2SF_inj. rewrite sub_spec.
    rewrite (zero_div_pos _ _ (sub_self_zero xpos Hf) Hz). apply SFsub_zero_r.
  - rewrite add_spec.
    rewrite (zero_div_pos _ _ (sub_self_zero ypos Hf) Hz). apply SFadd_zero_r.
Qed.

Lemma drag_along_one_axis_witness :
  let g := mouseButtonCallback initial (100, 100) GLFW_MOUSE_BUTTON_LEFT GLFW_PRESS 0 in
  offsetX (cursorPositionCallback g 100 250) = -0.5 /\
  Shader.same_number (Prim2SF (offsetY (cursorPositionCallback g 250 100))) (Prim2SF 0).
Proof.
  split.
  - exact (proj1 (drag_along_one_axis
             (mouseButtonCallback initial (100, 100) GLFW_MOUSE_BUTTON_LEFT GLFW_PRESS 0)
             100 250 eq_refl eq_refl) eq_refl eq_refl).
  - exact (proj2 (drag_along_one_axis
             (mouseButtonCallback initial (100, 100) GLFW_MOUSE_BUTTON_LEFT GLFW_PRESS 0)
             250 100 eq_refl eq_refl) eq_refl eq_refl).
Defined.


End ControllerInvariants.

(** ** The fragment shader: symmetries of the escape loop *)

Module ShaderSymmetry.

Import Shader Notions ShaderFacts.
Local Open Scope Z_scope.

Lemma tracks_refl x : tracks false x x.
Proof. apply (tracks_exact false). Qed.

Lemma loop_body_tracks f c c' z z' :
  vec_tracks f c c' -> vec_tracks f z z' -> vec_tracks f (loop_body c z) (loop_body c' z').
Proof.
  intros [Cx Cy] [Zx Zy]. split; cbn [loop_body vx vy]; unfold fadd, fsub, fmul.
  - apply SFadd_tracks; [|exact Cx].
    apply SFsub_tracks.
    + apply (SFmul_tracks prec32 emax32 false false); assumption.
    + pose proof (SFmul_tracks prec32 emax32 f f _ _ _ _ Zy Zy) as H.
      rewrite xorb_nilpotent in H. exact H.
  - apply SFadd_tracks; [|exact Cy].
    apply (SFmul_tracks prec32 emax32 false f); [|exact Zy].
    apply (SFmul_tracks prec32 emax32 false false); [apply tracks_refl|exact Zx].
Qed.

Lemma inside_tracks f z z' : vec_tracks f z z' -> inside z' = inside z.
Proof.
  intros [Zx Zy]. unfold inside, flt, dot, fadd, fmul. apply SFltb_tracks.
  apply SFadd_tracks.
  - apply (SFmul_tracks prec32 emax32 false false); assumption.
  - pose proof (SFmul_tracks prec32 emax32 f f _ _ _ _ Zy Zy) as H.
    rewrite xorb_nilpotent in H. exact H.
Qed.

Lemma while_loop_tracks f c c' maxIter : vec_tracks f c c' ->
  forall fuel z z' i, vec_tracks f z z' ->
  snd (while_loop fuel c' maxIter z' i) = snd (while_loop fuel c maxIter z i) /\
  vec_tracks f (fst (while_loop fuel c maxIter z i)) (fst (while_loop fuel c' maxIter z' i)).
Proof.
  intros Hc. induction fuel as [|fuel IH]; intros z z' i Hz; cbn [while_loop];
    unfold loop_guard; fold (inside z) (inside z'); rewrite (inside_tracks f z z' Hz);
    destruct (inside z && (i <? maxIter)); cbn [fst snd]; try (split; [reflexivity|assumption]).
  apply IH, loop_body_tracks; assumption.
Qed.

Lemma escape_tracks f c c' maxIter : vec_tracks f c c' ->
  snd (escape c' maxIter) = snd (escape c maxIter) /\
  vec_tracks f (fst (escape c maxIter)) (fst (escape c' maxIter)).
Proof.
  intros Hc. apply while_loop_tracks; [assumption|].
  split; cbn [vx vy]; apply tracks_zero.
Qed.

(** X6: the escape loop commutes with complex conjugation: [c] and its
    conjugate leave the loop after the same number of passes, at
    conjugate points (the sign of a zero apart). *)
Theorem conjugate_points_escape_together (c : vec2) (maxIter : Z) :
  snd (escape (conj c) maxIter) = snd (escape c maxIter) /\
  same_number (vx (fst (escape (conj c) maxIter))) (vx (fst (escape c maxIter))) /\
  same_number (vy (fst (escape (conj c) maxIter))) (SFopp (vy (fst (escape c maxIter)))).
Proof.
  assert (Hc : vec_tracks true c (conj c)).
  { split; cbn [conj vx vy]; [apply tracks_refl|apply (tracks_exact true)]. }
  destruct (escape_tracks true c (conj c) maxIter Hc) as [H1 [H2 H3]].
  split; [exact H1|]. split; [exact H2 | exact H3].
Qed.

(** X7: two points that are the same numbers, a zero coordinate having
    either sign, leave the loop after the same number of passes. *)
Theorem zero_sign_is_invisible (c c' : vec2) (maxIter : Z) :
  same_number (vx c') (vx c) -> same_number (vy c') (vy c) ->
  snd (escape c' maxIter) = snd (escape c maxIter).
Proof.
  intros Hx Hy. apply (escape_tracks false c c' maxIter). split; assumption.
Qed.

Lemma zero_sign_is_invisible_witness :
  snd (escape (mkvec2 (S754_zero true) (S754_zero true)) 1500)
  = snd (escape (mkvec2 (S754_zero false) (S754_zero false)) 1500).
Proof.
  apply (zero_sign_is_invisible (mkvec2 (S754_zero false) (S754_zero false))
                                (mkvec2 (S754_zero true) (S754_zero true)) 1500);
    exact I.
Defined.

(** *** Mirror symmetry of the image *)

Lemma sf_eqb_eq x y : sf_eqb x y = true -> x = y.
Proof.
  destruct x as [s|s| |s m e], y as [s'|s'| |s' m' e']; cbn [sf_eqb]; try discriminate;
    try reflexivity; intros H.
  - apply eqb_prop in H. congruence.
  - apply eqb_prop in H. congruence.
  - apply andb_true_iff in H. destruct H as [H H3].
    apply andb_true_iff in H. destruct H as [H1 H2].
    apply eqb_prop in H1. apply Pos.eqb_eq in H2. apply Z.eqb_eq in H3. congruence.
Qed.

Lemma rows_mirror_test :
  forallb (fun k => sf_eqb (fsub (pixel_center (Controller.HEIGHT - 1 - Z.of_nat k)) half_height)
                           (SFopp (fsub (pixel_center (Z.of_nat k)) half_height)))
          (seq 0 (Z.to_nat Controller.HEIGHT)) = true.
Proof. vm_compute. reflexivity. Qed.

Lemma rows_mirror j : 0 <= j < Controller.HEIGHT ->
  fsub (pixel_center (Controller.HEIGHT - 1 - j)) half_height
  = SFopp (fsub (pixel_center j) half_height).
Proof.
  intros Hj. pose proof rows_mirror_test as H.
  rewrite forallb_forall in H.
  specialize (H (Z.to_nat j)). rewrite Z2Nat.id in H by lia.
  apply sf_eqb_eq, H, in_seq. split; [lia|].
  cbn [Nat.add]. apply Z2Nat.inj_lt; lia.
Qed.

(** X8: with the vertical offset zero, as in the initial view, the image
    is its own mirror image in the horizontal centre line of the
    window: rows [j] and [HEIGHT - 1 - j] get the same colours, at every
    zoom and horizontal offset. *)
Theorem image_is_mirror_symmetric (u : Uniforms) (x : float32) (j : Z) :
  vy (u_resolution u) = int_to_float Controller.HEIGHT ->
  is_zero_sf (vy (u_offset u)) = true ->
  0 <= j < Controller.HEIGHT ->
  main u (mkvec2 x (pixel_center j))
  = main u (mkvec2 x (pixel_center (Controller.HEIGHT - 1 - j))).
Proof.
  intros Hres Hoff Hj. unfold main, iterations. f_equal.
  symmetry. apply (escape_tracks true). split.
  - apply tracks_refl.
  - cbn [fragment_to_complex vec2_add vec2_div vec2_sub vec2_scale vx vy].
    rewrite Hres. fold half_height. rewrite (rows_mirror j Hj).
    unfold fadd, fdiv. apply SFadd_tracks.
    + apply SFdiv_tracks, (tracks_exact true).
    + destruct (vy (u_offset u)) as [s| | |]; try discriminate. apply tracks_zero.
Qed.

Lemma image_is_mirror_symmetric_witness :
  main (uniforms_of Controller.initial) (mkvec2 (pixel_center 100) (pixel_center 10))
  = main (uniforms_of Controller.initial) (mkvec2 (pixel_center 100) (pixel_center 789)).
Proof.
  apply (image_is_mirror_symmetric (uniforms_of Controller.initial) (pixel_center 100) 10).
  - reflexivity.
  - reflexivity.
  - unfold Controller.HEIGHT. lia.
Defined.

End ShaderSymmetry.

(** ** The fragment shader: edge behaviour *)

Module ShaderEdges.

Import Shader Notions ShaderLoop ShaderFacts ShaderSymmetry.
Local Open Scope Z_scope.

(** *** Points that are not numbers *)

Lemma loop_guard_inside maxIter z i :
  loop_guard maxIter z i = inside z && (i <? maxIter).
Proof. reflexivity. Qed.

Lemma inside_origin : inside (mkvec2 f0_0 f0_0) = true.
Proof. reflexivity. Qed.

Lemma first_pass_from_origin c :
  loop_body c (mkvec2 f0_0 f0_0) = mkvec2 (fadd f0_0 (vx c)) (fadd f0_0 (vy c)).
Proof. reflexivity. Qed.

Lemma zero_plus_not_finite x : is_finite_sf x = false -> fadd f0_0 x = x.
Proof. destruct x as [s|s| |s m e]; try discriminate; reflexivity. Qed.

Lemma square_not_finite x : is_finite_sf x = false ->
  fmul x x = S754_infinity false \/ fmul x x = S754_nan.
Proof.
  destruct x as [s|[|]| |s m e]; try discriminate; intros _; cbn; auto.
Qed.

Lemma not_inside_l a b :
  a = S754_infinity false \/ a = S754_nan -> flt (fadd a b) f4_0 = false.
Proof.
  intros [-> | ->]; destruct b as [s|[|]| |s m e]; reflexivity.
Qed.

Lemma not_inside_r a b :
  b = S754_infinity false \/ b = S754_nan -> flt (fadd a b) f4_0 = false.
Proof.
  intros [-> | ->]; destruct a as [s|[|]| |s m e]; reflexivity.
Qed.

Lemma not_finite_outside z :
  is_finite_sf (vx z) && is_finite_sf (vy z) = false -> inside z = false.
Proof.
  intros H. unfold inside, dot. apply andb_false_iff in H. destruct H as [H|H].
  - apply not_inside_l, square_not_finite, H.
  - apply not_inside_r, square_not_finite, H.
Qed.

Lemma first_pass_not_finite c :
  is_finite_sf (vx c) && is_finite_sf (vy c) = false ->
  inside (loop_body c (mkvec2 f0_0 f0_0)) = false.
Proof.
  intros H. apply not_finite_outside. rewrite first_pass_from_origin. cbn [vx vy].
  apply andb_false_iff in H. apply andb_false_iff.
  destruct H as [H|H]; [left|right]; rewrite (zero_plus_not_finite _ H); exact H.
Qed.

Lemma escape_after_one_pass c maxIter :
  1 <= maxIter <= INT_MAX ->
  inside (loop_body c (mkvec2 f0_0 f0_0)) = false ->
  escape c maxIter = (loop_body c (mkvec2 f0_0 f0_0), 1).
Proof.
  intros HM Hout. unfold escape.
  destruct (Z.to_nat maxIter) as [|fuel] eqn:E; [lia|].
  cbn [while_loop]. rewrite loop_guard_inside, inside_origin.
  destruct (Z.ltb_spec 0 maxIter); [|lia]. cbn [andb].
  change (wrap32 (0 + 1)) with 1.
  destruct fuel; cbn [while_loop]; rewrite loop_guard_inside, Hout; reflexivity.
Qed.

(** X9: a point with an infinite or NaN coordinate leaves the loop after
    the first pass, for every cap of at least 1. *)
Theorem non_finite_point_escapes_at_first_pass (c : vec2) (maxIter : Z) :
  is_finite_sf (vx c) && is_finite_sf (vy c) = false ->
  1 <= maxIter <= INT_MAX ->
  snd (escape c maxIter) = 1 /\ inside (fst (escape c maxIter)) = false.
Proof.
  intros Hc HM.
  rewrite (escape_after_one_pass c maxIter HM (first_pass_not_finite c Hc)).
  split; [reflexivity|]. apply first_pass_not_finite, Hc.
Qed.

Lemma non_finite_point_escapes_at_first_pass_witness :
  snd (escape (mkvec2 S754_nan f0_0) 1500) = 1 /\
  snd (escape (mkvec2 f0_0 (S754_infinity true)) 1500) = 1.
Proof.
  split.
  - apply (non_finite_point_escapes_at_first_pass (mkvec2 S754_nan f0_0) 1500);
      [reflexivity | unfold INT_MAX; lia].
  - apply (non_finite_point_escapes_at_first_pass (mkvec2 f0_0 (S754_infinity true)) 1500);
      [reflexivity | unfold INT_MAX; lia].
Defined.

(** *** A zoom uniform that has left the range of [float] *)

Lemma div_by_zero_not_finite x z :
  is_zero_sf z = true -> is_finite_sf (fdiv x z) = false.
Proof.
  destruct z as [sz| | |]; try discriminate. intros _.
  destruct x as [s|s| |s m e]; reflexivity.
Qed.

Lemma plus_not_finite x y : is_finite_sf x = false -> is_finite_sf (fadd x y) = false.
Proof.
  destruct x as [s|[|]| |s m e]; try discriminate; intros _;
    destruct y as [s'|[|]| |s' m' e']; reflexivity.
Qed.

(** X10: when the zoom uniform is zero, every fragment, whatever its
    coordinates, maps to a point that is not a number and gets the
    colour of one pass: the image is flat. *)
Theorem zero_zoom_gives_flat_image (u : Uniforms) (fragCoord : vec2) :
  is_zero_sf (u_zoom u) = true ->
  1 <= u_maxIterations u <= INT_MAX ->
  iterations u fragCoord = 1 /\ main u fragCoord = color_of 1 (u_maxIterations u).
Proof.
  intros Hz HM.
  assert (H : iterations u fragCoord = 1).
  { unfold iterations. rewrite escape_after_one_pass; [reflexivity|assumption|].
    apply first_pass_not_finite, andb_false_iff. left.
    cbn [fragment_to_complex vec2_add vec2_div vx].
    apply plus_not_finite, div_by_zero_not_finite, Hz. }
  split; [exact H|]. unfold main. rewrite H. reflexivity.
Qed.

Lemma zero_zoom_gives_flat_image_witness :
  iterations (uniforms_of (Controller.run Controller.initial
                             (repeat (Controller.Scroll 0 (-1)) 1300)))
             (mkvec2 (pixel_center 17) (pixel_center 230)) = 1.
Proof.
  apply (zero_zoom_gives_flat_image
           (uniforms_of (Controller.run Controller.initial
                           (repeat (Controller.Scroll 0 (-1)) 1300)))
           (mkvec2 (pixel_center 17) (pixel_center 230))).
  - vm_compute. reflexivity.
  - vm_compute. split; discriminate.
Defined.

Lemma cols_finite_test :
  forallb (fun k => is_finite_sf (fsub (pixel_center (Z.of_nat k)) half_width))
          (seq 0 (Z.to_nat Controller.WIDTH)) = true.
Proof. vm_compute. reflexivity. Qed.

Lemma rows_finite_test :
  forallb (fun k => is_finite_sf (fsub (pixel_center (Z.of_nat k)) half_height))
          (seq 0 (Z.to_nat Controller.HEIGHT)) = true.
Proof. vm_compute. reflexivity. Qed.

Lemma cols_finite i : 0 <= i < Controller.WIDTH ->
  is_finite_sf (fsub (pixel_center i) half_width) = true.
Proof.
  intros Hi. pose proof cols_finite_test as H. rewrite forallb_forall in H.
  specialize (H (Z.to_nat i)). rewrite Z2Nat.id in H by lia.
  apply H, in_seq. split; [lia|]. cbn [Nat.add]. apply Z2Nat.inj_lt; lia.
Qed.

Lemma rows_finite j : 0 <= j < Controller.HEIGHT ->
  is_finite_sf (fsub (pixel_center j) half_height) = true.
Proof.
  intros Hj. pose proof rows_finite_test as H. rewrite forallb_forall in H.
  specialize (H (Z.to_nat j)). rewrite Z2Nat.id in H by lia.
  apply H, in_seq. split; [lia|]. cbn [Nat.add]. apply Z2Nat.inj_lt; lia.
Qed.

Lemma finite_over_infinity x s :
  is_finite_sf x = true -> exists s', fdiv x (S754_infinity s) = S754_zero s'.
Proof.
  destruct x as [sx|sx| |sx m e]; try discriminate; intros _; eexists; reflexivity.
Qed.

(** X11: when the zoom uniform is infinite, every pixel of the window maps
    to the offset and gets the colour of that one point: the image is flat. *)
Theorem infinite_zoom_gives_flat_image (u : Uniforms) (i j : Z) :
  u_resolution u = mkvec2 (int_to_float Controller.WIDTH) (int_to_float Controller.HEIGHT) ->
  u_zoom u = S754_infinity false ->
  0 <= i < Controller.WIDTH -> 0 <= j < Controller.HEIGHT ->
  iterations u (mkvec2 (pixel_center i) (pixel_center j))
  = snd (escape (u_offset u) (u_maxIterations u)).
Proof.
  intros Hres Hz Hi Hj. unfold iterations.
  apply (escape_tracks false).
  unfold vec_tracks, tracks.
  cbn [fragment_to_complex vec2_add vec2_div vec2_sub vec2_scale vx vy].
  rewrite Hres, Hz. cbn [vx vy]. fold half_width half_height.
  destruct (finite_over_infinity _ false (cols_finite i Hi)) as [sx ->].
  destruct (finite_over_infinity _ false (rows_finite j Hj)) as [sy ->].
  split; apply zero_plus_same.
Qed.

Lemma infinite_zoom_gives_flat_image_witness :
  let u := uniforms_of (Controller.run Controller.initial
                          (repeat (Controller.Scroll 0 1) 7400)) in
  iterations u (mkvec2 (pixel_center 3) (pixel_center 700))
  = snd (escape (u_offset u) (u_maxIterations u)).
Proof.
  apply (infinite_zoom_gives_flat_image
           (uniforms_of (Controller.run Controller.initial
                           (repeat (Controller.Scroll 0 1) 7400))) 3 700).
  - reflexivity.
  - vm_compute. reflexivity.
  - unfold Controller.WIDTH. lia.
  - unfold Controller.HEIGHT. lia.
Defined.

(** *** The iteration cap *)

(** [float(n)] of a negative integer is a negative number or minus
    infinity, whatever the size of [n]. *)
Lemma int_to_float_neg n : n < 0 ->
  (exists m e, int_to_float n = S754_finite true m e) \/
  int_to_float n = S754_infinity true.
Proof.
  intros Hn. unfold int_to_float.
  destruct (binary_normalize_sem prec32 emax32 prec32_gt_1 prec32_lt_emax32 n 0 false (-149))
    as (Hv & Hnan & Hu); [rewrite emin32; lia | lia |].
  change (0 - -149) with 149 in Hu.
  assert (Hneg : ulps prec32 emax32 (binary_normalize prec32 emax32 n 0 false) < 0).
  { rewrite Hu. unfold rnd_signed.
    destruct (Z.ltb_spec (n * 2 ^ 149) 0) as [_|H]; [|lia].
    pose proof (rnd_ulps_mono prec32 emax32 prec32_gt_1 prec32_lt_emax32 (-149)
                  (1 * 2 ^ 149) (- (n * 2 ^ 149)) ltac:(rewrite emin32; lia) ltac:(lia)) as H.
    assert (H1 : 0 < rnd_ulps prec32 emax32 (-149) (1 * 2 ^ 149)) by (vm_compute; reflexivity).
    lia. }
  destruct (binary_normalize prec32 emax32 n 0 false) as [s|[|]| |[|] m e];
    cbn [ulps cond_Zopp is_nan_sf] in Hneg, Hnan; try lia; try discriminate.
  - right. reflexivity.
  - left. exists m, e. reflexivity.
  - pose proof (mag_bounds prec32 emax32 prec32_gt_1 prec32_lt_emax32 m e Hv). lia.
Qed.

(** X12: with a cap that is not positive the loop body never runs: the count
    is 0 for every fragment; the colour is (NaN, NaN, NaN, 1) when the cap
    is 0, and (-0, +0, -0, 1) for every negative cap, the least [int]
    [-2147483648] included. *)
Theorem non_positive_cap_skips_the_loop (u : Uniforms) (fragCoord : vec2) :
  u_maxIterations u <= 0 ->
  iterations u fragCoord = 0 /\
  (u_maxIterations u = 0 ->
     main u fragCoord = mkvec4 S754_nan S754_nan S754_nan f1_0) /\
  (u_maxIterations u < 0 ->
     main u fragCoord = mkvec4 (S754_zero true) (S754_zero false) (S754_zero true) f1_0).
Proof.
  intros HM.
  assert (H : iterations u fragCoord = 0).
  { unfold iterations, escape.
    replace (Z.to_nat (u_maxIterations u)) with O by lia.
    cbn [while_loop]. destruct (loop_guard _ _ _); reflexivity. }
  split; [exact H|]. unfold main. rewrite H. split.
  - intros ->. reflexivity.
  - intros HN. unfold color_of.
    destruct (int_to_float_neg (u_maxIterations u) HN) as [(m & e & Em)|Em];
      rewrite Em; reflexivity.
Qed.

Lemma non_positive_cap_skips_the_loop_witness :
  let u := mkUniforms (mkvec2 f1_0 f1_0) (mkvec2 f0_0 f0_0) f1_0 (-2147483648) in
  iterations u (mkvec2 f0_0 f0_0) = 0 /\
  main u (mkvec2 f0_0 f0_0)
  = mkvec4 (S754_zero true) (S754_zero false) (S754_zero true) f1_0.
Proof.
  cbv zeta.
  destruct (non_positive_cap_skips_the_loop
              (mkUniforms (mkvec2 f1_0 f1_0) (mkvec2 f0_0 f0_0) f1_0 (-2147483648))
              (mkvec2 f0_0 f0_0)) as (H0 & _ & Hneg).
  - cbn [u_maxIterations]. lia.
  - split; [exact H0|]. apply Hneg. cbn [u_maxIterations]. lia.
Defined.

(** X13: lowering the cap truncates the count and changes nothing else:
    the count under the cap [M1] is the count under a larger cap [M2],
    cut at [M1]. *)
Theorem lower_cap_truncates_the_count (c : vec2) (M1 M2 : Z) :
  0 <= M1 <= M2 -> M2 <= INT_MAX ->
  snd (escape c M1) = Z.min M1 (snd (escape c M2)).
Proof.
  intros H12 H2.
  destruct (escape_orbit c M1 ltac:(lia)) as (m1 & E1 & A1 & G1).
  destruct (escape_orbit c M2 H2) as (m2 & E2 & A2 & G2).
  rewrite E1, E2. cbn [snd].
  rewrite loop_guard_inside in G1, G2.
  apply andb_false_iff in G1. apply andb_false_iff in G2.
  assert (L1 : Z.of_nat m1 <= M1).
  { destruct m1 as [|k]; [lia|]. destruct (A1 k ltac:(lia)) as [_ Hk]. lia. }
  assert (L2 : Z.of_nat m2 <= M2).
  { destruct m2 as [|k]; [lia|]. destruct (A2 k ltac:(lia)) as [_ Hk]. lia. }
  destruct (Nat.lt_trichotomy m1 m2) as [Hlt|[Heq|Hgt]].
  - (* the smaller cap stopped the loop first *)
    destruct (A2 m1 Hlt) as [I1 _].
    destruct G1 as [G1|G1]; [congruence|].
    apply Z.ltb_ge in G1. lia.
  - subst m2. lia.
  - destruct (A1 m2 Hgt) as [I2 K2].
    destruct G2 as [G2|G2]; [congruence|].
    apply Z.ltb_ge in G2. lia.
Qed.

Lemma lower_cap_truncates_the_count_witness :
  snd (escape (mkvec2 f0_0 f0_0) 10) = Z.min 10 (snd (escape (mkvec2 f0_0 f0_0) 1500)).
Proof.
  apply (lower_cap_truncates_the_count (mkvec2 f0_0 f0_0) 10 1500); unfold INT_MAX; lia.
Defined.

End ShaderEdges.

(** ** Colours and frames *)

Module Frames.

Import Shader Notions ShaderLoop ShaderFacts ShaderEdges.
Local Open Scope Z_scope.

(** *** The colour channels *)

Lemma ratio_sem n M : 0 <= n <= M -> 0 < M <= INT_MAX ->
  let t := fdiv (int_to_float n) (int_to_float M) in
  SpecFloat.valid_binary prec32 emax32 t = true /\ is_finite_sf t = true /\
  0 <= ulps prec32 emax32 t <= ulps prec32 emax32 f1_0.
Proof.
  intros Hn HM t.
  destruct (int_to_float_sem n ltac:(lia)) as (Vn & Fn & _).
  destruct (int_to_float_sem M ltac:(lia)) as (VM & FM & _).
  destruct (SFdiv_le_one prec32 emax32 prec32_gt_1 prec32_lt_emax32
              (int_to_float n) (int_to_float M) Vn VM Fn FM)
    as (Hv & Hnan & Hu).
  - split; [apply int_to_float_nonneg; lia|apply int_to_float_mono; lia].
  - apply int_to_float_pos; lia.
  - cbv zeta in Hv, Hnan, Hu. unfold t, fdiv.
    rewrite <- f1_0_is_one in Hu.
    split; [assumption|]. split; [|assumption].
    apply (finite_of_ulps prec32 emax32 prec32_gt_1 prec32_lt_emax32); [assumption|].
    assert (ulps prec32 emax32 f1_0 < overflow_ulps prec32 emax32) by reflexivity.
    assert (0 < overflow_ulps prec32 emax32) by reflexivity.
    lia.
Qed.

Lemma scaled_down t y :
  SpecFloat.valid_binary prec32 emax32 t = true -> is_finite_sf t = true ->
  0 <= ulps prec32 emax32 t ->
  SpecFloat.valid_binary prec32 emax32 y = true -> is_finite_sf y = true ->
  0 <= ulps prec32 emax32 y <= ulps prec32 emax32 f1_0 ->
  SFleb f0_0 (fmul t y) = true /\ SFleb (fmul t y) t = true.
Proof.
  intros Vt Ft Ht Vy Fy Hy. rewrite f1_0_is_one in Hy.
  destruct (SFmul_le_l prec32 emax32 prec32_gt_1 prec32_lt_emax32 t y Vt Vy Ft Fy Ht Hy)
    as (Hv & Hn & Hu).
  cbv zeta in Hv, Hn, Hu. unfold fmul.
  assert (Nt : is_nan_sf t = false) by (destruct t; try discriminate; reflexivity).
  split; apply (SFleb_ulps prec32 emax32 prec32_gt_1 prec32_lt_emax32);
    try assumption; try reflexivity; cbn [ulps f0_0]; lia.
Qed.

(** X14: red is the largest channel: green [t * t] and blue [t * 0.5] lie
    between zero and red [t], which is at most one. *)
Theorem red_is_the_largest_channel (u : Uniforms) (fragCoord : vec2) :
  0 < u_maxIterations u <= INT_MAX ->
  let col := main u fragCoord in
  SFleb f0_0 (v4y col) = true /\ SFleb (v4y col) (v4x col) = true /\
  SFleb f0_0 (v4z col) = true /\ SFleb (v4z col) (v4x col) = true /\
  SFleb (v4x col) f1_0 = true.
Proof.
  intros HM col.
  pose proof (iterations_range u fragCoord HM) as Hr.
  destruct (ratio_sem (iterations u fragCoord) (u_maxIterations u) Hr HM) as (Vt & Ft & Ht).
  unfold col, main, color_of. cbn [v4x v4y v4z].
  set (t := fdiv (int_to_float (iterations u fragCoord)) (int_to_float (u_maxIterations u))) in *.
  destruct (scaled_down t t Vt Ft ltac:(lia) Vt Ft Ht) as [G0 G1].
  destruct (scaled_down t f0_5 Vt Ft ltac:(lia) eq_refl eq_refl) as [B0 B1].
  { split; [discriminate|]. intros H; discriminate H. }
  assert (Nt : is_nan_sf t = false) by (destruct t; try discriminate; reflexivity).
  repeat split; try assumption.
  apply (SFleb_ulps prec32 emax32 prec32_gt_1 prec32_lt_emax32);
    try assumption; try reflexivity; lia.
Qed.

Lemma red_is_the_largest_channel_witness :
  let col := main (uniforms_of Controller.initial) (mkvec2 (pixel_center 0) (pixel_center 0)) in
  SFleb (v4y col) (v4x col) = true /\ SFleb (v4z col) (v4x col) = true.
Proof.
  pose proof (red_is_the_largest_channel (uniforms_of Controller.initial)
                (mkvec2 (pixel_center 0) (pixel_center 0))) as H.
  cbv zeta in H.
  destruct H as (_ & H1 & _ & H2 & _).
  - cbn [uniforms_of u_maxIterations Controller.initial Controller.maxIterations].
    unfold INT_MAX. lia.
  - split; [exact H1 | exact H2].
Defined.

(** *** Every frame the program draws *)

Lemma double_to_float_nonneg z :
  is_pos_sf (Prim2SF z) = true -> is_nonneg_sf (double_to_float z) = true.
Proof.
  unfold double_to_float. destruct (Prim2SF z) as [s|[|]| |[|] m e]; try discriminate;
    intros _; [reflexivity|].
  destruct (binary_round_sem prec32 emax32 prec32_gt_1 prec32_lt_emax32 false m e
              (Z.min (-149) e)) as (Hv & Hn & Hu); try (rewrite ?emin32; lia).
  apply (nonneg_of_ulps prec32 emax32 prec32_gt_1 prec32_lt_emax32); try assumption.
  rewrite Hu. cbn [cond_Zopp].
  apply (rnd_ulps_nonneg prec32 emax32 prec32_gt_1 prec32_lt_emax32); [rewrite emin32; lia|].
  assert (0 < 2 ^ (e - Z.min (-149) e)) by (apply Z.pow_pos_nonneg; lia). lia.
Qed.

Lemma iterations_ge_one u fragCoord :
  1 <= u_maxIterations u <= INT_MAX -> 1 <= iterations u fragCoord.
Proof.
  intros HM. unfold iterations.
  destruct (escape_orbit (fragment_to_complex u fragCoord) (u_maxIterations u) ltac:(lia))
    as (m & E & _ & G).
  rewrite E. cbn [snd]. destruct m as [|k]; [|lia].
  cbn [orbit] in G. rewrite loop_guard_inside, inside_origin in G.
  cbn [andb Z.of_nat] in G. apply Z.ltb_ge in G. lia.
Qed.

(** X15: whatever the events so far, the frame is drawn with the cap 1500,
    the resolution 800 x 800 and a zoom that is a non-negative number or
    plus infinity, never NaN. *)
Theorem uniforms_of_every_frame (evs : list Controller.Event) :
  let u := uniforms_of (Controller.run Controller.initial evs) in
  u_maxIterations u = 1500 /\
  u_resolution u = mkvec2 (int_to_float 800) (int_to_float 800) /\
  is_nonneg_sf (u_zoom u) = true.
Proof.
  cbv zeta. cbn [uniforms_of u_maxIterations u_resolution u_zoom].
  split; [apply ControllerInvariants.run_keeps_maxIterations|]. split; [reflexivity|].
  apply double_to_float_nonneg. rewrite <- Binary64.ltb_zero_pos.
  apply ControllerFacts.run_keeps_zoom_positive. reflexivity.
Qed.

Lemma ratios_positive_test :
  forallb (fun k => is_pos_sf (fdiv (int_to_float (Z.of_nat k)) (int_to_float 1500)))
          (seq 1 1500) = true.
Proof. vm_compute. reflexivity. Qed.

Lemma ratio_positive n : 1 <= n <= 1500 ->
  is_pos_sf (fdiv (int_to_float n) (int_to_float 1500)) = true.
Proof.
  intros Hn. pose proof ratios_positive_test as H. rewrite forallb_forall in H.
  specialize (H (Z.to_nat n)). rewrite Z2Nat.id in H by lia.
  apply H, in_seq. lia.
Qed.

Lemma ratios_bounded_test :
  forallb (fun k => SFleb (fdiv (int_to_float 1) (int_to_float 1500))
                          (fdiv (int_to_float (Z.of_nat k)) (int_to_float 1500)))
          (seq 1 1500) = true.
Proof. vm_compute. reflexivity. Qed.

Lemma ratio_bounded n : 1 <= n <= 1500 ->
  SFleb (fdiv (int_to_float 1) (int_to_float 1500))
        (fdiv (int_to_float n) (int_to_float 1500)) = true.
Proof.
  intros Hn. pose proof ratios_bounded_test as H. rewrite forallb_forall in H.
  specialize (H (Z.to_nat n)). rewrite Z2Nat.id in H by lia.
  apply H, in_seq. lia.
Qed.

(** X16: in every frame, every fragment makes at least one pass of the
    loop and at most 1500, whatever its coordinates; the red component
    the shader writes to [fragColor] is then a positive float, at least
    [float(1) / float(1500)]. *)
Theorem every_fragment_makes_a_pass (evs : list Controller.Event) (fragCoord : vec2) :
  let g := Controller.run Controller.initial evs in
  1 <= iterations (uniforms_of g) fragCoord <= 1500 /\
  is_pos_sf (v4x (render g fragCoord)) = true /\
  SFleb (fdiv (int_to_float 1) (int_to_float 1500)) (v4x (render g fragCoord)) = true.
Proof.
  cbv zeta.
  pose proof (ControllerInvariants.run_keeps_maxIterations evs Controller.initial) as HM.
  set (u := uniforms_of (Controller.run Controller.initial evs)).
  assert (Hu : u_maxIterations u = 1500) by exact HM.
  assert (Hr : 1 <= iterations u fragCoord <= 1500).
  { split.
    - apply iterations_ge_one. rewrite Hu. unfold INT_MAX. lia.
    - rewrite <- Hu. apply iterations_range. rewrite Hu. unfold INT_MAX. lia. }
  split; [exact Hr|].
  unfold render, main, color_of. fold u. cbn [v4x]. rewrite Hu.
  split; [apply ratio_positive, Hr | apply ratio_bounded, Hr].
Qed.

(** *** Zooming *)

Lemma same_number_sym x y : same_number x y -> same_number y x.
Proof.
  destruct x as [s|s| |s m e], y as [s'|s'| |s' m' e']; cbn [same_number];
    intros H; try exact I; try discriminate; symmetry; exact H.
Qed.

Lemma same_number_trans x y z : same_number x y -> same_number y z -> same_number x z.
Proof.
  destruct x as [s|s| |s m e], y as [s'|s'| |s' m' e'], z as [s''|s''| |s'' m'' e''];
    cbn [same_number]; intros H1 H2; try exact I; try discriminate; congruence.
Qed.

Lemma scroll_keeps_offsets g xoffset yoffset :
  Controller.offsetX (Controller.scrollCallback g xoffset yoffset) = Controller.offsetX g /\
  Controller.offsetY (Controller.scrollCallback g xoffset yoffset) = Controller.offsetY g.
Proof.
  unfold Controller.scrollCallback.
  destruct (PrimFloat.ltb 0 yoffset); [split; reflexivity|].
  destruct (PrimFloat.ltb yoffset 0); split; reflexivity.
Qed.

(** X22: zooming is about the centre of the window: as long as the zoom
    uniform is positive before and after a scroll, the centre of the
    window shows the same point of the plane, the offset; the cursor
    position plays no part. *)
Theorem zoom_is_about_the_center (g : Controller.Globals) (xoffset yoffset : PrimFloat.float) :
  let g' := Controller.scrollCallback g xoffset yoffset in
  let center := vec2_scale (u_resolution (uniforms_of g)) f0_5 in
  is_pos_sf (u_zoom (uniforms_of g)) = true ->
  is_pos_sf (u_zoom (uniforms_of g')) = true ->
  same_number (vx (fragment_to_complex (uniforms_of g') center))
              (vx (fragment_to_complex (uniforms_of g) center)) /\
  same_number (vy (fragment_to_complex (uniforms_of g') center))
              (vy (fragment_to_complex (uniforms_of g) center)).
Proof.
  intros g' center Hz Hz'.
  destruct (scroll_keeps_offsets g xoffset yoffset) as [Ex Ey].
  fold g' in Ex, Ey.
  split.
  - apply same_number_trans with (vx (u_offset (uniforms_of g))).
    + cbn [uniforms_of u_offset vx]. rewrite <- Ex.
      apply (center_component (int_to_float Controller.WIDTH)); try reflexivity. exact Hz'.
    + apply same_number_sym.
      apply (center_component (int_to_float Controller.WIDTH)); try reflexivity. exact Hz.
  - apply same_number_trans with (vy (u_offset (uniforms_of g))).
    + cbn [uniforms_of u_offset vy]. rewrite <- Ey.
      apply (center_component (int_to_float Controller.HEIGHT)); try reflexivity. exact Hz'.
    + apply same_number_sym.
      apply (center_component (int_to_float Controller.HEIGHT)); try reflexivity. exact Hz.
Qed.

Lemma zoom_is_about_the_center_witness :
  let g := Controller.initial in
  let g' := Controller.scrollCallback g 0 1 in
  let center := vec2_scale (u_resolution (uniforms_of g)) f0_5 in
  same_number (vx (fragment_to_complex (uniforms_of g') center))
              (vx (fragment_to_complex (uniforms_of g) center)).
Proof.
  exact (proj1 (zoom_is_about_the_center Controller.initial 0 1 eq_refl eq_refl)).
Defined.

End Frames.

(** ** The fragment shader: points that never escape *)

Module NearOrigin.

Import Shader Notions ShaderLoop ShaderFacts ShaderEdges.
Local Open Scope Z_scope.

(** Bounds, in units of [2^-149], on the results of the operations of
    the loop body: rounding is monotone and keeps the floats of the
    format. *)

Lemma mul_bound x y A B :
  SpecFloat.valid_binary prec32 emax32 x = true -> is_finite_sf x = true ->
  SpecFloat.valid_binary prec32 emax32 y = true -> is_finite_sf y = true ->
  Z.abs (ulps prec32 emax32 x) <= A -> Z.abs (ulps prec32 emax32 y) <= B ->
  rnd_ulps prec32 emax32 (-298) (A * B) < overflow_ulps prec32 emax32 ->
  SpecFloat.valid_binary prec32 emax32 (fmul x y) = true /\
  is_finite_sf (fmul x y) = true /\
  Z.abs (ulps prec32 emax32 (fmul x y)) <= rnd_ulps prec32 emax32 (-298) (A * B).
Proof.
  intros Vx Fx Vy Fy HA HB Hov.
  destruct (SFmul_sem prec32 emax32 prec32_gt_1 prec32_lt_emax32 x y Vx Vy Fx Fy)
    as (Hv & Hn & Hu).
  cbv zeta in Hv, Hn, Hu. change (2 * SpecFloat.emin prec32 emax32) with (-298) in Hu.
  unfold fmul.
  assert (Hb : Z.abs (ulps prec32 emax32 (SFmul prec32 emax32 x y))
               <= rnd_ulps prec32 emax32 (-298) (A * B)).
  { rewrite Hu.
    apply (rnd_signed_abs_le prec32 emax32 prec32_gt_1 prec32_lt_emax32);
      [rewrite emin32; lia|].
    rewrite Z.abs_mul. apply Z.mul_le_mono_nonneg; lia. }
  split; [assumption|]. split; [|assumption].
  apply (finite_of_ulps prec32 emax32 prec32_gt_1 prec32_lt_emax32); [assumption|]. lia.
Qed.

Lemma square_bound x A :
  SpecFloat.valid_binary prec32 emax32 x = true -> is_finite_sf x = true ->
  Z.abs (ulps prec32 emax32 x) <= A ->
  rnd_ulps prec32 emax32 (-298) (A * A) < overflow_ulps prec32 emax32 ->
  SpecFloat.valid_binary prec32 emax32 (fmul x x) = true /\
  is_finite_sf (fmul x x) = true /\
  0 <= ulps prec32 emax32 (fmul x x) <= rnd_ulps prec32 emax32 (-298) (A * A).
Proof.
  intros Vx Fx HA Hov.
  destruct (mul_bound x x A A Vx Fx Vx Fx HA HA Hov) as (Hv & Hf & Hb).
  destruct (FarPoints.square_sem x Vx Fx) as (_ & Hnn & _).
  pose proof (ulps_nonneg prec32 emax32 prec32_gt_1 prec32_lt_emax32 _ Hnn).
  repeat split; try assumption. lia.
Qed.

Lemma add_bound x y lo hi :
  SpecFloat.valid_binary prec32 emax32 x = true -> is_finite_sf x = true ->
  SpecFloat.valid_binary prec32 emax32 y = true -> is_finite_sf y = true ->
  lo <= ulps prec32 emax32 x + ulps prec32 emax32 y <= hi ->
  - overflow_ulps prec32 emax32 < rnd_signed prec32 emax32 (-149) lo ->
  rnd_signed prec32 emax32 (-149) hi < overflow_ulps prec32 emax32 ->
  SpecFloat.valid_binary prec32 emax32 (fadd x y) = true /\
  is_finite_sf (fadd x y) = true /\
  rnd_signed prec32 emax32 (-149) lo <= ulps prec32 emax32 (fadd x y)
    <= rnd_signed prec32 emax32 (-149) hi.
Proof.
  intros Vx Fx Vy Fy [Hlo Hhi] Hov1 Hov2.
  destruct (SFadd_sem prec32 emax32 prec32_gt_1 prec32_lt_emax32 x y Vx Vy Fx Fy)
    as (Hv & Hn & Hu).
  cbv zeta in Hv, Hn, Hu. rewrite emin32 in Hu. unfold fadd.
  pose proof (rnd_signed_mono prec32 emax32 prec32_gt_1 prec32_lt_emax32 (-149) _ _
                ltac:(rewrite emin32; lia) Hlo) as M1.
  pose proof (rnd_signed_mono prec32 emax32 prec32_gt_1 prec32_lt_emax32 (-149) _ _
                ltac:(rewrite emin32; lia) Hhi) as M2.
  rewrite <- Hu in M1, M2.
  split; [assumption|]. split; [|lia].
  apply (finite_of_ulps prec32 emax32 prec32_gt_1 prec32_lt_emax32); [assumption|]. lia.
Qed.

Lemma sub_bound x y lo hi :
  SpecFloat.valid_binary prec32 emax32 x = true -> is_finite_sf x = true ->
  SpecFloat.valid_binary prec32 emax32 y = true -> is_finite_sf y = true ->
  lo <= ulps prec32 emax32 x - ulps prec32 emax32 y <= hi ->
  - overflow_ulps prec32 emax32 < rnd_signed prec32 emax32 (-149) lo ->
  rnd_signed prec32 emax32 (-149) hi < overflow_ulps prec32 emax32 ->
  SpecFloat.valid_binary prec32 emax32 (fsub x y) = true /\
  is_finite_sf (fsub x y) = true /\
  rnd_signed prec32 emax32 (-149) lo <= ulps prec32 emax32 (fsub x y)
    <= rnd_signed prec32 emax32 (-149) hi.
Proof.
  intros Vx Fx Vy Fy [Hlo Hhi] Hov1 Hov2.
  destruct (SFsub_sem prec32 emax32 prec32_gt_1 prec32_lt_emax32 x y Vx Vy Fx Fy)
    as (Hv & Hn & Hu).
  cbv zeta in Hv, Hn, Hu. rewrite emin32 in Hu. unfold fsub.
  pose proof (rnd_signed_mono prec32 emax32 prec32_gt_1 prec32_lt_emax32 (-149) _ _
                ltac:(rewrite emin32; lia) Hlo) as M1.
  pose proof (rnd_signed_mono prec32 emax32 prec32_gt_1 prec32_lt_emax32 (-149) _ _
                ltac:(rewrite emin32; lia) Hhi) as M2.
  rewrite <- Hu in M1, M2.
  split; [assumption|]. split; [|lia].
  apply (finite_of_ulps prec32 emax32 prec32_gt_1 prec32_lt_emax32); [assumption|]. lia.
Qed.

(** The box [|z.x| <= 3/8], [|z.y| <= 1/2]. *)
Lemma box_is_inside z :
  SpecFloat.valid_binary prec32 emax32 (vx z) = true -> is_finite_sf (vx z) = true ->
  SpecFloat.valid_binary prec32 emax32 (vy z) = true -> is_finite_sf (vy z) = true ->
  Z.abs (ulps prec32 emax32 (vx z)) <= 3 * 2 ^ 146 ->
  Z.abs (ulps prec32 emax32 (vy z)) <= 2 ^ 148 ->
  inside z = true.
Proof.
  intros Vx Fx Vy Fy Bx By.
  destruct (square_bound (vx z) (3 * 2 ^ 146) Vx Fx Bx ltac:(vm_compute; reflexivity))
    as (Vxx & Fxx & Bxx).
  destruct (square_bound (vy z) (2 ^ 148) Vy Fy By ltac:(vm_compute; reflexivity))
    as (Vyy & Fyy & Byy).
  change (rnd_ulps prec32 emax32 (-298) (3 * 2 ^ 146 * (3 * 2 ^ 146)))
    with (9 * 2 ^ 143) in Bxx.
  change (rnd_ulps prec32 emax32 (-298) (2 ^ 148 * 2 ^ 148)) with (2 ^ 147) in Byy.
  destruct (add_bound (fmul (vx z) (vx z)) (fmul (vy z) (vy z)) 0 (9 * 2 ^ 143 + 2 ^ 147)
              Vxx Fxx Vyy Fyy ltac:(lia) ltac:(vm_compute; reflexivity)
              ltac:(vm_compute; reflexivity)) as (Vd & Fd & Bd).
  unfold inside, flt, dot.
  rewrite (SFltb_ulps prec32 emax32 prec32_gt_1 prec32_lt_emax32); try assumption;
    try reflexivity.
  - apply Z.ltb_lt. destruct Bd as [_ Bd].
    eapply Z.le_lt_trans; [exact Bd|]. vm_compute. reflexivity.
  - destruct (fadd _ _); try discriminate; reflexivity.
Qed.

(** The loop body maps the box into itself when [|c.x|] and [|c.y|] are
    at most [1/8]. *)
Lemma box_is_kept c z :
  SpecFloat.valid_binary prec32 emax32 (vx c) = true -> is_finite_sf (vx c) = true ->
  SpecFloat.valid_binary prec32 emax32 (vy c) = true -> is_finite_sf (vy c) = true ->
  Z.abs (ulps prec32 emax32 (vx c)) <= 2 ^ 146 ->
  Z.abs (ulps prec32 emax32 (vy c)) <= 2 ^ 146 ->
  SpecFloat.valid_binary prec32 emax32 (vx z) = true -> is_finite_sf (vx z) = true ->
  SpecFloat.valid_binary prec32 emax32 (vy z) = true -> is_finite_sf (vy z) = true ->
  Z.abs (ulps prec32 emax32 (vx z)) <= 3 * 2 ^ 146 ->
  Z.abs (ulps prec32 emax32 (vy z)) <= 2 ^ 148 ->
  let z' := loop_body c z in
  SpecFloat.valid_binary prec32 emax32 (vx z') = true /\ is_finite_sf (vx z') = true /\
  SpecFloat.valid_binary prec32 emax32 (vy z') = true /\ is_finite_sf (vy z') = true /\
  Z.abs (ulps prec32 emax32 (vx z')) <= 3 * 2 ^ 146 /\
  Z.abs (ulps prec32 emax32 (vy z')) <= 2 ^ 148.
Proof.
  intros Vcx Fcx Vcy Fcy Bcx Bcy Vx Fx Vy Fy Bx By z'.
  destruct (square_bound (vx z) (3 * 2 ^ 146) Vx Fx Bx ltac:(vm_compute; reflexivity))
    as (Vxx & Fxx & Bxx).
  destruct (square_bound (vy z) (2 ^ 148) Vy Fy By ltac:(vm_compute; reflexivity))
    as (Vyy & Fyy & Byy).
  change (rnd_ulps prec32 emax32 (-298) (3 * 2 ^ 146 * (3 * 2 ^ 146)))
    with (9 * 2 ^ 143) in Bxx.
  change (rnd_ulps prec32 emax32 (-298) (2 ^ 148 * 2 ^ 148)) with (2 ^ 147) in Byy.
  (* the real part *)
  destruct (sub_bound (fmul (vx z) (vx z)) (fmul (vy z) (vy z)) (- 2 ^ 147) (9 * 2 ^ 143)
              Vxx Fxx Vyy Fyy ltac:(lia) ltac:(vm_compute; reflexivity)
              ltac:(vm_compute; reflexivity)) as (Vd & Fd & Bd).
  change (rnd_signed prec32 emax32 (-149) (- 2 ^ 147)) with (- 2 ^ 147) in Bd.
  change (rnd_signed prec32 emax32 (-149) (9 * 2 ^ 143)) with (9 * 2 ^ 143) in Bd.
  destruct (add_bound (fsub (fmul (vx z) (vx z)) (fmul (vy z) (vy z))) (vx c)
              (- 2 ^ 147 - 2 ^ 146) (9 * 2 ^ 143 + 2 ^ 146)
              Vd Fd Vcx Fcx ltac:(lia) ltac:(vm_compute; reflexivity)
              ltac:(vm_compute; reflexivity)) as (Vx' & Fx' & Bx').
  change (rnd_signed prec32 emax32 (-149) (- 2 ^ 147 - 2 ^ 146)) with (- (3 * 2 ^ 146)) in Bx'.
  change (rnd_signed prec32 emax32 (-149) (9 * 2 ^ 143 + 2 ^ 146)) with (17 * 2 ^ 143) in Bx'.
  (* the imaginary part *)
  destruct (mul_bound f2_0 (vx z) (2 ^ 150) (3 * 2 ^ 146) eq_refl eq_refl Vx Fx
              ltac:(vm_compute; discriminate) Bx ltac:(vm_compute; reflexivity))
    as (Vt & Ft & Bt).
  change (rnd_ulps prec32 emax32 (-298) (2 ^ 150 * (3 * 2 ^ 146))) with (3 * 2 ^ 147) in Bt.
  destruct (mul_bound (fmul f2_0 (vx z)) (vy z) (3 * 2 ^ 147) (2 ^ 148) Vt Ft Vy Fy
              Bt By ltac:(vm_compute; reflexivity)) as (Vp & Fp & Bp).
  change (rnd_ulps prec32 emax32 (-298) (3 * 2 ^ 147 * 2 ^ 148)) with (3 * 2 ^ 146) in Bp.
  destruct (add_bound (fmul (fmul f2_0 (vx z)) (vy z)) (vy c)
              (- (3 * 2 ^ 146) - 2 ^ 146) (3 * 2 ^ 146 + 2 ^ 146)
              Vp Fp Vcy Fcy ltac:(lia) ltac:(vm_compute; reflexivity)
              ltac:(vm_compute; reflexivity)) as (Vy' & Fy' & By').
  change (rnd_signed prec32 emax32 (-149) (- (3 * 2 ^ 146) - 2 ^ 146)) with (- 2 ^ 148) in By'.
  change (rnd_signed prec32 emax32 (-149) (3 * 2 ^ 146 + 2 ^ 146)) with (2 ^ 148) in By'.
  unfold z'. cbn [loop_body vx vy].
  repeat split; try assumption; lia.
Qed.

Lemma orbit_in_box c :
  SpecFloat.valid_binary prec32 emax32 (vx c) = true -> is_finite_sf (vx c) = true ->
  SpecFloat.valid_binary prec32 emax32 (vy c) = true -> is_finite_sf (vy c) = true ->
  Z.abs (ulps prec32 emax32 (vx c)) <= 2 ^ 146 ->
  Z.abs (ulps prec32 emax32 (vy c)) <= 2 ^ 146 ->
  forall n,
    SpecFloat.valid_binary prec32 emax32 (vx (orbit c n)) = true /\
    is_finite_sf (vx (orbit c n)) = true /\
    SpecFloat.valid_binary prec32 emax32 (vy (orbit c n)) = true /\
    is_finite_sf (vy (orbit c n)) = true /\
    Z.abs (ulps prec32 emax32 (vx (orbit c n))) <= 3 * 2 ^ 146 /\
    Z.abs (ulps prec32 emax32 (vy (orbit c n))) <= 2 ^ 148.
Proof.
  intros Vcx Fcx Vcy Fcy Bcx Bcy. induction n as [|n IH].
  - cbn [orbit vx vy f0_0 ulps Z.abs]. repeat split; lia.
  - destruct IH as (Vx & Fx & Vy & Fy & Bx & By). cbn [orbit].
    apply box_is_kept; assumption.
Qed.

Lemma eighth_in_ulps x :
  SpecFloat.valid_binary prec32 emax32 x = true -> is_finite_sf x = true ->
  (- (1 # 8) <= float_value x <= 1 # 8)%Q ->
  Z.abs (ulps prec32 emax32 x) <= 2 ^ 146.
Proof.
  intros Vx Fx [Hlo Hhi].
  pose proof (FarPoints.float_value_ulps x Vx Fx) as E.
  assert (HK : (0 <= inject_Z (2 ^ 149))%Q) by (vm_compute; discriminate).
  assert (E1 : ((1 # 8) * inject_Z (2 ^ 149) == inject_Z (2 ^ 146))%Q)
    by (vm_compute; reflexivity).
  assert (E2 : (- (1 # 8) * inject_Z (2 ^ 149) == inject_Z (- 2 ^ 146))%Q)
    by (vm_compute; reflexivity).
  apply Z.abs_le. split; rewrite Zle_Qle.
  - rewrite E, <- E2. apply Qmult_le_compat_r; assumption.
  - rewrite E, <- E1. apply Qmult_le_compat_r; assumption.
Qed.

(** X23: a point of the square [|c.x| <= 1/8], [|c.y| <= 1/8] never
    escapes: in single precision its orbit stays in the box
    [|z.x| <= 3/8], [|z.y| <= 1/2], the bailout test holds at every pass,
    and the loop runs to the cap. *)
Theorem near_origin_never_escapes (c : vec2) (maxIter : Z) :
  SpecFloat.valid_binary prec32 emax32 (vx c) = true ->
  SpecFloat.valid_binary prec32 emax32 (vy c) = true ->
  is_finite_sf (vx c) = true -> is_finite_sf (vy c) = true ->
  (- (1 # 8) <= float_value (vx c) <= 1 # 8)%Q ->
  (- (1 # 8) <= float_value (vy c) <= 1 # 8)%Q ->
  0 <= maxIter <= INT_MAX ->
  snd (escape c maxIter) = maxIter /\
  (forall n, inside (orbit c n) = true).
Proof.
  intros Vcx Vcy Fcx Fcy Hx Hy HM.
  pose proof (eighth_in_ulps _ Vcx Fcx Hx) as Bcx.
  pose proof (eighth_in_ulps _ Vcy Fcy Hy) as Bcy.
  assert (Hin : forall n, inside (orbit c n) = true).
  { intros n.
    destruct (orbit_in_box c Vcx Fcx Vcy Fcy Bcx Bcy n) as (Vx & Fx & Vy & Fy & Bx & By).
    apply box_is_inside; assumption. }
  split; [|exact Hin].
  destruct (escape_orbit c maxIter ltac:(lia)) as (m & E & A & G).
  rewrite E. cbn [snd].
  rewrite loop_guard_inside, Hin in G. cbn [andb] in G. apply Z.ltb_ge in G.
  destruct m as [|k]; [lia|]. destruct (A k ltac:(lia)) as [_ Hk]. lia.
Qed.

Lemma near_origin_never_escapes_witness :
  snd (escape (mkvec2 (S754_finite false 8388608 (-26)) (S754_finite true 8388608 (-26))) 1500)
  = 1500.
Proof.
  apply (near_origin_never_escapes
           (mkvec2 (S754_finite false 8388608 (-26)) (S754_finite true 8388608 (-26))) 1500);
    try reflexivity.
  - vm_compute. split; discriminate.
  - vm_compute. split; discriminate.
  - unfold INT_MAX. lia.
Defined.

End NearOrigin.

(** ** The quad *)

Module Quad.

Import Shader Notions.
Local Open Scope Q_scope.

Lemma quad_corners :
  quad_corner 0 = (- (70368744177664 # 70368744177664), - (70368744177664 # 70368744177664)) /\
  quad_corner 1 = (70368744177664 # 70368744177664, - (70368744177664 # 70368744177664)) /\
  quad_corner 2 = (- (70368744177664 # 70368744177664), 70368744177664 # 70368744177664) /\
  quad_corner 3 = (70368744177664 # 70368744177664, 70368744177664 # 70368744177664).
Proof. vm_compute. repeat split. Qed.

(** X24: the two triangles of the strip that [main] draws cover the
    viewport: with the vertex buffer, the attribute layout and the vertex
    shader of the program, every point of the square [-1, 1] x [-1, 1] of
    normalized device coordinates lies in one of them, so every pixel of
    the window gets a fragment. *)
Theorem quad_covers_the_viewport (x y : Q) :
  -1 <= x <= 1 -> -1 <= y <= 1 ->
  exists t, In t (strip_triangles 0 4) /\ in_triangle t (x, y).
Proof.
  intros Hx Hy. destruct quad_corners as (E0 & E1 & E2 & E3).
  destruct (Qlt_le_dec 0 (x + y)) as [Hpos|Hneg].
  - exists (1, 2, 3)%nat. split; [right; left; reflexivity|].
    unfold in_triangle. rewrite E1, E2, E3. unfold edge. cbn [fst snd].
    right. repeat split; lra.
  - exists (0, 1, 2)%nat. split; [left; reflexivity|].
    unfold in_triangle. rewrite E0, E1, E2. unfold edge. cbn [fst snd].
    left. repeat split; lra.
Qed.

Lemma quad_covers_the_viewport_witness :
  exists t, In t (strip_triangles 0 4) /\ in_triangle t (0, 0).
Proof.
  apply (quad_covers_the_viewport 0 0); split; discriminate.
Defined.

End Quad.

(** ** The host program *)

Module HostFacts.

Import String List ListNotations.
Import Host Notions.
Local Open Scope string_scope.
Local Open Scope list_scope.
Local Open Scope Z_scope.

Lemma fst_bind {A B} (m : M A) (k : A -> M B) : fst (bind m k) = fst m ++ fst (k (snd m)).
Proof. reflexivity. Qed.

Lemma snd_bind {A B} (m : M A) (k : A -> M B) : snd (bind m k) = snd (k (snd m)).
Proof. reflexivity. Qed.

Lemma flat_map_shift {A} (f : nat -> list A) l :
  flat_map f (map S l) = flat_map (fun k => f (S k)) l.
Proof. induction l as [|a l IH]; [reflexivity|]. cbn [map flat_map]. rewrite IH. reflexivity. Qed.

(** *** The rendering loop *)

Lemma rendering_loop_result p window prog vao pending : forall g,
  snd (rendering_loop p window prog vao g pending) = Controller.run g (concat pending).
Proof.
  induction pending as [|evs pending IH]; intros g; [reflexivity|].
  cbn [rendering_loop concat]. rewrite !snd_bind, IH.
  unfold Controller.run. rewrite fold_left_app. reflexivity.
Qed.

(** The calls of one pass of the loop, drawn from the globals [g]. *)
Lemma rendering_loop_calls p window prog vao pending : forall g,
  fst (rendering_loop p window prog vao g pending)
  = flat_map (fun k =>
                glfwWindowShouldClose window
                :: fst (draw_frame p window prog vao
                          (Controller.run g (concat (firstn k pending))))
                ++ [glfwPollEvents])
             (seq 0 (length pending))
    ++ [glfwWindowShouldClose window].
Proof.
  induction pending as [|evs pending IH]; intros g; [reflexivity|].
  cbn [rendering_loop length]. rewrite <- cons_seq, <- seq_shift.
  cbn [flat_map]. rewrite flat_map_shift.
  rewrite !fst_bind, IH. cbn [call fst snd app firstn concat Controller.run fold_left].
  f_equal. rewrite <- !app_assoc. f_equal. cbn [app]. f_equal. f_equal.
  apply flat_map_ext. intros k. cbn [firstn concat].
  unfold Controller.run. rewrite fold_left_app. reflexivity.
Qed.

(** X17: after the loop, the globals are those of all the events in order:
    how the events were spread over the polls does not matter; and the
    frame of pass [k] is drawn from the globals left by the events of the
    [k] polls before it, the first frame from the initial ones. *)
Theorem frames_follow_the_events (p : Platform) (window prog vao : Z)
    (g : Controller.Globals) (pending : list (list Controller.Event)) :
  snd (rendering_loop p window prog vao g pending) = Controller.run g (concat pending) /\
  fst (rendering_loop p window prog vao g pending)
  = flat_map (fun k =>
                glfwWindowShouldClose window
                :: fst (draw_frame p window prog vao
                          (Controller.run g (concat (firstn k pending))))
                ++ [glfwPollEvents])
             (seq 0 (length pending))
    ++ [glfwWindowShouldClose window].
Proof.
  split; [apply rendering_loop_result | apply rendering_loop_calls].
Qed.

(** *** Shader set-up *)

Lemma createShaderProgram_result p :
  snd (createShaderProgram p) = glCreateProgram_result p.
Proof. reflexivity. Qed.

(** The calls of [createShaderProgram], the error reports left out. *)
Lemma createShaderProgram_calls p :
  let vs := glCreateShader_result p GL_VERTEX_SHADER in
  let fs := glCreateShader_result p GL_FRAGMENT_SHADER in
  let prog := glCreateProgram_result p in
  without_reports (fst (createShaderProgram p))
  = [glCreateShader GL_VERTEX_SHADER; glShaderSource vs 1 vertexShaderSource;
     glCompileShader vs; glGetShaderiv vs GL_COMPILE_STATUS;
     glCreateShader GL_FRAGMENT_SHADER; glShaderSource fs 1 fragmentShaderSource;
     glCompileShader fs; glGetShaderiv fs GL_COMPILE_STATUS;
     glCreateProgram; glAttachShader prog vs; glAttachShader prog fs;
     glLinkProgram prog; glGetProgramiv prog GL_LINK_STATUS;
     glDeleteShader vs; glDeleteShader fs].
Proof.
  cbv zeta. unfold createShaderProgram, compileShader.
  destruct (glGetShaderiv_result p (glCreateShader_result p GL_VERTEX_SHADER) =? 0);
  destruct (glGetShaderiv_result p (glCreateShader_result p GL_FRAGMENT_SHADER) =? 0);
  destruct (glGetProgramiv_result p (glCreateProgram_result p) =? 0);
  reflexivity.
Qed.

(** X18: [createShaderProgram] goes on whatever the outcome of the two
    compilations and of the linking: it makes the same calls, deletes
    the two shader objects and returns the program; each failed step
    adds one line to the standard error stream. *)
Theorem createShaderProgram_reports_and_goes_on (p : Platform) :
  let vs := glCreateShader_result p GL_VERTEX_SHADER in
  let fs := glCreateShader_result p GL_FRAGMENT_SHADER in
  let prog := glCreateProgram_result p in
  snd (createShaderProgram p) = prog /\
  without_reports (fst (createShaderProgram p))
  = [glCreateShader GL_VERTEX_SHADER; glShaderSource vs 1 vertexShaderSource;
     glCompileShader vs; glGetShaderiv vs GL_COMPILE_STATUS;
     glCreateShader GL_FRAGMENT_SHADER; glShaderSource fs 1 fragmentShaderSource;
     glCompileShader fs; glGetShaderiv fs GL_COMPILE_STATUS;
     glCreateProgram; glAttachShader prog vs; glAttachShader prog fs;
     glLinkProgram prog; glGetProgramiv prog GL_LINK_STATUS;
     glDeleteShader vs; glDeleteShader fs] /\
  stderr_of (fst (createShaderProgram p))
  = ((if glGetShaderiv_result p vs =? 0
      then [append "Shader Compilation Error: " (glGetShaderInfoLog_result p vs)]
      else [])
     ++ (if glGetShaderiv_result p fs =? 0
         then [append "Shader Compilation Error: " (glGetShaderInfoLog_result p fs)]
         else [])
     ++ (if glGetProgramiv_result p prog =? 0
         then [append "Program Linking Error: " (glGetProgramInfoLog_result p prog)]
         else [])).
Proof.
  cbv zeta. unfold createShaderProgram, compileShader.
  destruct (glGetShaderiv_result p (glCreateShader_result p GL_VERTEX_SHADER) =? 0);
  destruct (glGetShaderiv_result p (glCreateShader_result p GL_FRAGMENT_SHADER) =? 0);
  destruct (glGetProgramiv_result p (glCreateProgram_result p) =? 0);
  repeat split.
Qed.

(** *** [main] *)

(** X19: [main] returns 0 when GLFW, the window and GLAD all start, and -1
    otherwise; a failed start writes one line to the standard error
    stream and draws nothing.  The shaders play no part in this. *)
Theorem main_exit_status (p : Platform) :
  snd (main p) = (if started p then 0 else -1) /\
  (started p = false ->
     stderr_of (fst (main p))
     = [if glfwInit_result p =? 0 then "Failed to initialize GLFW"
        else if glfwCreateWindow_result p =? 0 then "Failed to create GLFW window"
        else "Failed to initialize GLAD"] /\
     forallb (fun c => negb (is_draw c)) (fst (main p)) = true).
Proof.
  unfold started, main, GLFW_FALSE, nullptr.
  destruct (glfwInit_result p =? 0); [split; [reflexivity|intros _; split; reflexivity]|].
  destruct (glfwCreateWindow_result p =? 0);
    [split; [reflexivity|intros _; split; reflexivity]|].
  destruct (gladLoadGLLoader_result p =? 0);
    [split; [reflexivity|intros _; split; reflexivity]|].
  split; [reflexivity|discriminate].
Qed.

Lemma main_exit_status_witness :
  snd (main (mkPlatform 1 0 1 1 1 (fun _ => 1) (fun _ => 1) (fun _ => "")
                        1 (fun _ => 1) (fun _ => "") (fun _ _ => 0) [])) = -1 /\
  stderr_of (fst (main (mkPlatform 1 0 1 1 1 (fun _ => 1) (fun _ => 1) (fun _ => "")
                                   1 (fun _ => 1) (fun _ => "") (fun _ _ => 0) [])))
  = ["Failed to create GLFW window"].
Proof.
  pose proof (main_exit_status
                (mkPlatform 1 0 1 1 1 (fun _ => 1) (fun _ => 1) (fun _ => "")
                            1 (fun _ => 1) (fun _ => "") (fun _ _ => 0) [])) as [H1 H2].
  split; [exact H1 | exact (proj1 (H2 eq_refl))].
Defined.

(** The calls of a run of [main] that starts: the set-up, the shader
    program, the rendering loop and the release of the resources. *)
Lemma main_started (p : Platform) : started p = true ->
  let window := glfwCreateWindow_result p in
  let VAO := glGenVertexArrays_result p in
  let VBO := glGenBuffers_result p in
  let program := createShaderProgram p in
  main p
  = ([glfwInit; glfwCreateWindow Controller.WIDTH Controller.HEIGHT title;
      glfwMakeContextCurrent window; gladLoadGLLoader;
      glfwSetScrollCallback window scrollCallback;
      glfwSetMouseButtonCallback window mouseButtonCallback;
      glfwSetCursorPosCallback window cursorPositionCallback;
      glGenVertexArrays 1; glGenBuffers 1;
      glBindVertexArray VAO; glBindBuffer GL_ARRAY_BUFFER VBO;
      glBufferData GL_ARRAY_BUFFER 32 vertices GL_STATIC_DRAW;
      glVertexAttribPointer 0 2 GL_FLOAT false 8 0;
      glEnableVertexAttribArray 0;
      glBindBuffer GL_ARRAY_BUFFER 0; glBindVertexArray 0]
     ++ fst program
     ++ fst (rendering_loop p window (snd program) VAO Controller.initial (polls p))
     ++ [glDeleteVertexArrays 1 VAO; glDeleteBuffers 1 VBO;
         glDeleteProgram (snd program); glfwDestroyWindow window; glfwTerminate],
     0).
Proof.
  unfold started, main, GLFW_FALSE, nullptr.
  destruct (glfwInit_result p =? 0); [discriminate|].
  destruct (glfwCreateWindow_result p =? 0); [discriminate|].
  destruct (gladLoadGLLoader_result p =? 0); [discriminate|]. intros _.
  cbv zeta.
  generalize (createShaderProgram p). intros program.
  lazy beta iota zeta delta [bind call ret fst snd app].
  reflexivity.
Qed.

Lemma without_reports_app t1 t2 :
  without_reports (t1 ++ t2) = without_reports t1 ++ without_reports t2.
Proof. apply filter_app. Qed.

Lemma draw_frame_same p p' window prog vao g :
  glGetUniformLocation_result p' = glGetUniformLocation_result p ->
  draw_frame p' window prog vao g = draw_frame p window prog vao g.
Proof. intros H. unfold draw_frame. rewrite H. reflexivity. Qed.

Lemma rendering_loop_same p p' window prog vao pending :
  glGetUniformLocation_result p' = glGetUniformLocation_result p ->
  forall g, rendering_loop p' window prog vao g pending
            = rendering_loop p window prog vao g pending.
Proof.
  intros H. induction pending as [|evs pending IH]; intros g; [reflexivity|].
  cbn [rendering_loop]. rewrite IH, (draw_frame_same p p') by assumption. reflexivity.
Qed.

Lemma createShaderProgram_same p p' :
  glCreateShader_result p' = glCreateShader_result p ->
  glCreateProgram_result p' = glCreateProgram_result p ->
  snd (createShaderProgram p') = snd (createShaderProgram p) /\
  without_reports (fst (createShaderProgram p'))
  = without_reports (fst (createShaderProgram p)).
Proof.
  intros H1 H2.
  rewrite !createShaderProgram_result, (createShaderProgram_calls p),
    (createShaderProgram_calls p').
  cbv zeta. rewrite H1, H2. split; reflexivity.
Qed.

(** X20: a shader that fails to compile or a program that fails to link
    changes nothing but the error report: [main] makes the same calls,
    draws the same frames and returns the same value. *)
Theorem shader_errors_are_only_reported (p p' : Platform) :
  same_but_shader_status p p' ->
  snd (main p') = snd (main p) /\
  without_reports (fst (main p')) = without_reports (fst (main p)).
Proof.
  intros (E1 & E2 & E3 & E4 & E5 & E6 & E7 & E8 & E9).
  destruct (createShaderProgram_same p p' E6 E7) as [S1 S2].
  destruct (started p) eqn:St.
  - assert (St' : started p' = true) by (unfold started in *; rewrite E1, E2, E3; exact St).
    rewrite (main_started p St), (main_started p' St'). cbv zeta. cbn [fst snd].
    split; [reflexivity|].
    rewrite !without_reports_app, S1, S2, E2, E4, E5, E9.
    rewrite (rendering_loop_same p p') by assumption.
    reflexivity.
  - unfold started in St. unfold main, GLFW_FALSE, nullptr. rewrite E1, E2, E3.
    destruct (glfwInit_result p =? 0); [split; reflexivity|].
    destruct (glfwCreateWindow_result p =? 0); [split; reflexivity|].
    destruct (gladLoadGLLoader_result p =? 0); [split; reflexivity|].
    discriminate.
Qed.

Lemma shader_errors_are_only_reported_witness :
  snd (main (sample_platform 0 [[]; []])) = snd (main (sample_platform 1 [[]; []])) /\
  without_reports (fst (main (sample_platform 0 [[]; []])))
  = without_reports (fst (main (sample_platform 1 [[]; []]))).
Proof.
  apply (shader_errors_are_only_reported (sample_platform 1 [[]; []])
                                         (sample_platform 0 [[]; []])).
  repeat split.
Defined.

(** X21: on a normal exit [main] ends by releasing what it created: the
    vertex array, the buffer, the program, the window and GLFW.  When
    GLAD fails to load, it returns with the window open and GLFW
    initialised: neither [glfwDestroyWindow] nor [glfwTerminate] is
    called. *)
Theorem main_releases_on_normal_exit_only (p : Platform) :
  (started p = true ->
     exists t,
       fst (main p)
       = t ++ [glDeleteVertexArrays 1 (glGenVertexArrays_result p);
               glDeleteBuffers 1 (glGenBuffers_result p);
               glDeleteProgram (glCreateProgram_result p);
               glfwDestroyWindow (glfwCreateWindow_result p);
               glfwTerminate]) /\
  (glfwInit_result p <> 0 -> glfwCreateWindow_result p <> 0 ->
   gladLoadGLLoader_result p = 0 ->
     fst (main p)
     = [glfwInit; glfwCreateWindow Controller.WIDTH Controller.HEIGHT title;
        glfwMakeContextCurrent (glfwCreateWindow_result p); gladLoadGLLoader;
        cerr "Failed to initialize GLAD"]).
Proof.
  split.
  - intros St. rewrite (main_started p St). cbv zeta. cbn [fst].
    rewrite createShaderProgram_result. eexists. rewrite !app_assoc. reflexivity.
  - intros H1 H2 H3. unfold main, GLFW_FALSE, nullptr.
    apply Z.eqb_neq in H1, H2. rewrite H1, H2, H3. reflexivity.
Qed.

Lemma main_releases_on_normal_exit_only_witness :
  exists t,
    fst (main (sample_platform 1 [[Controller.Scroll 0 1]]))
    = t ++ [glDeleteVertexArrays 1 1; glDeleteBuffers 1 1; glDeleteProgram 3;
            glfwDestroyWindow 1; glfwTerminate].
Proof.
  exact (proj1 (main_releases_on_normal_exit_only
                  (sample_platform 1 [[Controller.Scroll 0 1]])) eq_refl).
Defined.

(** *** Draw calls *)

Lemma draws_of_createShaderProgram p : filter is_draw (fst (createShaderProgram p)) = [].
Proof.
  unfold createShaderProgram, compileShader.
  destruct (glGetShaderiv_result p (glCreateShader_result p GL_VERTEX_SHADER) =? 0);
  destruct (glGetShaderiv_result p (glCreateShader_result p GL_FRAGMENT_SHADER) =? 0);
  destruct (glGetProgramiv_result p (glCreateProgram_result p) =? 0);
  reflexivity.
Qed.

Lemma draws_of_rendering_loop p window prog vao pending : forall g,
  length (filter is_draw (fst (rendering_loop p window prog vao g pending)))
  = length pending.
Proof.
  induction pending as [|evs pending IH]; intros g; [reflexivity|].
  cbn [rendering_loop]. rewrite !fst_bind, !filter_app, !length_app, IH.
  reflexivity.
Qed.

(** X25: [main] draws once in each pass of the rendering loop and nowhere
    else: the number of [glDrawArrays] calls of a run is the number of
    polls when the start-up succeeds, and none otherwise. *)
Theorem one_draw_per_pass (p : Platform) :
  length (filter is_draw (fst (main p)))
  = if started p then length (polls p) else 0%nat.
Proof.
  destruct (started p) eqn:St.
  - rewrite (main_started p St). cbv zeta. cbn [fst].
    rewrite !filter_app, !length_app, draws_of_createShaderProgram,
      draws_of_rendering_loop.
    cbn [filter is_draw length Nat.add]. lia.
  - unfold started in St. unfold main, GLFW_FALSE, nullptr.
    destruct (glfwInit_result p =? 0); [reflexivity|].
    destruct (glfwCreateWindow_result p =? 0); [reflexivity|].
    destruct (gladLoadGLLoader_result p =? 0); [reflexivity|].
    discriminate.
Qed.

End HostFacts.
